(** * Heredity: exact inference over a pedigree

    A shallow embedding of [Project2/heredity/heredity.py].

    Conventions of the embedding.
    - Python numbers (the [int] 0 and 1 that seed the accumulators, and the
      [float] parameters) are exact rationals [Q]; results are compared
      with [==] ([Qeq]).
    - A Python [dict] is an insertion-ordered association list with unique
      keys ([Dict.get] reads, [Dict.set] overwrites in place or appends).
    - A Python [set] of names is a [gset string]; [list(s)] is
      [elements s].
    - A failing operation raises: [KeyError] for a missing key,
      [ZeroDivisionError] for [x / 0], [TypeError] for a value of the
      wrong kind.
    - Dictionaries that are mutated through several references
      ([probabilities] and its nested distributions) live in a heap of
      objects addressed by location. *)

From Stdlib Require Import QArith Qfield Lqa PrimFloat.
From stdpp Require Import gmap strings list.

Local Open Scope Q_scope.

(** ** Exceptions and fallible results *)

(** [BadReference] stands for a dangling location; Python cannot produce
    one, and no function below raises it on a heap it has built. *)
Inductive exn := KeyError | ZeroDivisionError | TypeError | BadReference.

Definition result (A : Type) : Type := exn + A.

Definition ok {A} (a : A) : result A := inr a.
Definition raise {A} (e : exn) : result A := inl e.

Definition rbind {A B} (m : result A) (k : A → result B) : result B :=
  match m with
  | inl e => inl e
  | inr a => k a
  end.

Declare Scope result_scope.
Delimit Scope result_scope with result.
Notation "'do' x <- m ; k" := (rbind m (λ x, k))
  (at level 10, x name, m at level 100, k at level 200) : result_scope.
Local Open Scope result_scope.

(** A [for] loop whose body may raise, threading an accumulator. *)
Fixpoint for_each {A B} (body : A → B → result A) (xs : list B) (acc : A)
  : result A :=
  match xs with
  | [] => ok acc
  | x :: xs' => do acc' <- body acc x; for_each body xs' acc'
  end.

(** ** Dictionaries *)

Module Dict.
Section dict.
Context {K V : Type} `{EqDecision K}.

Definition t := list (K * V).

Fixpoint get (d : t) (k : K) : result V :=
  match d with
  | [] => raise KeyError
  | (k', v) :: d' => if decide (k' = k) then ok v else get d' k
  end.

(** [d[k] = v] *)
Fixpoint set (d : t) (k : K) (v : V) : t :=
  match d with
  | [] => [(k, v)]
  | (k', v') :: d' =>
      if decide (k' = k) then (k', v) :: d' else (k', v') :: set d' k v
  end.

Definition keys (d : t) : list K := d.*1.
Definition values (d : t) : list V := d.*2.
End dict.
Global Arguments t : clear implicits.
End Dict.

(** ** Model parameters *)

(** [PROBS["gene"]] *)
Definition PROBS_gene : Dict.t nat Q := [(2%nat, 0.01); (1%nat, 0.03); (0%nat, 0.96)].

(** [PROBS["trait"]] *)
Definition PROBS_trait : Dict.t nat (Dict.t bool Q) :=
  [(2%nat, [(true, 0.65); (false, 0.35)]);
   (1%nat, [(true, 0.56); (false, 0.44)]);
   (0%nat, [(true, 0.01); (false, 0.99)])].

(** [PROBS["mutation"]] *)
Definition PROBS_mutation : Q := 0.01.

(** ** Pedigree *)

Record Person := mkPerson {
  name : string;
  mother : option string;
  father : option string;
  trait : option bool
}.

(** [people]: the dict built by [load_data], name to record. *)
Definition People := Dict.t string Person.

(** [ppl in s] where [ppl] is a parent field, which may be [None]. *)
Definition parent_in (ppl : option string) (s : gset string) : bool :=
  match ppl with
  | Some n => bool_decide (n ∈ s)
  | None => false
  end.

(** [1 if person in one_gene else 2 if person in two_genes else 0] *)
Definition gene_count (person : string) (one_gene two_genes : gset string) : nat :=
  if bool_decide (person ∈ one_gene) then 1
  else if bool_decide (person ∈ two_genes) then 2 else 0.

Definition parent_gene_count (ppl : option string) (one_gene two_genes : gset string) : nat :=
  if parent_in ppl one_gene then 1
  else if parent_in ppl two_genes then 2 else 0.

(** ** joint_probability *)

(** [0 + PROBS['mutation'] if number == 0 else 0.5 if number == 1
     else 1 - PROBS['mutation']] *)
Definition perc_of (number : nat) : Q :=
  if (number =? 0)%nat then 0 + PROBS_mutation
  else if (number =? 1)%nat then 0.5
  else 1 - PROBS_mutation.

(** The inner loop [for ppl in [mother, father]] filling [percentages]. *)
Definition fill_percentages (one_gene two_genes : gset string)
    (parents : list (option string)) : Dict.t (option string) Q :=
  fold_left
    (λ percentages ppl,
       let number := parent_gene_count ppl one_gene two_genes in
       let perc := perc_of number in
       Dict.set percentages ppl perc)
    parents [].

(** The factor by which a child's gene count multiplies [probability]:
    the three branches on [gene_number], with [pm = percentages[mother]]
    and [pf = percentages[father]]. *)
Definition inherit_factor (gene_number : nat) (pm pf : Q) : Q :=
  if (gene_number =? 0)%nat then (1 - pm) * (1 - pf)
  else if (gene_number =? 1)%nat then (1 - pm) * pf + pm * (1 - pf)
  else pm * pf.

(** One iteration of [for person in people].  Every branch on
    [gene_number] reads both [percentages[mother]] and
    [percentages[father]]; the two reads are done once, before the
    branch. *)
Definition joint_probability_body (people : People)
    (one_gene two_genes have_trait : gset string)
    (probability : Q) (person : string) : result Q :=
  let gene_number := gene_count person one_gene two_genes in
  let trait := bool_decide (person ∈ have_trait) in
  do gene_numb_prop <- Dict.get PROBS_gene gene_number;
  do trait_row <- Dict.get PROBS_trait gene_number;
  do trait_prop <- Dict.get trait_row trait;
  do record <- Dict.get people person;
  match mother record with
  | None =>
      ok (probability * (gene_numb_prop * trait_prop))
  | Some _ =>
      let mother := mother record in
      let father := father record in
      let percentages := fill_percentages one_gene two_genes [mother; father] in
      do pm <- Dict.get percentages mother;
      do pf <- Dict.get percentages father;
      let probability := probability * inherit_factor gene_number pm pf in
      ok (probability * trait_prop)
  end.

Definition joint_probability (people : People)
    (one_gene two_genes have_trait : gset string) : result Q :=
  for_each (joint_probability_body people one_gene two_genes have_trait)
    (Dict.keys people) 1.

(** The pedigree of [test_joint_probability_simple]. *)
Definition simple_family_data : People :=
  [("person1"%string, mkPerson "person1" None None None);
   ("person2"%string, mkPerson "person2" None None None)].

(** The pedigree of [test_joint_probability_multiple_children]. *)
Definition family_data : People :=
  [("mother"%string, mkPerson "mother" None None None);
   ("father"%string, mkPerson "father" None None None);
   ("child1"%string, mkPerson "child1" (Some "mother"%string) (Some "father"%string) None);
   ("child2"%string, mkPerson "child2" (Some "mother"%string) (Some "father"%string) None);
   ("child3"%string, mkPerson "child3" (Some "mother"%string) (Some "father"%string) None)].

(** ** The hypothesis enumerator *)

(** [itertools.combinations(l, r)], in the order itertools yields. *)
Fixpoint combinations {A} (l : list A) (r : nat) : list (list A) :=
  match l with
  | [] => match r with O => [[]] | S _ => [] end
  | x :: l' =>
      match r with
      | O => [[]]
      | S r' => (cons x <$> combinations l' r') ++ combinations l' r
      end
  end.

(** The chained tuples [combinations(s, r) for r in range(len(s) + 1)]. *)
Definition chained_combinations {A} (l : list A) : list (list A) :=
  concat (combinations l <$> seq 0 (length l + 1)).

Definition powerset (s : gset string) : list (gset string) :=
  let s := elements s in
  list_to_set <$> chained_combinations s.

(** [any(f(x) for x in xs)], stopping at the first true element. *)
Fixpoint any_of {A} (f : A → result bool) (xs : list A) : result bool :=
  match xs with
  | [] => ok false
  | x :: xs' => do b <- f x; if b then ok true else any_of f xs'
  end.

(** [a is not None and a != b] for a tri-state [a]. *)
Definition contradicts (observed : option bool) (assumed : bool) : bool :=
  match observed with
  | None => false
  | Some b => negb (eqb b assumed)
  end.

Definition fails_evidence (people : People) (names have_trait : gset string)
  : result bool :=
  any_of
    (λ person,
       do record <- Dict.get people person;
       ok (contradicts (trait record) (bool_decide (person ∈ have_trait))))
    (elements names).

(** [names = set(people)] *)
Definition names_of (people : People) : gset string :=
  list_to_set (Dict.keys people).

(** ** The object heap *)

Abbreviation loc := nat (only parsing).

(** Dictionary keys.  Python hashes and compares [True] as [1] and [False]
    as [0], so a boolean key is the integer key it equals. *)
Inductive key := KStr (s : string) | KInt (n : Z).

Global Instance key_eq_dec : EqDecision key.
Proof. solve_decision. Defined.

Definition key_of_bool (b : bool) : key := KInt (if b then 1 else 0).
Definition key_of_nat (n : nat) : key := KInt (Z.of_nat n).

Inductive value := VNum (q : Q) | VRef (l : loc).

Abbreviation object := (Dict.t key value) (only parsing).
Abbreviation heap := (list (Dict.t key value)) (only parsing).

(** Computations over the heap that may raise; the heap as it was when
    the exception was raised is kept. *)
Definition M (A : Type) : Type := heap → result A * heap.

Definition mpure {A} (a : A) : M A := λ h, (ok a, h).
Definition mraise {A} (e : exn) : M A := λ h, (raise e, h).
Definition mlift {A} (r : result A) : M A := λ h, (r, h).

Definition mthen {A B} (m : M A) (k : A → M B) : M B :=
  λ h, match m h with
       | (inr a, h') => k a h'
       | (inl e, h') => (inl e, h')
       end.

Notation "x <~ m ;; k" := (mthen m (λ x, k))
  (at level 100, m at next level, k at level 200, right associativity).

Fixpoint for_in {B} (xs : list B) (body : B → M ()) : M () :=
  match xs with
  | [] => mpure ()
  | x :: xs' => _ <~ body x;; for_in xs' body
  end.

(** A new object. *)
Definition alloc (o : object) : M loc := λ h, (ok (length h), h ++ [o]).

Definition load (l : loc) : M object :=
  λ h, match h !! l with
       | Some o => (ok o, h)
       | None => (raise BadReference, h)
       end.

Definition store (l : loc) (o : object) : M () :=
  λ h, match h !! l with
       | Some _ => (ok (), <[l := o]> h)
       | None => (raise BadReference, h)
       end.

(** [d[k]] *)
Definition getitem (d : loc) (k : key) : M value :=
  o <~ load d;; mlift (Dict.get o k).

(** [d[k] = v] *)
Definition setitem (d : loc) (k : key) (v : value) : M () :=
  o <~ load d;; store d (Dict.set o k v).

Definition as_ref (v : value) : M loc :=
  match v with VRef l => mpure l | VNum _ => mraise TypeError end.

Definition as_num (v : value) : result Q :=
  match v with VNum q => ok q | VRef _ => raise TypeError end.

(** [d[k1][k2]], a reference to the nested dictionary. *)
Definition getref (d : loc) (k : key) : M loc :=
  v <~ getitem d k;; as_ref v.

(** [person in s] for a key of [probabilities]. *)
Definition key_in (k : key) (s : gset string) : bool :=
  match k with
  | KStr n => bool_decide (n ∈ s)
  | KInt _ => false
  end.

(** ** update *)

(** [d[k] += p] *)
Definition add_to (d : loc) (k : key) (p : Q) : M () :=
  v <~ getitem d k;;
  q <~ mlift (as_num v);;
  setitem d k (VNum (q + p)).

(** The body of [for person in probabilities]. *)
Definition update_person (probabilities : loc)
    (one_gene two_genes have_trait : gset string) (p : Q) (person : key)
  : M () :=
  let gene_number :=
    if key_in person one_gene then 1%nat
    else if key_in person two_genes then 2%nat else 0%nat in
  entry <~ getref probabilities person;;
  gene <~ getref entry (KStr "gene");;
  _ <~ add_to gene (key_of_nat gene_number) p;;
  entry <~ getref probabilities person;;
  trait <~ getref entry (KStr "trait");;
  add_to trait (key_of_bool (key_in person have_trait)) p.

Definition update (probabilities : loc) (one_gene two_genes have_trait : gset string)
    (p : Q) : M () :=
  outer <~ load probabilities;;
  for_in (Dict.keys outer)
    (update_person probabilities one_gene two_genes have_trait p).

(** ** normalize *)

(** [sum(values)]: the builtin starts from the integer 0 and adds from
    the left. *)
Definition py_sum (values : list value) : result Q :=
  for_each (λ acc v, do q <- as_num v; ok (acc + q)) values 0.

(** [val / summed] *)
Definition py_div (val summed : Q) : result Q :=
  if Qeq_bool summed 0 then raise ZeroDivisionError else ok (val / summed).

(** The body of [for category in probabilities[person][typ]]. *)
Definition normalize_bucket (probabilities normalized : loc)
    (person typ : key) (summed : Q) (category : key) : M () :=
  entry <~ getref probabilities person;;
  dist <~ getref entry typ;;
  v <~ getitem dist category;;
  val <~ mlift (as_num v);;
  normalized_val <~ mlift (py_div val summed);;
  entry' <~ getref normalized person;;
  dist' <~ getref entry' typ;;
  setitem dist' category (VNum normalized_val).

(** The body of [for typ in ['gene', 'trait']]. *)
Definition normalize_dist (probabilities normalized : loc)
    (person typ : key) : M () :=
  entry <~ getref probabilities person;;
  dist <~ getref entry typ;;
  o <~ load dist;;
  summed <~ mlift (py_sum (Dict.values o));;
  entry <~ getref probabilities person;;
  dist <~ getref entry typ;;
  o <~ load dist;;
  for_in (Dict.keys o)
    (normalize_bucket probabilities normalized person typ summed).

Definition normalize (probabilities : loc) : M loc :=
  outer <~ load probabilities;;
  normalized <~ alloc outer;;
  outer <~ load probabilities;;
  _ <~ for_in (Dict.keys outer) (λ person,
    for_in [KStr "gene"; KStr "trait"]
      (normalize_dist probabilities normalized person));;
  mpure normalized.

(** ** main, without its input and output *)

(** One item of the dict comprehension that builds [probabilities]: the
    value is built (the two distributions, then the entry holding them)
    and stored under the person's name. *)
Definition init_person (probabilities : loc) (person : string) : M () :=
  gene <~ alloc [(KInt 2, VNum 0); (KInt 1, VNum 0); (KInt 0, VNum 0)];;
  trait <~ alloc [(key_of_bool true, VNum 0); (key_of_bool false, VNum 0)];;
  entry <~ alloc [(KStr "gene", VRef gene); (KStr "trait", VRef trait)];;
  setitem probabilities (KStr person) (VRef entry).

(** The dict comprehension that builds [probabilities]. *)
Definition init_probabilities (people : People) : M loc :=
  probabilities <~ alloc [];;
  _ <~ for_in (Dict.keys people) (init_person probabilities);;
  mpure probabilities.

(** The three nested loops of [main]. *)
Definition accumulate (people : People) (probabilities : loc) : M () :=
  let names := names_of people in
  for_in (powerset names) (λ have_trait,
    fails <~ mlift (fails_evidence people names have_trait);;
    if fails : bool then mpure ()
    else
      for_in (powerset names) (λ one_gene,
        for_in (powerset (names ∖ one_gene)) (λ two_genes,
          p <~ mlift (joint_probability people one_gene two_genes have_trait);;
          update probabilities one_gene two_genes have_trait p))).

(** The hypotheses the loops of [main] reach, in the order they are
    reached: the gene hypotheses of the two inner loops, the trait
    subsets that pass the evidence check, and the triples handed to
    [joint_probability] and [update]. *)
Definition gene_hypotheses (names : gset string)
  : list (gset string * gset string) :=
  one_gene ← powerset names;
  two_genes ← powerset (names ∖ one_gene);
  [(one_gene, two_genes)].

Definition accepted (people : People) (have_trait : gset string) : bool :=
  match fails_evidence people (names_of people) have_trait with
  | inr false => true
  | _ => false
  end.

Definition hypotheses (people : People)
  : list (gset string * gset string * gset string) :=
  have_trait ← filter (λ have_trait, accepted people have_trait)
                 (powerset (names_of people));
  genes ← gene_hypotheses (names_of people);
  [(have_trait, genes.1, genes.2)].

(** The innermost statement pair of [main], for one hypothesis. *)
Definition account (people : People) (probabilities : loc)
    (hyp : gset string * gset string * gset string) : M () :=
  let '(have_trait, one_gene, two_genes) := hyp in
  p <~ mlift (joint_probability people one_gene two_genes have_trait);;
  update probabilities one_gene two_genes have_trait p.

(** [main] from the loaded [people] through the call of [normalize]; the
    value [normalize] returns is dropped, and [probabilities] is what the
    printing loop reads. *)
Definition main (people : People) : M loc :=
  probabilities <~ init_probabilities people;;
  _ <~ accumulate people probabilities;;
  _ <~ normalize probabilities;;
  mpure probabilities.

(** The pedigree of [test_joint_probability_three_generation]. *)
Definition three_generation_data : People :=
  [("grandmother"%string, mkPerson "grandmother" None None None);
   ("grandfather"%string, mkPerson "grandfather" None None None);
   ("mother"%string,
    mkPerson "mother" (Some "grandmother"%string) (Some "grandfather"%string) None);
   ("father"%string, mkPerson "father" None None None);
   ("child"%string,
    mkPerson "child" (Some "mother"%string) (Some "father"%string) None)].

(** A pedigree with evidence: Lily is known to have the trait, James is
    known not to, nothing is known about their child Harry. *)
Definition potter_family : People :=
  [("Harry"%string,
    mkPerson "Harry" (Some "Lily"%string) (Some "James"%string) None);
   ("James"%string, mkPerson "James" None None (Some false));
   ("Lily"%string, mkPerson "Lily" None None (Some true))].

(** The pedigree Alice, Bob and their child Carol, no trait known. *)
Definition carol_family : People :=
  [("Alice"%string, mkPerson "Alice" None None None);
   ("Bob"%string, mkPerson "Bob" None None None);
   ("Carol"%string, mkPerson "Carol" (Some "Alice"%string) (Some "Bob"%string) None)].

(** ** Reference definitions

    The quantities the specification names, written from its words; the
    theorems below compare them with what the code computes. *)

(** Unconditional prior of a gene count. *)
Definition prior (copies : nat) : Q :=
  match copies with
  | 0%nat => 0.96
  | 1%nat => 0.03
  | _ => 0.01
  end.

(** P(trait value | gene count). *)
Definition likelihood (copies : nat) (has_trait : bool) : Q :=
  match copies, has_trait with
  | 0%nat, true => 0.01
  | 0%nat, false => 0.99
  | 1%nat, true => 0.56
  | 1%nat, false => 0.44
  | _, true => 0.65
  | _, false => 0.35
  end.

(** Transmission probability of a parent with the given gene count. *)
Definition transmit (copies : nat) : Q :=
  match copies with
  | 0%nat => PROBS_mutation
  | 1%nat => 1 / 2
  | _ => 1 - PROBS_mutation
  end.

(** Probability of a child's gene count from its parents' transmission
    probabilities. *)
Definition child_gene_probability (copies : nat) (tm tf : Q) : Q :=
  match copies with
  | 0%nat => (1 - tm) * (1 - tf)
  | 1%nat => (1 - tm) * tf + tm * (1 - tf)
  | _ => tm * tf
  end.

(** A founder has no recorded parents. *)
Definition is_founder (r : Person) : bool :=
  match mother r, father r with
  | None, None => true
  | _, _ => false
  end.

(** The invariant of the data model: mother and father are both unset or
    both set. *)
Definition both_or_neither (r : Person) : bool :=
  match mother r, father r with
  | None, None | Some _, Some _ => true
  | _, _ => false
  end.

(** The gene-copy count a gene hypothesis gives a person.  The
    hypothesis is two sets of identifiers: the members of the first have
    one copy, the members of the second have two copies, and everyone
    else has none. *)
Definition hypothesised_copies (one_copy two_copies : gset string)
    (person : string) : nat :=
  if decide (person ∈ one_copy) then 1
  else if decide (person ∈ two_copies) then 2
  else 0.

(** The term of a founder: the unconditional prior of the hypothesised
    gene count times the probability of the hypothesised trait value
    given that count. *)
Definition founder_term (one_copy two_copies with_trait : gset string)
    (person : string) : Q :=
  let copies := hypothesised_copies one_copy two_copies person in
  prior copies * likelihood copies (bool_decide (person ∈ with_trait)).

(** The individual contribution of one person to the joint probability:
    for a person with recorded parents, the probability of the
    hypothesised gene count given the transmission probabilities of the
    mother's and the father's hypothesised gene counts, times the
    probability of the hypothesised trait value; for a founder, the
    founder's term. *)
Definition contribution (one_copy two_copies with_trait : gset string)
    (person : string) (r : Person) : Q :=
  let copies := hypothesised_copies one_copy two_copies person in
  match mother r, father r with
  | Some m, Some f =>
      child_gene_probability copies
        (transmit (hypothesised_copies one_copy two_copies m))
        (transmit (hypothesised_copies one_copy two_copies f))
      * likelihood copies (bool_decide (person ∈ with_trait))
  | _, _ => founder_term one_copy two_copies with_trait person
  end.

(** *** The shape of a probabilities table in the heap

    One [cell] per person: the person's key, the locations of the
    person's entry and of its two distributions, and the numbers the two
    distributions hold. *)
Record cell := mkCell {
  c_key : key;
  c_entry : loc;
  c_gene : loc;
  c_trait : loc;
  c_gdist : Dict.t key Q;
  c_tdist : Dict.t key Q
}.

(** A dictionary of numbers as a heap object. *)
Definition num_object (d : Dict.t key Q) : object :=
  (λ kv, (kv.1, VNum kv.2)) <$> d.

Definition cell_locs (c : cell) : list loc := [c_entry c; c_gene c; c_trait c].

Definition cell_ok (h : heap) (c : cell) : Prop :=
  h !! c_entry c = Some [(KStr "gene", VRef (c_gene c));
                         (KStr "trait", VRef (c_trait c))]
  ∧ h !! c_gene c = Some (num_object (c_gdist c))
  ∧ h !! c_trait c = Some (num_object (c_tdist c))
  ∧ NoDup (Dict.keys (c_gdist c))
  ∧ NoDup (Dict.keys (c_tdist c)).

(** The outer dictionary of a table. *)
Definition outer_of (cells : list cell) : object :=
  (λ c, (c_key c, VRef (c_entry c))) <$> cells.

(** [represents h probabilities cells]: in heap [h] the object at
    [probabilities] is a table with the given cells, every dictionary of
    which is an object of its own (no two references of the table lead
    to the same object). *)
Definition represents (h : heap) (probabilities : loc) (cells : list cell)
  : Prop :=
  h !! probabilities = Some (outer_of cells)
  ∧ NoDup (c_key <$> cells)
  ∧ NoDup (probabilities :: (cells ≫= cell_locs))
  ∧ Forall (cell_ok h) cells.

(** What the builtin [sum] returns on the values of a distribution. *)
Definition dist_sum (d : Dict.t key Q) : Q := fold_left Qplus (Dict.values d) 0.

(** Every bucket divided by [s]. *)
Definition scale (d : Dict.t key Q) (s : Q) : Dict.t key Q :=
  (λ kv, (kv.1, kv.2 / s)) <$> d.

Definition normalized_cell (c : cell) : cell :=
  mkCell (c_key c) (c_entry c) (c_gene c) (c_trait c)
    (scale (c_gdist c) (dist_sum (c_gdist c)))
    (scale (c_tdist c) (dist_sum (c_tdist c))).

(** A distribution on which [normalize] divides by zero: it has a bucket
    and its buckets add up to zero. *)
Definition degenerate (d : Dict.t key Q) : bool :=
  match d with
  | [] => false
  | _ :: _ => Qeq_bool (dist_sum d) 0
  end.

Definition cell_degenerate (c : cell) : bool :=
  degenerate (c_gdist c) || degenerate (c_tdist c).

(** A table in the shape [main] leaves it for a single founder: the outer
    dictionary at location 0, then the gene distribution, the trait
    distribution and the person's entry. *)
Definition founder_cells : list cell :=
  [mkCell (KStr "Harry") 3 1 2
     [(KInt 2, 0.01); (KInt 1, 0.03); (KInt 0, 0.96)]
     [(KInt 1, 0.0329); (KInt 0, 0.9671)]].

Definition founder_heap : heap :=
  [[(KStr "Harry", VRef 3)];
   [(KInt 2, VNum 0.01); (KInt 1, VNum 0.03); (KInt 0, VNum 0.96)];
   [(KInt 1, VNum 0.0329); (KInt 0, VNum 0.9671)];
   [(KStr "gene", VRef 1); (KStr "trait", VRef 2)]].

(** The same table before any hypothesis has been accumulated: every
    bucket is still zero. *)
Definition blank_cells : list cell :=
  [mkCell (KStr "Harry") 3 1 2
     [(KInt 2, 0); (KInt 1, 0); (KInt 0, 0)]
     [(KInt 1, 0); (KInt 0, 0)]].

Definition blank_heap : heap :=
  [[(KStr "Harry", VRef 3)];
   [(KInt 2, VNum 0); (KInt 1, VNum 0); (KInt 0, VNum 0)];
   [(KInt 1, VNum 0); (KInt 0, VNum 0)];
   [(KStr "gene", VRef 1); (KStr "trait", VRef 2)]].

(** The references [normalize_bucket] follows to reach the dictionary at
    [l], through [probabilities] and through its copy [normalized]. *)
Definition focus (h : heap) (probabilities normalized : loc)
    (person typ : key) (l : loc) : Prop :=
  ∃ outer e edict,
    h !! probabilities = Some outer
    ∧ h !! normalized = Some outer
    ∧ Dict.get outer person = ok (VRef e)
    ∧ h !! e = Some edict
    ∧ Dict.get edict typ = ok (VRef l)
    ∧ l ≠ probabilities ∧ l ≠ normalized ∧ l ≠ e.

(** *** The table [main] builds *)

Definition zero_gene : Dict.t key Q := [(KInt 2, 0); (KInt 1, 0); (KInt 0, 0)].
Definition zero_trait : Dict.t key Q := [(KInt 1, 0); (KInt 0, 0)].

(** The cell of a person whose three dictionaries were allocated from
    location [base] on: gene distribution, trait distribution, entry. *)
Definition blank_cell (person : string) (base : nat) : cell :=
  mkCell (KStr person) (base + 2) base (base + 1) zero_gene zero_trait.

Fixpoint blank_cells_from (persons : list string) (base : nat) : list cell :=
  match persons with
  | [] => []
  | person :: persons' =>
      blank_cell person base :: blank_cells_from persons' (base + 3)
  end.

(** [d[k] += p] on the numbers of a distribution. *)
Definition bump (d : Dict.t key Q) (k : key) (p : Q) : Dict.t key Q :=
  match Dict.get d k with
  | inr q => Dict.set d k (q + p)
  | inl _ => d
  end.

(** What [update] does to the cell of one person. *)
Definition updated_cell (one_gene two_genes have_trait : gset string) (p : Q)
    (c : cell) : cell :=
  let gene_number :=
    if key_in (c_key c) one_gene then 1%nat
    else if key_in (c_key c) two_genes then 2%nat else 0%nat in
  mkCell (c_key c) (c_entry c) (c_gene c) (c_trait c)
    (bump (c_gdist c) (key_of_nat gene_number) p)
    (bump (c_tdist c) (key_of_bool (key_in (c_key c) have_trait)) p).

(** The buckets [main] gives every distribution. *)
Definition has_buckets (c : cell) : Prop :=
  Dict.keys (c_gdist c) = [KInt 2; KInt 1; KInt 0]
  ∧ Dict.keys (c_tdist c) = [KInt 1; KInt 0].

(** The number [joint_probability] returns (it never raises). *)
Definition joint_value (people : People)
    (one_gene two_genes have_trait : gset string) : Q :=
  match joint_probability people one_gene two_genes have_trait with
  | inr q => q
  | inl _ => 0
  end.

(** The cells after the loops of [main] have run through a list of
    hypotheses. *)
Definition accumulated_cells (people : People)
    (hyps : list (gset string * gset string * gset string))
    (cells : list cell) : list cell :=
  foldl
    (λ cells hyp,
       updated_cell hyp.1.2 hyp.2 hyp.1.1
         (joint_value people hyp.1.2 hyp.2 hyp.1.1) <$> cells)
    cells hyps.

(** All sublists of a list, by the usual recursion: with or without the
    head. *)
Fixpoint sublists {A} (l : list A) : list (list A) :=
  match l with
  | [] => [[]]
  | x :: l' => (cons x <$> sublists l') ++ sublists l'
  end.

(** A trait subset agrees with the evidence when every person with a
    known trait is in it exactly when the observed value is true. *)
Definition agrees_with_evidence (people : People) (have_trait : gset string)
  : Prop :=
  ∀ person r b,
    Dict.get people person = ok r → trait r = Some b →
    (person ∈ have_trait ↔ b = true).

Definition Qprod (l : list Q) : Q := foldr Qmult 1 l.
Definition Qsum (l : list Q) : Q := foldr Qplus 0 l.

(** The probability mass of a list of hypotheses. *)
Definition mass (people : People)
    (hyps : list (gset string * gset string * gset string)) : Q :=
  Qsum ((λ hyp, joint_value people hyp.1.2 hyp.2 hyp.1.1) <$> hyps).

(** The trait subset made of the persons observed to have the trait. *)
Definition observed_trait (people : People) : gset string :=
  list_to_set
    (omap (λ kr, match trait kr.2 with Some true => Some kr.1 | _ => None end)
       people).

(** ** The transmission formula in binary64

    The same expressions as [perc_of] and [inherit_factor], on IEEE
    binary64 numbers as the interpreter evaluates them; the decimal
    parameters are the nearest binary64 values. *)

Module Binary64.
#[warnings="-inexact-float"]
Definition mutation : float := 0.01%float.

Definition perc_of (number : nat) : float :=
  if (number =? 0)%nat then (0 + mutation)%float
  else if (number =? 1)%nat then 0.5%float
  else (1 - mutation)%float.

Definition inherit_factor (gene_number : nat) (pm pf : float) : float :=
  if (gene_number =? 0)%nat then ((1 - pm) * (1 - pf))%float
  else if (gene_number =? 1)%nat then ((1 - pm) * pf + pm * (1 - pf))%float
  else (pm * pf)%float.

Definition factors_sum (mother_copies father_copies : nat) : float :=
  let pm := perc_of mother_copies in
  let pf := perc_of father_copies in
  (inherit_factor 0 pm pf + inherit_factor 1 pm pf + inherit_factor 2 pm pf)%float.

(** [probability] after the two iterations of [joint_probability] on two
    founders with no gene and no trait. *)
#[warnings="-inexact-float"]
Definition two_founders : float :=
  (1 * (0.96 * 0.99) * (0.96 * 0.99))%float.
End Binary64.

(** ** load_data

    [rows] is what the loop [for row in reader] receives from
    [csv.DictReader]: one dict per line of data, from the fields of the
    header to the texts of the line.  All the rows of a file have the
    keys of its header; the theorems that depend on it say so.  A line
    shorter than the header has [None] for the fields it lacks: for
    mother, father and trait that gives the record the empty text gives
    ([None or None] is [None], and [None] is neither ["1"] nor ["0"]) and
    is written as the empty text; a line without a name field is not
    modelled.  Opening and parsing the file are the collaborators' part
    and are not modelled either. *)

Definition Row := Dict.t string string.

(** [x or None] for a field text [x]: the empty text is falsy. *)
Definition or_none (x : string) : option string :=
  if decide (x = ""%string) then None else Some x.

(** [True if t == "1" else False if t == "0" else None] *)
Definition trait_of (t : string) : option bool :=
  if decide (t = "1"%string) then Some true
  else if decide (t = "0"%string) then Some false
  else None.

(** The body of [for row in reader]. *)
Definition load_row (data : People) (row : Row) : result People :=
  do name <- Dict.get row "name"%string;
  do mother <- Dict.get row "mother"%string;
  do father <- Dict.get row "father"%string;
  do trait <- Dict.get row "trait"%string;
  ok (Dict.set data name
        (mkPerson name (or_none mother) (or_none father) (trait_of trait))).

Definition load_data (rows : list Row) : result People :=
  for_each load_row rows [].

(** The record [load_data] stores for a row with all four columns. *)
Definition person_of_row (row : Row) : result Person :=
  do name <- Dict.get row "name"%string;
  do mother <- Dict.get row "mother"%string;
  do father <- Dict.get row "father"%string;
  do trait <- Dict.get row "trait"%string;
  ok (mkPerson name (or_none mother) (or_none father) (trait_of trait)).

(** The rows of a file for Harry and his parents, with Harry listed a
    second time with his trait known. *)
Definition potter_rows : list Row :=
  [[("name", "Harry"); ("mother", "Lily"); ("father", "James"); ("trait", "")];
   [("name", "James"); ("mother", ""); ("father", ""); ("trait", "1")];
   [("name", "Lily"); ("mother", ""); ("father", ""); ("trait", "0")];
   [("name", "Harry"); ("mother", "Lily"); ("father", "James"); ("trait", "1")]]%string.

(** The rows of a file in which Harry comes three times, with rows of
    others before, between and after. *)
Definition harry_rows : list Row :=
  [[("name", "Harry"); ("mother", "Lily"); ("father", "James"); ("trait", "")];
   [("name", "James"); ("mother", ""); ("father", ""); ("trait", "1")];
   [("name", "Harry"); ("mother", ""); ("father", ""); ("trait", "0")];
   [("name", "Harry"); ("mother", "Lily"); ("father", "James"); ("trait", "1")];
   [("name", "Lily"); ("mother", ""); ("father", ""); ("trait", "0")]]%string.

(** The names of a list in the order of their first appearance, each
    once. *)
Fixpoint first_appearances (names : list string) : list string :=
  match names with
  | [] => []
  | n :: names' => n :: filter (λ n', n' ≠ n) (first_appearances names')
  end.

(** * Tic-tac-toe (Project0/tictactoe/tictactoe.py)

    Boards are Python lists of lists whose items are ["X"], ["O"] or
    [None]; nothing in the code checks their shape, so the model keeps
    them as lists and raises [IndexError] where a subscript does. *)

Module TicTacToe.

Local Open Scope Z_scope.

Inductive error := IndexError | TypeError.

Definition outcome (A : Type) : Type := error + A.

Definition throw {A} (e : error) : outcome A := inl e.

#[global] Instance outcome_ret : MRet outcome := λ _ x, inr x.

#[global] Instance outcome_bind : MBind outcome :=
  λ _ _ f m, match m with inl e => inl e | inr x => f x end.

Inductive mark := X | O.

#[global] Instance mark_eq_dec : EqDecision mark.
Proof. solve_decision. Defined.

(** An item of a board: [Some X], [Some O], or [None] for [EMPTY]. *)
Abbreviation square := (option mark) (only parsing).

Abbreviation board := (list (list (option mark))) (only parsing).

(** An action is a tuple of two ints. *)
Abbreviation action := (Z * Z)%type (only parsing).

(** The place in a list of length [n] that the int [i] subscripts:
    negative ints count from the end. *)
Definition position (n : nat) (i : Z) : option nat :=
  if decide (0 ≤ i < Z.of_nat n) then Some (Z.to_nat i)
  else if decide (- Z.of_nat n ≤ i < 0) then Some (Z.to_nat (i + Z.of_nat n))
  else None.

(** [l[i]] *)
Definition item {A} (l : list A) (i : Z) : outcome A :=
  match position (length l) i ≫= (l !!.) with
  | Some x => mret x
  | None => throw IndexError
  end.

(** [l[i] = x], as the list it leaves. *)
Definition set_item {A} (l : list A) (i : Z) (x : A) : outcome (list A) :=
  match position (length l) i with
  | Some k => mret (<[k:=x]> l)
  | None => throw IndexError
  end.

(** [board[i][j]] *)
Definition cell (b : board) (i j : Z) : outcome square :=
  row ← item b i; item row j.

(** [row.count(s)] *)
Definition count (s : square) (row : list square) : nat :=
  length (filter (λ s', s' = s) row).

Definition initial_state : board :=
  [[None; None; None];
   [None; None; None];
   [None; None; None]].

Definition player (b : board) : mark :=
  let '(x_count, o_count) :=
    foldl (λ '(x_count, o_count) row,
             ((x_count + count (Some X) row)%nat,
              (o_count + count (Some O) row)%nat))
      (0%nat, 0%nat) b in
  if decide (o_count < x_count)%nat then O else X.

(** [range(3)] *)
Definition range3 : list Z := [0; 1; 2].

(** A loop whose body may raise. *)
Fixpoint for_each {A B} (body : A → B → outcome A) (xs : list B) (acc : A)
  : outcome A :=
  match xs with
  | [] => mret acc
  | x :: xs' => acc' ← body acc x; for_each body xs' acc'
  end.

Definition actions (b : board) : outcome (gset action) :=
  for_each
    (λ possible_actions i,
       for_each
         (λ possible_actions j,
            s ← cell b i j;
            mret (if s is None then possible_actions ∪ {[ (i, j) ]}
                  else possible_actions))
         range3 possible_actions)
    range3 ∅.

(** [new_board[action[0]][action[1]] = player(board)] on the copy of the
    rows: the row is fetched, its item assigned, and the copy holds the
    changed row at the place it was fetched from. *)
Definition result (b : board) (a : action) : outcome board :=
  let new_board := b in
  let p := player b in
  row ← item new_board a.1;
  row' ← set_item row a.2 (Some p);
  set_item new_board a.1 row'.

(** [if line.count(line[0]) == 3 and line[0] is not None: return line[0]]:
    the mark returned, or [None] when the test fails. *)
Definition three_of_first (line : list square) : outcome square :=
  first ← item line 0;
  mret (if bool_decide (count first line = 3%nat) && bool_decide (first ≠ None)
        then first else None).

(** [for row in board: ...]; [None] when the loop ends without [return]. *)
Fixpoint winner_rows (rows : list (list square)) : outcome square :=
  match rows with
  | [] => mret None
  | row :: rest =>
      w ← three_of_first row;
      if w is Some m then mret (Some m) else winner_rows rest
  end.

(** [check], the column [col] collected row by row. *)
Definition column (b : board) (col : Z) : outcome (list square) :=
  mapM (λ row, item row col) b.

Fixpoint winner_columns (b : board) (cols : list Z) : outcome square :=
  match cols with
  | [] => mret None
  | col :: rest =>
      check ← column b col;
      w ← three_of_first check;
      if w is Some m then mret (Some m) else winner_columns b rest
  end.

(** [if board[0][j] == board[1][1] == board[2][l] and board[0][j] is not
    None: return board[0][j]]: the third square is looked up only when the
    first two are equal. *)
Definition diagonal (b : board) (j l : Z) : outcome square :=
  s1 ← cell b 0 j;
  s2 ← cell b 1 1;
  if decide (s1 = s2) then
    s3 ← cell b 2 l;
    mret (if bool_decide (s2 = s3) && bool_decide (s1 ≠ None)
          then s1 else None)
  else mret None.

Definition winner (b : board) : outcome square :=
  w ← winner_rows b;
  if w is Some m then mret (Some m) else
  w ← winner_columns b range3;
  if w is Some m then mret (Some m) else
  w ← diagonal b 0 2;
  if w is Some m then mret (Some m) else
  w ← diagonal b 2 0;
  if w is Some m then mret (Some m) else
  mret None.

Definition terminal (b : board) : outcome bool :=
  w ← winner b;
  if w is Some _ then mret true
  else mret (forallb (λ row : list square, bool_decide (None ∉ row)) b).

Definition utility (b : board) : outcome Z :=
  w ← winner b;
  if decide (w = Some X) then mret 1
  else
    w ← winner b;
    if decide (w = Some O) then mret (-1) else mret 0.

(** What [minimax] handles: [None], a float, a tuple of two. *)
Inductive value :=
| VNone
| VFloat (x : float)
| VTuple (v0 v1 : value).

(** [v[0]] *)
Definition subscript0 (v : value) : outcome value :=
  match v with
  | VTuple v0 _ => mret v0
  | _ => throw TypeError
  end.

(** [max(x, v)] and [min(x, v)] for a float [x]: [v > x] and [v < x] are
    defined for a float [v] only. *)
Definition py_max (x : float) (v : value) : outcome float :=
  match v with
  | VFloat y => mret (if PrimFloat.ltb x y then y else x)
  | _ => throw TypeError
  end.

Definition py_min (x : float) (v : value) : outcome float :=
  match v with
  | VFloat y => mret (if PrimFloat.ltb y x then y else x)
  | _ => throw TypeError
  end.

Section minimax.

(** The order in which a [for] loop visits a set. *)
Variable order : gset action → list action.

(** One loop of [minimax]; [rec] is the recursive call, which gives no
    answer when it runs out of depth. *)
Fixpoint minimax_loop (rec : board → option (outcome value))
    (pick : float → value → outcome float) (b : board)
    (todo : list action) (best : float) : option (outcome float) :=
  match todo with
  | [] => Some (mret best)
  | a :: todo' =>
      match result b a with
      | inl e => Some (throw e)
      | inr b' =>
          match rec b' with
          | None => None
          | Some (inl e) => Some (throw e)
          | Some (inr v) =>
              match (eval ← subscript0 v; pick best eval) with
              | inl e => Some (throw e)
              | inr best' => minimax_loop rec pick b todo' best'
              end
          end
      end
  end.

(** [minimax], to recursion depth [depth]. Lines 117 to 130 of the source
    follow a [return] on either branch and are never run. *)
Fixpoint minimax (depth : nat) (b : board) : option (outcome value) :=
  match depth with
  | 0%nat => None
  | S depth' =>
      match terminal b with
      | inl e => Some (throw e)
      | inr true => Some (mret VNone)
      | inr false =>
          let '(pick, start) :=
            if decide (player b = X) then (py_max, neg_infinity)
            else (py_min, infinity) in
          match actions b with
          | inl e => Some (throw e)
          | inr possible_actions =>
              match minimax_loop (minimax depth') pick b
                      (order possible_actions) start with
              | None => None
              | Some (inl e) => Some (throw e)
              | Some (inr best) => Some (mret (VTuple VNone (VFloat best)))
              end
          end
      end
  end.

End minimax.

(** A board of three rows of three squares. *)
Definition well_formed (b : board) : Prop :=
  length b = 3%nat ∧ Forall (λ row, length row = 3%nat) b.

(** How often [s] occurs on the board. *)
Definition occurrences (s : square) (b : board) : nat :=
  sum_list (count s <$> b).

(** The eight lines of the board. *)
Definition lines : list (list action) :=
  [[(0, 0); (0, 1); (0, 2)]; [(1, 0); (1, 1); (1, 2)]; [(2, 0); (2, 1); (2, 2)];
   [(0, 0); (1, 0); (2, 0)]; [(0, 1); (1, 1); (2, 1)]; [(0, 2); (1, 2); (2, 2)];
   [(0, 0); (1, 1); (2, 2)]; [(0, 2); (1, 1); (2, 0)]].

(** [m] holds the three squares of some line. *)
Definition has_line (b : board) (m : mark) : Prop :=
  ∃ line, line ∈ lines ∧ ∀ a, a ∈ line → cell b a.1 a.2 = mret (Some m).

(** The boards of a game: the initial one, and those [result] gives for
    an action that [actions] offers. *)
Inductive reachable : board → Prop :=
| reachable_initial : reachable initial_state
| reachable_result b a possible_actions b' :
    reachable b →
    actions b = mret possible_actions →
    a ∈ possible_actions →
    result b a = mret b' →
    reachable b'.

(** The board after X has taken the centre, and a board that X has won
    with the top row. *)
Definition centre_taken : board :=
  [[None; None; None];
   [None; Some X; None];
   [None; None; None]].

Definition top_row_won : board :=
  [[Some X; Some X; Some X];
   [Some O; Some O; None];
   [None; None; None]].

End TicTacToe.

(** * Properties *)

(** ** Dictionaries *)

Section dict_facts.
Context {K V : Type} `{EqDecision K}.
Implicit Types (d : Dict.t K V) (k : K) (v : V).

Lemma dict_get_cons d k k' v :
  Dict.get ((k', v) :: d) k = if decide (k' = k) then ok v else Dict.get d k.
Proof. reflexivity. Qed.

Lemma dict_get_elem_of d k v :
  NoDup (Dict.keys d) → (k, v) ∈ d → Dict.get d k = ok v.
Proof.
  unfold Dict.keys. induction d as [|[k' v'] d IH]; simpl; intros Hnd Hin.
  - by apply elem_of_nil in Hin.
  - apply NoDup_cons in Hnd as [Hk' Hnd].
    apply elem_of_cons in Hin as [Heq|Hin].
    + inversion Heq; subst. by rewrite decide_True.
    + rewrite decide_False; [by apply IH|].
      intros ->. apply Hk'. apply list_elem_of_fmap. by exists (k, v).
Qed.

Lemma dict_get_ok_elem_of d k v : Dict.get d k = ok v → (k, v) ∈ d.
Proof.
  induction d as [|[k' v'] d IH]; simpl; [done|].
  case_decide as Hk; intros Hget.
  - inversion Hget; subst. apply elem_of_cons. by left.
  - apply elem_of_cons. right. by apply IH.
Qed.

Lemma dict_get_key d k :
  k ∈ Dict.keys d → ∃ v, Dict.get d k = ok v ∧ (k, v) ∈ d.
Proof.
  unfold Dict.keys. induction d as [|[k' v'] d IH]; simpl; intros Hin.
  - by apply elem_of_nil in Hin.
  - case_decide as Hk.
    + subst. exists v'. split; [done|]. apply elem_of_cons. by left.
    + apply elem_of_cons in Hin as [->|Hin]; [done|].
      destruct (IH Hin) as (v & Hget & Hv). exists v. split; [done|].
      apply elem_of_cons. by right.
Qed.
End dict_facts.

(** ** The joint probability evaluator *)

Lemma gene_count_cases person one_gene two_genes :
  gene_count person one_gene two_genes = 0%nat ∨
  gene_count person one_gene two_genes = 1%nat ∨
  gene_count person one_gene two_genes = 2%nat.
Proof. unfold gene_count. repeat case_bool_decide; auto. Qed.

Lemma parent_gene_count_cases ppl one_gene two_genes :
  parent_gene_count ppl one_gene two_genes = 0%nat ∨
  parent_gene_count ppl one_gene two_genes = 1%nat ∨
  parent_gene_count ppl one_gene two_genes = 2%nat.
Proof.
  unfold parent_gene_count.
  destruct (parent_in ppl one_gene), (parent_in ppl two_genes); auto.
Qed.

(** The tables are read at keys they hold. *)
Lemma PROBS_lookup copies has_trait :
  (copies ≤ 2)%nat →
  Dict.get PROBS_gene copies = ok (prior copies) ∧
  (do row <- Dict.get PROBS_trait copies; Dict.get row has_trait)
    = ok (likelihood copies has_trait).
Proof.
  intros Hle.
  destruct copies as [|[|[|n]]]; [| | |lia]; destruct has_trait; done.
Qed.

Lemma perc_of_transmit copies : perc_of copies == transmit copies.
Proof.
  destruct copies as [|[|n]]; unfold perc_of, transmit, PROBS_mutation; simpl.
  - ring.
  - reflexivity.
  - reflexivity.
Qed.

Lemma inherit_factor_child copies pm pf :
  inherit_factor copies pm pf = child_gene_probability copies pm pf.
Proof. by destruct copies as [|[|n]]. Qed.

Global Instance child_gene_probability_proper copies :
  Proper (Qeq ==> Qeq ==> Qeq) (child_gene_probability copies).
Proof.
  intros a a' Ha b b' Hb. destruct copies as [|[|n]]; simpl; by rewrite Ha, Hb.
Qed.

(** [percentages] holds the transmission value of both parents, also when
    mother and father are the same key. *)
Lemma fill_percentages_lookup one_gene two_genes m f :
  let percentages := fill_percentages one_gene two_genes [m; f] in
  Dict.get percentages m = ok (perc_of (parent_gene_count m one_gene two_genes)) ∧
  Dict.get percentages f = ok (perc_of (parent_gene_count f one_gene two_genes)).
Proof.
  unfold fill_percentages; simpl.
  destruct (decide (m = f)) as [->|Hne]; simpl.
  - by rewrite decide_True.
  - rewrite decide_True by done. rewrite decide_False by done.
    by rewrite decide_True.
Qed.

Lemma joint_probability_body_founder people one_gene two_genes have_trait
    probability person r :
  Dict.get people person = ok r →
  mother r = None →
  joint_probability_body people one_gene two_genes have_trait probability person
  = ok (probability * (prior (gene_count person one_gene two_genes)
                       * likelihood (gene_count person one_gene two_genes)
                           (bool_decide (person ∈ have_trait)))).
Proof.
  intros Hget Hm. unfold joint_probability_body. cbv zeta.
  destruct (gene_count_cases person one_gene two_genes) as [H|[H|H]];
    rewrite H; destruct (bool_decide (person ∈ have_trait)); simpl;
    rewrite Hget; simpl; by rewrite Hm.
Qed.

Lemma joint_probability_body_child people one_gene two_genes have_trait
    probability person r m :
  Dict.get people person = ok r →
  mother r = Some m →
  joint_probability_body people one_gene two_genes have_trait probability person
  = ok (probability
        * inherit_factor (gene_count person one_gene two_genes)
            (perc_of (parent_gene_count (mother r) one_gene two_genes))
            (perc_of (parent_gene_count (father r) one_gene two_genes))
        * likelihood (gene_count person one_gene two_genes)
            (bool_decide (person ∈ have_trait))).
Proof.
  intros Hget Hm. unfold joint_probability_body. cbv zeta.
  destruct (fill_percentages_lookup one_gene two_genes (mother r) (father r))
    as [Hpm Hpf].
  destruct (gene_count_cases person one_gene two_genes) as [H|[H|H]];
    rewrite H; destruct (bool_decide (person ∈ have_trait)); simpl;
    rewrite Hget; simpl; rewrite Hm; rewrite Hm in Hpm, Hpf;
    rewrite Hpm; simpl; rewrite Hpf; simpl; done.
Qed.

(** The count the code reads off the two sets is the one the hypothesis
    gives, for the person and for a recorded parent. *)
Lemma gene_count_copies person one_gene two_genes :
  gene_count person one_gene two_genes
  = hypothesised_copies one_gene two_genes person.
Proof.
  unfold gene_count, hypothesised_copies.
  destruct (decide (person ∈ one_gene)) as [H1|H1].
  - by rewrite bool_decide_eq_true_2.
  - rewrite bool_decide_eq_false_2 by done.
    destruct (decide (person ∈ two_genes)) as [H2|H2].
    + by rewrite bool_decide_eq_true_2.
    + by rewrite bool_decide_eq_false_2.
Qed.

Lemma parent_gene_count_copies parent one_gene two_genes :
  parent_gene_count (Some parent) one_gene two_genes
  = hypothesised_copies one_gene two_genes parent.
Proof. apply gene_count_copies. Qed.

Lemma joint_probability_body_contribution people one_gene two_genes have_trait
    probability person r :
  Dict.get people person = ok r →
  both_or_neither r = true →
  ∃ q, joint_probability_body people one_gene two_genes have_trait
         probability person = ok q
       ∧ q == probability * contribution one_gene two_genes have_trait person r.
Proof.
  intros Hget Hwf. unfold contribution, both_or_neither in *.
  destruct (mother r) as [m|] eqn:Hm, (father r) as [f|] eqn:Hf; try done.
  - eexists; split.
    + eapply joint_probability_body_child; eauto.
    + rewrite inherit_factor_child, Hm, Hf.
      rewrite !perc_of_transmit, !parent_gene_count_copies, gene_count_copies.
      ring.
  - eexists; split.
    + eapply joint_probability_body_founder; eauto.
    + unfold founder_term. rewrite gene_count_copies. reflexivity.
Qed.

Lemma Qprod_cons x l : Qprod (x :: l) = x * Qprod l.
Proof. reflexivity. Qed.

Lemma Qprod_ext {A} (f g : A → Q) (l : list A) :
  (∀ x, x ∈ l → f x == g x) → Qprod (f <$> l) == Qprod (g <$> l).
Proof.
  induction l as [|x l IH]; intros Hfg; [reflexivity|].
  rewrite !fmap_cons, !Qprod_cons.
  rewrite Hfg by (apply elem_of_cons; by left).
  rewrite IH; [reflexivity|]. intros y Hy. apply Hfg, elem_of_cons. by right.
Qed.

(** The loop of [joint_probability] over a run of entries of [people]
    multiplies the accumulator by each person's contribution. *)
Lemma for_each_joint_probability people one_gene two_genes have_trait
    (l : list (string * Person)) (acc : Q) :
  (∀ k r, (k, r) ∈ l → Dict.get people k = ok r ∧ both_or_neither r = true) →
  ∃ q, for_each (joint_probability_body people one_gene two_genes have_trait)
         (l.*1) acc = ok q
       ∧ q == acc * Qprod ((λ kr, contribution one_gene two_genes have_trait
                                    kr.1 kr.2) <$> l).
Proof.
  revert acc. induction l as [|[k r] l IH]; intros acc Hl; simpl.
  - exists acc. split; [done|]. unfold Qprod; simpl. ring.
  - destruct (Hl k r) as [Hget Hwf]; [apply elem_of_cons; by left|].
    destruct (joint_probability_body_contribution people one_gene two_genes
                have_trait acc k r Hget Hwf) as (q1 & -> & Hq1).
    simpl. destruct (IH q1) as (q & Hq & Hqv).
    { intros k' r' Hin. apply Hl, elem_of_cons. by right. }
    exists q. split; [done|]. change (list_fmap _ _ ?f l) with (f <$> l).
    rewrite Hqv, Hq1. ring.
Qed.

(** C1. For every population (a dictionary with distinct keys whose
    records have both parents or none) and every hypothesis,
    [joint_probability] returns the product over all persons of the
    person's contribution: prior times likelihood for a founder, the
    child gene-count probability built from the parents' transmission
    probabilities times likelihood for a person with parents.  The gene
    counts are those the hypothesis gives: one copy for a member of the
    one-copy set, two for a member of the two-copies set, none for
    everyone else.  When every person is a founder the result is the
    product of the founders' prior-times-likelihood terms. *)
Theorem joint_probability_is_product (people : People)
    (one_gene two_genes have_trait : gset string) :
  NoDup (Dict.keys people) →
  forallb both_or_neither (Dict.values people) = true →
  ∃ q, joint_probability people one_gene two_genes have_trait = ok q
       ∧ q == Qprod ((λ kr, contribution one_gene two_genes have_trait
                              kr.1 kr.2) <$> people)
       ∧ (forallb is_founder (Dict.values people) = true →
          q == Qprod (founder_term one_gene two_genes have_trait
                        <$> Dict.keys people)).
Proof.
  intros Hnd Hwf.
  destruct (for_each_joint_probability people one_gene two_genes have_trait
              people 1) as (q & Hq & Hqv).
  { intros k r Hin. split; [by apply dict_get_elem_of|].
    rewrite forallb_forall in Hwf. apply Hwf, list_elem_of_In.
    unfold Dict.values. apply list_elem_of_fmap. by exists (k, r). }
  exists q. split; [exact Hq|]. split.
  - rewrite Hqv. ring.
  - intros Hf. rewrite Hqv, Qmult_1_l. unfold Dict.keys.
    rewrite <- list_fmap_compose. apply Qprod_ext.
    intros [k r] Hin; simpl. unfold contribution.
    rewrite forallb_forall in Hf.
    assert (is_founder r = true) as Hr.
    { apply Hf, list_elem_of_In. unfold Dict.values.
      apply list_elem_of_fmap. by exists (k, r). }
    unfold is_founder in Hr.
    by destruct (mother r), (father r).
Qed.

Lemma joint_probability_is_product_witness :
  ∃ q, joint_probability carol_family {["Carol"%string]} ∅ {["Bob"%string]} = ok q
       ∧ q == Qprod ((λ kr, contribution {["Carol"%string]} ∅ {["Bob"%string]}
                              kr.1 kr.2) <$> carol_family)
       ∧ (forallb is_founder (Dict.values carol_family) = true →
          q == Qprod (founder_term {["Carol"%string]} ∅ {["Bob"%string]}
                        <$> Dict.keys carol_family)).
Proof.
  apply (joint_probability_is_product carol_family).
  - apply (bool_decide_unpack _). vm_compute. exact I.
  - reflexivity.
Defined.

(** C4. For every pair of parental gene counts, the three factors the
    code multiplies in for a child with 0, 1 and 2 copies add up to 1. *)
Theorem child_gene_factors_sum_to_one (mother_copies father_copies : nat) :
  let pm := perc_of mother_copies in
  let pf := perc_of father_copies in
  inherit_factor 0 pm pf + inherit_factor 1 pm pf + inherit_factor 2 pm pf == 1.
Proof. intros pm pf. unfold inherit_factor; simpl. ring. Qed.

(** In binary64 too the three factors add up to exactly 1, for each of
    the nine pairs of parental gene counts. *)
Lemma child_gene_factors_sum_to_one_binary64 :
  ∀ m f, (m ≤ 2)%nat → (f ≤ 2)%nat →
         PrimFloat.eqb (Binary64.factors_sum m f) 1%float = true.
Proof.
  intros m f Hm Hf.
  destruct m as [|[|[|m]]]; try lia; destruct f as [|[|[|f]]]; try lia;
    by vm_compute.
Qed.

(** C8. Two founders, nobody with the gene or the trait: the joint
    probability is P(0 genes)^2 * P(no trait | 0 genes)^2, that is
    0.96^2 * 0.99^2. *)
Theorem joint_probability_two_founders (n1 n2 : string) :
  ∃ q, joint_probability
         [(n1, mkPerson n1 None None None); (n2, mkPerson n2 None None None)]
         ∅ ∅ ∅ = ok q
       ∧ q == prior 0 ^ 2 * likelihood 0 false ^ 2
       ∧ q == 0.96 ^ 2 * 0.99 ^ 2
       ∧ q == 0.90326016.
Proof.
  unfold joint_probability; simpl.
  rewrite (joint_probability_body_founder _ _ _ _ _ _ (mkPerson n1 None None None))
    by (simpl; by rewrite ?decide_True).
  simpl.
  assert (∃ r, Dict.get [(n1, mkPerson n1 None None None);
                         (n2, mkPerson n2 None None None)] n2 = ok r
               ∧ mother r = None) as (r & Hr & Hm).
  { simpl. destruct (decide (n1 = n2)); [by eexists|].
    rewrite decide_True by done. by eexists. }
  rewrite (joint_probability_body_founder _ _ _ _ _ _ r Hr Hm).
  eexists. split; [reflexivity|].
  assert (∀ n : string, gene_count n ∅ ∅ = 0%nat) as Hg.
  { intros n. unfold gene_count.
    rewrite !bool_decide_eq_false_2 by set_solver. done. }
  rewrite !Hg, !bool_decide_eq_false_2 by set_solver.
  repeat split; simpl; ring.
Qed.

(** In binary64 the value is 0.90326016 up to rounding in the last
    digits. *)
#[warnings="-inexact-float"]
Lemma joint_probability_two_founders_binary64 :
  PrimFloat.ltb
    (PrimFloat.abs (Binary64.two_founders - 0.90326016)%float) 1e-15%float
  = true.
Proof. by vm_compute. Qed.

(** The three tests of the repository assert that the joint probability
    of the hypothesis with all sets empty is 1; on none of the three
    pedigrees is it 1. *)
Lemma test_joint_probability_simple_fails :
  ∃ q, joint_probability simple_family_data ∅ ∅ ∅ = ok q ∧ ¬ q == 1.
Proof. eexists. split; [vm_compute; reflexivity|]. by vm_compute. Qed.

Lemma test_joint_probability_multiple_children_fails :
  ∃ q, joint_probability family_data ∅ ∅ ∅ = ok q ∧ ¬ q == 1.
Proof. eexists. split; [vm_compute; reflexivity|]. by vm_compute. Qed.

Lemma test_joint_probability_three_generation_fails :
  ∃ q, joint_probability three_generation_data ∅ ∅ ∅ = ok q ∧ ¬ q == 1.
Proof. eexists. split; [vm_compute; reflexivity|]. by vm_compute. Qed.

Section dict_set_facts.
Context {K V : Type} `{EqDecision K}.
Implicit Types (d : Dict.t K V) (k : K) (v : V).

Lemma dict_get_set_eq d k v : Dict.get (Dict.set d k v) k = ok v.
Proof.
  induction d as [|[k' v'] d IH]; simpl.
  - by rewrite decide_True.
  - case_decide as Hk; simpl.
    + by rewrite decide_True.
    + by rewrite decide_False.
Qed.

Lemma dict_get_set_ne d k k' v :
  k ≠ k' → Dict.get (Dict.set d k v) k' = Dict.get d k'.
Proof.
  intros Hne. induction d as [|[k0 v0] d IH]; simpl.
  - by rewrite decide_False.
  - case_decide as Hk; simpl.
    + subst. by rewrite !decide_False.
    + by rewrite IH.
Qed.

Lemma dict_keys_set_in d k v :
  k ∈ Dict.keys d → Dict.keys (Dict.set d k v) = Dict.keys d.
Proof.
  unfold Dict.keys. induction d as [|[k0 v0] d IH]; simpl; intros Hin.
  - by apply elem_of_nil in Hin.
  - case_decide as Hk; simpl; [done|].
    apply elem_of_cons in Hin as [->|Hin]; [done|]. f_equal. by apply IH.
Qed.

Lemma dict_keys_set_notin d k v :
  k ∉ Dict.keys d → Dict.keys (Dict.set d k v) = Dict.keys d ++ [k].
Proof.
  unfold Dict.keys. induction d as [|[k0 v0] d IH]; simpl; intros Hin; [done|].
  apply not_elem_of_cons in Hin as [Hne Hin].
  rewrite decide_False by done. simpl. f_equal. by apply IH.
Qed.

Lemma dict_get_ok_key d k v : Dict.get d k = ok v → k ∈ Dict.keys d.
Proof.
  intros Hget. apply dict_get_ok_elem_of in Hget.
  unfold Dict.keys. apply list_elem_of_fmap. by exists (k, v).
Qed.
End dict_set_facts.

Lemma for_each_ext {A B} (f g : A → B → result A) (xs : list B) (acc : A) :
  (∀ a x, x ∈ xs → f a x = g a x) → for_each f xs acc = for_each g xs acc.
Proof.
  revert acc. induction xs as [|x xs IH]; intros acc Hfg; simpl; [done|].
  rewrite Hfg by (apply elem_of_cons; by left).
  destruct (g acc x) as [e|a]; simpl; [done|].
  apply IH. intros a' y Hy. apply Hfg, elem_of_cons. by right.
Qed.




(** ** The hypothesis enumerator *)

Section sum_list_with_facts.
Context {A : Type}.
Local Open Scope nat_scope.

Lemma sum_list_with_fmap {B} (g : B → A) (f : A → nat) (k : list B) :
  sum_list_with f (g <$> k) = sum_list_with (f ∘ g) k.
Proof. induction k as [|b k IH]; simpl; [done|]. f_equal. exact IH. Qed.

Lemma sum_list_with_ext_in (f g : A → nat) (k : list A) :
  (∀ a, a ∈ k → f a = g a) → sum_list_with f k = sum_list_with g k.
Proof.
  induction k as [|a k IH]; intros Hfg; simpl; [done|].
  rewrite Hfg by (apply elem_of_cons; by left).
  rewrite IH; [done|]. intros b Hb. apply Hfg, elem_of_cons. by right.
Qed.

Lemma sum_list_with_double (f : A → nat) (k : list A) :
  sum_list_with (λ a, 2 * f a) k = 2 * sum_list_with f k.
Proof.
  induction k as [|a k IH]; [done|].
  change (2 * f a + sum_list_with (λ a, 2 * f a) k
          = 2 * (f a + sum_list_with f k)).
  rewrite IH. lia.
Qed.

End sum_list_with_facts.

Section combinations_facts.
Context {A : Type}.
Implicit Types (l c : list A) (r : nat).
Local Open Scope nat_scope.

Lemma combinations_0 l : combinations l 0 = [[]].
Proof. by destruct l. Qed.

Lemma combinations_gt l r : length l < r → combinations l r = [].
Proof.
  revert r. induction l as [|x l IH]; intros [|r] Hlt; simpl in *;
    try lia; [done|].
  rewrite !IH by lia. done.
Qed.

Lemma concat_fmap_app {B} (f g : B → list (list A)) (rs : list B) :
  concat ((λ b, f b ++ g b) <$> rs)
  ≡ₚ concat (f <$> rs) ++ concat (g <$> rs).
Proof.
  induction rs as [|b rs IH]; simpl; [done|].
  rewrite IH. rewrite <- !(assoc_L (++)). f_equiv.
  apply Permutation_app_swap_app.
Qed.

Lemma concat_fmap_fmap {B C D} (f : B → C) (g : D → list B) (ds : list D) :
  concat ((λ d, f <$> g d) <$> ds) = f <$> concat (g <$> ds).
Proof.
  induction ds as [|d ds IH]; [done|].
  rewrite !fmap_cons, !concat_cons, fmap_app. by rewrite IH.
Qed.

(** Dropping the empty last group and shifting the range. *)
Lemma chained_combinations_shift l :
  [[]] ++ concat ((λ r, combinations l (S r)) <$> seq 0 (length l + 1))
  = chained_combinations l.
Proof.
  unfold chained_combinations.
  replace (length l + 1) with (S (length l)) by lia.
  rewrite seq_S at 1. rewrite fmap_app, concat_app. simpl.
  rewrite combinations_gt by lia. rewrite combinations_0. simpl.
  rewrite !app_nil_r. do 2 f_equal.
  rewrite <- fmap_S_seq, <- list_fmap_compose. done.
Qed.

Lemma chained_combinations_cons x l :
  chained_combinations (x :: l)
  ≡ₚ (cons x <$> chained_combinations l) ++ chained_combinations l.
Proof.
  rewrite <- (chained_combinations_shift l) at 2.
  unfold chained_combinations. simpl length.
  replace (S (length l) + 1) with (S (length l + 1)) by lia.
  rewrite <- cons_seq, fmap_cons, <- fmap_S_seq, <- list_fmap_compose.
  rewrite concat_cons, combinations_0.
  rewrite (list_fmap_ext (combinations (x :: l) ∘ S)
             (λ r, (cons x <$> combinations l r) ++ combinations l (S r)))
    by done.
  rewrite concat_fmap_app.
  rewrite concat_fmap_fmap.
  apply Permutation_app_swap_app.
Qed.

Lemma chained_combinations_sublists l :
  chained_combinations l ≡ₚ sublists l.
Proof.
  induction l as [|x l IH]; [done|].
  rewrite chained_combinations_cons. simpl. by rewrite IH.
Qed.

Lemma length_sublists l : length (sublists l) = 2 ^ length l.
Proof.
  induction l as [|x l IH]; [done|].
  simpl sublists. rewrite length_app, length_fmap, IH. simpl. lia.
Qed.

Lemma elem_of_sublists c l : c ∈ sublists l ↔ sublist c l.
Proof.
  revert c. induction l as [|x l IH]; intros c; simpl.
  - rewrite list_elem_of_singleton. split; [intros ->; constructor|].
    apply sublist_nil_r.
  - rewrite elem_of_app, list_elem_of_fmap. split.
    + intros [(c' & -> & Hc')|Hc].
      * apply sublist_skip. by apply IH.
      * apply sublist_cons. by apply IH.
    + intros Hs. apply sublist_cons_r in Hs as [Hs|(c' & -> & Hs)].
      * right. by apply IH.
      * left. exists c'. split; [done|]. by apply IH.
Qed.

Lemma NoDup_sublists l : NoDup l → NoDup (sublists l).
Proof.
  induction 1 as [|x l Hx Hl IH]; [apply NoDup_singleton|].
  simpl. apply NoDup_app. split; [|split; [|done]].
  - apply NoDup_fmap_2; [|done]. intros c1 c2 Heq. by inversion Heq.
  - intros c Hc Hin. apply list_elem_of_fmap in Hc as (c' & -> & _).
    apply elem_of_sublists in Hin. apply Hx.
    apply (sublist_subseteq _ _ Hin). apply elem_of_cons. by left.
Qed.

(** Two sublists of a duplicate-free list with the same elements are the
    same list. *)
Lemma sublist_same_elements l c1 c2 :
  NoDup l → sublist c1 l → sublist c2 l → (∀ y, y ∈ c1 ↔ y ∈ c2) → c1 = c2.
Proof.
  intros Hnd. revert c1 c2.
  induction Hnd as [|x l Hx Hl IH]; intros c1 c2 H1 H2 Hsame.
  - apply sublist_nil_r in H1, H2. by subst.
  - apply sublist_cons_r in H1 as [H1|(c1' & -> & H1)];
      apply sublist_cons_r in H2 as [H2|(c2' & -> & H2)].
    + by apply IH.
    + exfalso. apply Hx. apply (sublist_subseteq _ _ H1).
      apply Hsame, elem_of_cons. by left.
    + exfalso. apply Hx. apply (sublist_subseteq _ _ H2).
      apply Hsame, elem_of_cons. by left.
    + f_equal. apply IH; [done..|]. intros y.
      assert (∀ c, sublist c l → y ∈ c → y ≠ x) as Hne.
      { intros c Hc Hy ->. apply Hx. by apply (sublist_subseteq _ _ Hc). }
      specialize (Hsame y). rewrite !elem_of_cons in Hsame. split; intros Hy.
      * destruct Hsame as [Hs _]. destruct Hs as [Heq|Hs]; [by right| |done].
        by apply (Hne c1' H1) in Hy.
      * destruct Hsame as [_ Hs]. destruct Hs as [Heq|Hs]; [by right| |done].
        by apply (Hne c2' H2) in Hy.
Qed.

(** Weighing each sublist by 2 to the number of elements left out
    gives 3 to the length. *)
Lemma sum_sublists_complement l :
  sum_list_with (λ c, 2 ^ (length l - length c)) (sublists l) = 3 ^ length l.
Proof.
  induction l as [|x l IH]; [done|].
  change (sublists (x :: l)) with ((cons x <$> sublists l) ++ sublists l).
  rewrite sum_list_with_app, sum_list_with_fmap.
  change (length (x :: l)) with (S (length l)).
  rewrite (sum_list_with_ext_in (_ ∘ _) (λ c, 2 ^ (length l - length c))
             (sublists l)) by done.
  rewrite IH.
  rewrite (sum_list_with_ext_in (λ c, 2 ^ (S (length l) - length c))
             (λ c, 2 * 2 ^ (length l - length c)) (sublists l)).
  2:{ intros c Hc. apply elem_of_sublists, sublist_length in Hc.
      replace (S (length l) - length c) with (S (length l - length c)) by lia.
      done. }
  rewrite sum_list_with_double, IH. rewrite Nat.pow_succ_r'. lia.
Qed.
End combinations_facts.

Section powerset_facts.
Local Open Scope nat_scope.
Implicit Types (s X : gset string) (c : list string).

Lemma length_bind {A B} (f : A → list B) (l : list A) :
  length (l ≫= f) = sum_list_with (length ∘ f) l.
Proof.
  induction l as [|a l IH]; [done|].
  rewrite bind_cons, length_app, IH. done.
Qed.

Lemma length_bind_const {A B} (f : A → list B) (l : list A) (m : nat) :
  (∀ a, a ∈ l → length (f a) = m) → length (l ≫= f) = length l * m.
Proof.
  induction l as [|a l IH]; intros Hf; [done|].
  rewrite bind_cons, length_app, IH.
  - rewrite Hf by (apply elem_of_cons; by left). simpl. lia.
  - intros b Hb. apply Hf, elem_of_cons. by right.
Qed.

Lemma filter_all {A} (P : A → Prop) `{!∀ x, Decision (P x)} (l : list A) :
  (∀ a, P a) → filter P l = l.
Proof.
  intros HP. induction l as [|a l IH]; [done|].
  rewrite filter_cons, decide_True by done. by rewrite IH.
Qed.

Lemma length_powerset s : length (powerset s) = 2 ^ size s.
Proof.
  unfold powerset. rewrite length_fmap, chained_combinations_sublists.
  by rewrite length_sublists.
Qed.

Lemma sublist_elements_subseteq c s :
  sublist c (elements s) → list_to_set c ⊆ s.
Proof.
  intros Hs x Hx. apply elem_of_list_to_set in Hx.
  apply elem_of_elements. by apply (sublist_subseteq _ _ Hs).
Qed.

Lemma elem_of_powerset X s : X ∈ powerset s ↔ X ⊆ s.
Proof.
  unfold powerset. rewrite list_elem_of_fmap. split.
  - intros (c & -> & Hc).
    rewrite chained_combinations_sublists in Hc.
    apply elem_of_sublists in Hc. by apply sublist_elements_subseteq.
  - intros HX. exists (filter (λ x, x ∈ X) (elements s)). split.
    + apply set_eq. intros x.
      rewrite elem_of_list_to_set, list_elem_of_filter, elem_of_elements.
      split; [|tauto]. intros Hx. split; [done|]. by apply HX.
    + rewrite chained_combinations_sublists. apply elem_of_sublists.
      apply sublist_filter.
Qed.

Lemma NoDup_powerset s : NoDup (powerset s).
Proof.
  unfold powerset. apply NoDup_fmap_2_strong.
  - intros c1 c2 Hc1 Hc2 Heq.
    rewrite chained_combinations_sublists in Hc1, Hc2.
    apply elem_of_sublists in Hc1, Hc2.
    apply (sublist_same_elements (elements s)); [apply NoDup_elements|done..|].
    intros y. by rewrite <- !(elem_of_list_to_set (C:=gset string)), Heq.
  - rewrite chained_combinations_sublists. apply NoDup_sublists, NoDup_elements.
Qed.

Lemma NoDup_gene_hypotheses s : NoDup (gene_hypotheses s).
Proof.
  unfold gene_hypotheses. apply NoDup_bind; [| |apply NoDup_powerset].
  - intros o1 o2 [o t] _ _ H1 H2.
    apply list_elem_of_bind in H1 as (t1 & H1 & _).
    apply list_elem_of_bind in H2 as (t2 & H2 & _).
    apply list_elem_of_singleton in H1, H2. congruence.
  - intros o _. apply NoDup_bind; [| |apply NoDup_powerset].
    + intros t1 t2 [o' t] _ _ H1 H2.
      apply list_elem_of_singleton in H1, H2. congruence.
    + intros t _. apply NoDup_singleton.
Qed.

Lemma size_complement_sublist c s :
  sublist c (elements s) →
  size (s ∖ list_to_set c) = length (elements s) - length c.
Proof.
  intros Hc. rewrite size_difference by by apply sublist_elements_subseteq.
  rewrite size_list_to_set.
  - done.
  - eapply sublist_NoDup; [apply (NoDup_elements s)|exact Hc].
Qed.

Lemma length_gene_hypotheses s : length (gene_hypotheses s) = 3 ^ size s.
Proof.
  unfold gene_hypotheses. rewrite length_bind.
  rewrite (sum_list_with_ext_in _ (λ one_gene, 2 ^ size (s ∖ one_gene))).
  2:{ intros one_gene _. unfold compose.
      rewrite (length_bind_const _ _ 1) by done.
      rewrite length_powerset. lia. }
  unfold powerset. rewrite sum_list_with_fmap.
  rewrite chained_combinations_sublists.
  rewrite (sum_list_with_ext_in _
             (λ c, 2 ^ (length (elements s) - length c))).
  2:{ intros c Hc. apply elem_of_sublists in Hc. unfold compose.
      by rewrite size_complement_sublist. }
  apply sum_sublists_complement.
Qed.

Lemma elem_of_gene_hypotheses s (one_gene two_genes : gset string) :
  (one_gene, two_genes) ∈ gene_hypotheses s
  ↔ one_gene ⊆ s ∧ two_genes ⊆ s ∖ one_gene.
Proof.
  unfold gene_hypotheses. rewrite list_elem_of_bind. split.
  - intros (o & Hin & Ho). apply list_elem_of_bind in Hin as (t & Hin & Ht).
    apply list_elem_of_singleton in Hin. inversion Hin; subst.
    by rewrite <- !elem_of_powerset.
  - intros [Ho Ht]. exists one_gene. split; [|by apply elem_of_powerset].
    apply list_elem_of_bind. exists two_genes.
    split; [by apply list_elem_of_singleton|by apply elem_of_powerset].
Qed.
End powerset_facts.

(** ** Loops over the heap *)

Section for_in_facts.
Context {B : Type}.
Implicit Types (xs ys : list B) (f g : B → M ()) (h : heap).

Lemma mthen_unit (m : M ()) h : (_ <~ m;; mpure ()) h = m h.
Proof. unfold mthen, mpure. by destruct (m h) as [[e|[]] h']. Qed.

Lemma for_in_singleton x f h : for_in [x] f h = f x h.
Proof. simpl. apply mthen_unit. Qed.

Lemma for_in_app xs ys f h :
  for_in (xs ++ ys) f h = (_ <~ for_in xs f;; for_in ys f) h.
Proof.
  revert h. induction xs as [|x xs IH]; intros h; simpl; [done|].
  unfold mthen. destruct (f x h) as [[e|[]] h']; [done|].
  rewrite IH. done.
Qed.

Lemma for_in_ext xs f g :
  (∀ x h, x ∈ xs → f x h = g x h) → ∀ h, for_in xs f h = for_in xs g h.
Proof.
  induction xs as [|x xs IH]; intros Hfg h; simpl; [done|].
  unfold mthen. rewrite Hfg by (apply elem_of_cons; by left).
  destruct (g x h) as [[e|[]] h']; [done|].
  apply IH. intros y h'' Hy. apply Hfg, elem_of_cons. by right.
Qed.

Lemma for_in_bind {C} (k : C → list B) (cs : list C) f h :
  for_in (cs ≫= k) f h = for_in cs (λ c, for_in (k c) f) h.
Proof.
  revert h. induction cs as [|c cs IH]; intros h; [done|].
  rewrite bind_cons, for_in_app. simpl. unfold mthen.
  destruct (for_in (k c) f h) as [[e|[]] h']; [done|]. apply IH.
Qed.

Lemma for_in_filter (P : B → Prop) `{!∀ x, Decision (P x)} xs f h :
  for_in (filter P xs) f h
  = for_in xs (λ x, if decide (P x) then f x else mpure ()) h.
Proof.
  revert h. induction xs as [|x xs IH]; intros h; [done|].
  rewrite filter_cons. destruct (decide (P x)) as [HP|HP]; simpl.
  - rewrite decide_True by done. unfold mthen.
    destruct (f x h) as [[e|[]] h']; [done|]. apply IH.
  - rewrite decide_False by done. unfold mthen, mpure at 1. apply IH.
Qed.
End for_in_facts.

(** ** The evidence check *)

Lemma any_of_total {A} (f : A → result bool) (xs : list A) :
  (∀ x, x ∈ xs → ∃ b, f x = ok b) →
  (∃ b, any_of f xs = ok b)
  ∧ (any_of f xs = ok false ↔ ∀ x, x ∈ xs → f x = ok false).
Proof.
  induction xs as [|x xs IH]; intros Hf; simpl.
  - split; [by eexists|]. split; [|done]. intros _ x Hx.
    by apply elem_of_nil in Hx.
  - destruct (Hf x) as [b Hb]; [apply elem_of_cons; by left|].
    rewrite Hb; simpl. destruct IH as [[b' Hb'] IH].
    { intros y Hy. apply Hf, elem_of_cons. by right. }
    destruct b.
    + split; [by eexists|]. split; [intros Heq; inversion Heq|].
      intros Hall. assert (x ∈ x :: xs) as Hx by (apply elem_of_cons; by left).
      specialize (Hall x Hx). rewrite Hb in Hall. inversion Hall.
    + split; [by eexists|]. rewrite IH. split.
      * intros Hall y Hy. apply elem_of_cons in Hy as [->|Hy]; auto.
      * intros Hall y Hy. apply Hall, elem_of_cons. by right.
Qed.

Lemma elem_of_names_of people person :
  person ∈ names_of people ↔ person ∈ Dict.keys people.
Proof. unfold names_of. apply elem_of_list_to_set. Qed.

Lemma contradicts_false observed assumed :
  contradicts observed assumed = false
  ↔ ∀ b, observed = Some b → (assumed = true ↔ b = true).
Proof.
  destruct observed as [b0|]; simpl; [|by split].
  split.
  - intros Hn b [= <-]. destruct b0, assumed; simpl in Hn; intuition congruence.
  - intros H. specialize (H b0 eq_refl).
    destruct b0, assumed; simpl; intuition congruence.
Qed.

Lemma fails_evidence_total people have_trait :
  ∃ b, fails_evidence people (names_of people) have_trait = ok b.
Proof.
  unfold fails_evidence. apply any_of_total.
  intros person Hin. apply elem_of_elements, elem_of_names_of in Hin.
  apply dict_get_key in Hin as (r & -> & _). simpl. by eexists.
Qed.

Lemma accepted_agrees people have_trait :
  accepted people have_trait = true ↔ agrees_with_evidence people have_trait.
Proof.
  unfold accepted, agrees_with_evidence.
  assert (fails_evidence people (names_of people) have_trait = ok false
          ↔ ∀ person r b, Dict.get people person = ok r → trait r = Some b →
                          (person ∈ have_trait ↔ b = true)) as <-.
  { unfold fails_evidence.
    match goal with |- any_of ?f ?xs = _ ↔ _ =>
      assert (∀ x, x ∈ xs → ∃ b, f x = ok b) as Htot end.
    { intros person Hin. apply elem_of_elements, elem_of_names_of in Hin.
      apply dict_get_key in Hin as (r & -> & _). simpl. by eexists. }
    apply any_of_total in Htot as [_ ->]. split.
    - intros Hall person r b Hget Htr.
      specialize (Hall person). rewrite Hget in Hall. simpl in Hall.
      assert (contradicts (trait r) (bool_decide (person ∈ have_trait)) = false)
        as Hc.
      { assert (person ∈ elements (names_of people)) as Hin.
        { apply elem_of_elements, elem_of_names_of.
          by eapply dict_get_ok_key. }
        specialize (Hall Hin). by inversion Hall. }
      rewrite contradicts_false in Hc. rewrite <- (Hc b Htr).
      by rewrite bool_decide_eq_true.
    - intros Hagree person Hin.
      apply elem_of_elements, elem_of_names_of in Hin.
      apply dict_get_key in Hin as (r & Hget & _). rewrite Hget. simpl.
      f_equal. apply contradicts_false. intros b Htr.
      rewrite bool_decide_eq_true. by eapply Hagree. }
  destruct (fails_evidence people (names_of people) have_trait) as [e|[]];
    split; try done.
Qed.

Example combinations_4_2 :
  combinations [1; 2; 3; 4]%nat 2
  = [[1; 2]; [1; 3]; [1; 4]; [2; 3]; [2; 4]; [3; 4]]%nat.
Proof. reflexivity. Qed.

Example powerset_of_three :
  length (powerset {["a"; "b"; "c"]}%string) = 8%nat
  ∧ head (powerset {["a"; "b"; "c"]}%string) = Some ∅.
Proof. by vm_compute. Qed.

(** With Lily known to have the trait and James known not to, the only
    trait subsets that pass are {Lily} and {Lily, Harry}. *)
Example potter_family_evidence :
  let names := names_of potter_family in
  fails_evidence potter_family names {["Lily"%string]} = ok false
  ∧ fails_evidence potter_family names {["Lily"; "Harry"]}%string = ok false
  ∧ fails_evidence potter_family names ∅ = ok true
  ∧ fails_evidence potter_family names {["Lily"; "James"]}%string = ok true
  ∧ length (filter (λ have_trait, accepted potter_family have_trait)
              (powerset names)) = 2%nat
  ∧ length (hypotheses potter_family) = 54%nat.
Proof. by vm_compute. Qed.

(** The nested loops of [main] run [account] once for each element of
    [hypotheses], in order. *)
Lemma accumulate_hypotheses people probabilities h :
  accumulate people probabilities h
  = for_in (hypotheses people) (account people probabilities) h.
Proof.
  unfold accumulate, hypotheses. rewrite for_in_bind, for_in_filter.
  revert h. apply for_in_ext. intros have_trait h _.
  unfold accepted, mthen at 1, mlift at 1.
  destruct (fails_evidence_total people have_trait) as [b ->].
  destruct b; simpl; [done|].
  rewrite for_in_bind. unfold gene_hypotheses. rewrite for_in_bind.
  revert h. apply for_in_ext. intros one_gene h _.
  rewrite for_in_bind. revert h. apply for_in_ext. intros two_genes h _.
  by rewrite !for_in_singleton.
Qed.

(** C6. A trait subset passes the evidence check exactly when every
    person with a known trait is in it if and only if the observed value
    is true; the check never raises; and the accumulation of [main] is the
    accumulation over the hypotheses built from accepted trait subsets
    only, so that a rejected subset adds nothing. *)
Theorem evidence_filters_trait_subsets (people : People) :
  (∀ have_trait,
     fails_evidence people (names_of people) have_trait = ok false
     ↔ agrees_with_evidence people have_trait)
  ∧ (∀ have_trait,
       ¬ agrees_with_evidence people have_trait →
       fails_evidence people (names_of people) have_trait = ok true)
  ∧ (∀ have_trait one_gene two_genes,
       (have_trait, one_gene, two_genes) ∈ hypotheses people →
       agrees_with_evidence people have_trait)
  ∧ (∀ probabilities h,
       accumulate people probabilities h
       = for_in (hypotheses people) (account people probabilities) h).
Proof.
  assert (∀ have_trait,
            fails_evidence people (names_of people) have_trait = ok false
            ↔ agrees_with_evidence people have_trait) as Hiff.
  { intros have_trait. rewrite <- accepted_agrees. unfold accepted.
    destruct (fails_evidence people (names_of people) have_trait) as [e|[]];
      split; intros Heq; try done; inversion Heq. }
  split; [exact Hiff|]. split; [|split].
  - intros have_trait Hno.
    destruct (fails_evidence_total people have_trait) as [[] Hb]; [done|].
    by apply Hiff in Hb.
  - intros have_trait one_gene two_genes Hin. unfold hypotheses in Hin.
    apply list_elem_of_bind in Hin as (ht & Hin & Hht).
    apply list_elem_of_bind in Hin as (g & Hin & _).
    apply list_elem_of_singleton in Hin. inversion Hin; subst.
    apply list_elem_of_filter in Hht as [Hacc _].
    apply accepted_agrees. by apply Is_true_eq_true.
  - apply accumulate_hypotheses.
Qed.

Lemma size_names_of people :
  NoDup (Dict.keys people) → size (names_of people) = length people.
Proof.
  intros Hnd. unfold names_of. rewrite size_list_to_set by done.
  unfold Dict.keys. by rewrite length_fmap.
Qed.

(** C5. In a population of [n] persons none of whom has a known trait,
    the outer loop runs through the [2^n] subsets of the population, each
    once, and all of them pass the evidence check; the two inner loops
    produce [3^n] gene hypotheses, each once: the pairs of a subset of
    the population and a subset of its complement.  The three loops of
    [main] call [joint_probability] and [update] once for every pair of a
    subset and a gene hypothesis, in that order, and for nothing else. *)
Theorem enumeration_without_evidence (people : People) :
  NoDup (Dict.keys people) →
  Forall (λ r, trait r = None) (Dict.values people) →
  let n := length people in
  let names := names_of people in
  length (powerset names) = (2 ^ n)%nat
  ∧ NoDup (powerset names)
  ∧ (∀ have_trait, have_trait ∈ powerset names ↔ have_trait ⊆ names)
  ∧ (∀ have_trait, have_trait ∈ powerset names →
       fails_evidence people names have_trait = ok false)
  ∧ length (gene_hypotheses names) = (3 ^ n)%nat
  ∧ NoDup (gene_hypotheses names)
  ∧ (∀ one_gene two_genes,
       (one_gene, two_genes) ∈ gene_hypotheses names
       ↔ one_gene ⊆ names ∧ two_genes ⊆ names ∖ one_gene)
  ∧ length (hypotheses people) = (2 ^ n * 3 ^ n)%nat
  ∧ hypotheses people
    = (have_trait ← powerset names;
       genes ← gene_hypotheses names;
       [(have_trait, genes.1, genes.2)])
  ∧ (∀ probabilities h,
       accumulate people probabilities h
       = for_in (have_trait ← powerset names;
                 genes ← gene_hypotheses names;
                 [(have_trait, genes.1, genes.2)])
           (λ '(have_trait, one_gene, two_genes),
              p <~ mlift (joint_probability people one_gene two_genes
                            have_trait);;
              update probabilities one_gene two_genes have_trait p) h).
Proof.
  intros Hnd Hnone n names.
  assert (∀ have_trait, accepted people have_trait = true) as Hacc.
  { intros have_trait. apply accepted_agrees. intros person r b Hget Htr.
    rewrite Forall_forall in Hnone. rewrite Hnone in Htr; [done|].
    unfold Dict.values. apply list_elem_of_fmap. exists (person, r).
    split; [done|]. by apply dict_get_ok_elem_of. }
  assert (hypotheses people
          = (have_trait ← powerset names;
             genes ← gene_hypotheses names;
             [(have_trait, genes.1, genes.2)])) as Hhyp.
  { unfold hypotheses.
    by rewrite filter_all by (intros; by apply Is_true_eq_left). }
  split; [|split; [|split; [|split; [|split; [|split; [|split;
    [|split; [|split]]]]]]]].
  - unfold names, n. by rewrite length_powerset, size_names_of.
  - apply NoDup_powerset.
  - intros have_trait. apply elem_of_powerset.
  - intros have_trait _. specialize (Hacc have_trait). unfold accepted in Hacc.
    fold names in Hacc.
    by destruct (fails_evidence people names have_trait) as [e|[]].
  - unfold names, n. by rewrite length_gene_hypotheses, size_names_of.
  - apply NoDup_gene_hypotheses.
  - intros one_gene two_genes. apply elem_of_gene_hypotheses.
  - unfold hypotheses. rewrite filter_all by (intros; by apply Is_true_eq_left).
    rewrite (length_bind_const _ _ (3 ^ n)%nat).
    + f_equal. unfold n. by rewrite length_powerset, size_names_of.
    + intros have_trait _. rewrite (length_bind_const _ _ 1%nat) by done.
      unfold n. rewrite length_gene_hypotheses, size_names_of by done. lia.
  - exact Hhyp.
  - intros probabilities h. rewrite accumulate_hypotheses, Hhyp.
    apply for_in_ext. by intros [[have_trait one_gene] two_genes] h' _.
Qed.

Lemma enumeration_without_evidence_witness :
  let n := length carol_family in
  let names := names_of carol_family in
  length (powerset names) = (2 ^ n)%nat
  ∧ NoDup (powerset names)
  ∧ (∀ have_trait, have_trait ∈ powerset names ↔ have_trait ⊆ names)
  ∧ (∀ have_trait, have_trait ∈ powerset names →
       fails_evidence carol_family names have_trait = ok false)
  ∧ length (gene_hypotheses names) = (3 ^ n)%nat
  ∧ NoDup (gene_hypotheses names)
  ∧ (∀ one_gene two_genes,
       (one_gene, two_genes) ∈ gene_hypotheses names
       ↔ one_gene ⊆ names ∧ two_genes ⊆ names ∖ one_gene)
  ∧ length (hypotheses carol_family) = (2 ^ n * 3 ^ n)%nat
  ∧ hypotheses carol_family
    = (have_trait ← powerset names;
       genes ← gene_hypotheses names;
       [(have_trait, genes.1, genes.2)])
  ∧ (∀ probabilities h,
       accumulate carol_family probabilities h
       = for_in (have_trait ← powerset names;
                 genes ← gene_hypotheses names;
                 [(have_trait, genes.1, genes.2)])
           (λ '(have_trait, one_gene, two_genes),
              p <~ mlift (joint_probability carol_family one_gene two_genes
                            have_trait);;
              update probabilities one_gene two_genes have_trait p) h).
Proof.
  apply (enumeration_without_evidence carol_family).
  - apply (bool_decide_unpack _). vm_compute. exact I.
  - apply (bool_decide_unpack _). vm_compute. exact I.
Defined.

(** C7. The empty population has exactly one hypothesis, with all three
    sets empty, and its joint probability is 1: on the empty population
    the three loops of [main] come to one call of [joint_probability],
    which returns 1, and one call of [update], both with three empty
    sets. *)
Theorem empty_population :
  hypotheses [] = [(∅, ∅, ∅)]
  ∧ joint_probability [] ∅ ∅ ∅ = ok 1
  ∧ (∀ probabilities h,
       accumulate [] probabilities h
       = (p <~ mlift (joint_probability [] ∅ ∅ ∅);;
          update probabilities ∅ ∅ ∅ p) h)
  ∧ (∀ probabilities h,
       accumulate [] probabilities h = update probabilities ∅ ∅ ∅ 1 h).
Proof.
  assert (hypotheses [] = [(∅, ∅, ∅)]) as Hhyp by (vm_compute; reflexivity).
  assert (∀ probabilities h,
            accumulate [] probabilities h
            = (p <~ mlift (joint_probability [] ∅ ∅ ∅);;
               update probabilities ∅ ∅ ∅ p) h) as Hacc.
  { intros probabilities h.
    by rewrite accumulate_hypotheses, Hhyp, for_in_singleton. }
  split; [exact Hhyp|]. split; [vm_compute; reflexivity|].
  split; [exact Hacc|].
  intros probabilities h. by rewrite Hacc.
Qed.

(** ** Running heap operations *)


Section heap_steps.
Implicit Types (h : heap) (l d : loc) (o : object) (k : key) (v : value).

Lemma mthen_ok {A B} (m : M A) (f : A → M B) h a h' :
  m h = (ok a, h') → mthen m f h = f a h'.
Proof. unfold mthen. by intros ->. Qed.

Lemma mthen_raise {A B} (m : M A) (f : A → M B) h e h' :
  m h = (raise e, h') → mthen m f h = (raise e, h').
Proof. unfold mthen. by intros ->. Qed.

Lemma load_ok h l o : h !! l = Some o → load l h = (ok o, h).
Proof. unfold load. by intros ->. Qed.

Lemma getitem_ok h d o k v :
  h !! d = Some o → Dict.get o k = ok v → getitem d k h = (ok v, h).
Proof.
  intros Hd Hk. unfold getitem. rewrite (mthen_ok _ _ _ _ _ (load_ok _ _ _ Hd)).
  unfold mlift. by rewrite Hk.
Qed.

Lemma getitem_raise h d o k e :
  h !! d = Some o → Dict.get o k = raise e → getitem d k h = (raise e, h).
Proof.
  intros Hd Hk. unfold getitem. rewrite (mthen_ok _ _ _ _ _ (load_ok _ _ _ Hd)).
  unfold mlift. by rewrite Hk.
Qed.

Lemma getref_ok h d o k l :
  h !! d = Some o → Dict.get o k = ok (VRef l) → getref d k h = (ok l, h).
Proof.
  intros Hd Hk. unfold getref.
  by rewrite (mthen_ok _ _ _ _ _ (getitem_ok _ _ _ _ _ Hd Hk)).
Qed.

Lemma setitem_ok h d o k v :
  h !! d = Some o → setitem d k v h = (ok (), <[d := Dict.set o k v]> h).
Proof.
  intros Hd. unfold setitem. rewrite (mthen_ok _ _ _ _ _ (load_ok _ _ _ Hd)).
  unfold store. by rewrite Hd.
Qed.
End heap_steps.

(** One step of a computation whose first action is known to succeed. *)
Ltac mstep H :=
  lazymatch goal with
  | |- mthen ?m ?k ?h = _ => rewrite (mthen_ok m k h _ _ H); cbv beta
  end.

(** ** Distributions *)

Section dist_facts.
Implicit Types (d pre rest : Dict.t key Q) (k : key) (q s : Q).

Lemma num_object_keys d : Dict.keys (num_object d) = Dict.keys d.
Proof.
  unfold num_object, Dict.keys. rewrite <- list_fmap_compose.
  by apply list_fmap_ext.
Qed.

Lemma num_object_app pre rest :
  num_object (pre ++ rest) = num_object pre ++ num_object rest.
Proof. apply fmap_app. Qed.

Lemma scale_keys d s : Dict.keys (scale d s) = Dict.keys d.
Proof.
  unfold scale, Dict.keys. rewrite <- list_fmap_compose.
  by apply list_fmap_ext.
Qed.

Lemma py_sum_num_object_from d acc :
  for_each (λ acc v, do q <- as_num v; ok (acc + q))
    (Dict.values (num_object d)) acc
  = ok (fold_left Qplus (Dict.values d) acc).
Proof.
  revert acc. induction d as [|[k q] d IH]; intros acc; [done|].
  simpl. apply IH.
Qed.

Lemma py_sum_num_object d :
  py_sum (Dict.values (num_object d)) = ok (dist_sum d).
Proof. apply py_sum_num_object_from. Qed.

Lemma dict_get_app_r {V} (d1 d2 : Dict.t key V) k :
  k ∉ Dict.keys d1 → Dict.get (d1 ++ d2) k = Dict.get d2 k.
Proof.
  unfold Dict.keys. induction d1 as [|[k' v'] d1 IH]; intros Hk; [done|].
  simpl in *. apply not_elem_of_cons in Hk as [Hne Hk].
  rewrite decide_False by done. by apply IH.
Qed.

Lemma dict_set_app_r {V} (d1 d2 : Dict.t key V) k (v : V) :
  k ∉ Dict.keys d1 → Dict.set (d1 ++ d2) k v = d1 ++ Dict.set d2 k v.
Proof.
  unfold Dict.keys. induction d1 as [|[k' v'] d1 IH]; intros Hk; [done|].
  simpl in *. apply not_elem_of_cons in Hk as [Hne Hk].
  rewrite decide_False by done. f_equal. by apply IH.
Qed.
End dist_facts.

(** ** normalize *)

Lemma focus_insert h lp ln person typ l o :
  focus h lp ln person typ l → focus (<[l := o]> h) lp ln person typ l.
Proof.
  intros (outer & e & edict & Hp & Hn & Hk & He & Ht & Hlp & Hln & Hle).
  exists outer, e, edict.
  rewrite !list_lookup_insert_ne by done. done.
Qed.

Lemma normalize_bucket_run h lp ln person typ l o s category :
  focus h lp ln person typ l →
  h !! l = Some o →
  normalize_bucket lp ln person typ s category h
  = match (do v <- Dict.get o category; do val <- as_num v; py_div val s) with
    | inr nv => (ok (), <[l := Dict.set o category (VNum nv)]> h)
    | inl e => (raise e, h)
    end.
Proof.
  intros (outer & e & edict & Hp & Hn & Hk & He & Ht & _) Hl.
  unfold normalize_bucket.
  rewrite (mthen_ok _ _ _ _ _ (getref_ok _ _ _ _ _ Hp Hk)).
  rewrite (mthen_ok _ _ _ _ _ (getref_ok _ _ _ _ _ He Ht)).
  destruct (Dict.get o category) as [err|v] eqn:Hget; simpl.
  { by rewrite (mthen_raise _ _ _ _ _ (getitem_raise _ _ _ _ _ Hl Hget)). }
  rewrite (mthen_ok _ _ _ _ _ (getitem_ok _ _ _ _ _ Hl Hget)).
  unfold mthen at 1, mlift at 1.
  destruct (as_num v) as [err|val]; simpl; [done|].
  unfold mthen at 1, mlift at 1.
  destruct (py_div val s) as [err|nv]; simpl; [done|].
  rewrite (mthen_ok _ _ _ _ _ (getref_ok _ _ _ _ _ Hn Hk)).
  rewrite (mthen_ok _ _ _ _ _ (getref_ok _ _ _ _ _ He Ht)).
  by rewrite (setitem_ok _ _ _ _ _ Hl).
Qed.

(** The loop over the buckets of one distribution: it raises at the
    first bucket when the sum is zero, and otherwise leaves every bucket
    divided by the sum. *)
Lemma normalize_buckets_run h lp ln person typ l (pre rest : Dict.t key Q) s :
  focus h lp ln person typ l →
  h !! l = Some (num_object (pre ++ rest)) →
  NoDup (Dict.keys (pre ++ rest)) →
  for_in (Dict.keys rest) (normalize_bucket lp ln person typ s) h
  = if Qeq_bool s 0 && negb (bool_decide (rest = []))
    then (raise ZeroDivisionError, h)
    else (ok (), <[l := num_object (pre ++ scale rest s)]> h).
Proof.
  revert h pre. induction rest as [|[k q] rest IH]; intros h pre Hf Hl Hnd.
  - simpl. rewrite andb_false_r. rewrite list_insert_id; done.
  - change (Dict.keys ((k, q) :: rest)) with (k :: Dict.keys rest).
    change (for_in (k :: ?ks) ?f) with (_ <~ f k;; for_in ks f).
    assert (k ∉ Dict.keys pre) as Hk.
    { unfold Dict.keys in *. rewrite fmap_app in Hnd.
      apply NoDup_app in Hnd as (_ & Hdis & _). intros Hin.
      apply (Hdis k Hin). simpl. apply elem_of_cons. by left. }
    assert (Dict.get (num_object (pre ++ (k, q) :: rest)) k = ok (VNum q)) as Hget.
    { rewrite num_object_app, dict_get_app_r by by rewrite num_object_keys.
      simpl. by rewrite decide_True. }
    unfold mthen at 1.
    rewrite (normalize_bucket_run _ _ _ _ _ _ _ _ _ Hf Hl), Hget. simpl.
    rewrite andb_true_r. unfold py_div. destruct (Qeq_bool s 0) eqn:Hs; simpl; [done|].
    rewrite num_object_app, dict_set_app_r by by rewrite num_object_keys.
    simpl. rewrite decide_True by done.
    rewrite (IH _ (pre ++ [(k, q / s)])).
    + simpl. rewrite list_insert_insert_eq.
      rewrite <- (assoc_L (++)). done.
    + by apply focus_insert.
    + rewrite list_lookup_insert_eq by (by eapply lookup_lt_Some).
      rewrite <- (assoc_L (++)), num_object_app. done.
    + rewrite <- (assoc_L (++)). unfold Dict.keys in *.
      rewrite !fmap_app in *. done.
Qed.

Lemma degenerate_alt (d : Dict.t key Q) :
  Qeq_bool (dist_sum d) 0 && negb (bool_decide (d = [])) = degenerate d.
Proof. destruct d; [apply andb_false_r|apply andb_true_r]. Qed.

Lemma normalize_dist_run h lp ln person typ l (d : Dict.t key Q) :
  focus h lp ln person typ l →
  h !! l = Some (num_object d) →
  NoDup (Dict.keys d) →
  normalize_dist lp ln person typ h
  = if degenerate d then (raise ZeroDivisionError, h)
    else (ok (), <[l := num_object (scale d (dist_sum d))]> h).
Proof.
  intros Hf Hl Hnd.
  pose proof Hf as (outer & e & edict & Hp & Hn & Hk & He & Ht & Hne).
  unfold normalize_dist.
  mstep (getref_ok _ _ _ _ _ Hp Hk).
  mstep (getref_ok _ _ _ _ _ He Ht).
  mstep (load_ok _ _ _ Hl).
  rewrite py_sum_num_object.
  mstep (eq_refl : mlift (ok (dist_sum d)) h = (ok (dist_sum d), h)).
  mstep (getref_ok _ _ _ _ _ Hp Hk).
  mstep (getref_ok _ _ _ _ _ He Ht).
  mstep (load_ok _ _ _ Hl).
  rewrite num_object_keys.
  rewrite (normalize_buckets_run h lp ln person typ l [] d); try done.
  by rewrite degenerate_alt.
Qed.

(** *** Tables *)

Lemma NoDup_bind_focus {A B} (f : A → list B) (pre : list A) (c : A)
    (post : list A) :
  NoDup ((pre ++ c :: post) ≫= f) →
  NoDup (f c) ∧ (∀ x, x ∈ f c → (x ∉ pre ≫= f) ∧ (x ∉ post ≫= f)).
Proof.
  rewrite bind_app, bind_cons. intros Hnd.
  apply NoDup_app in Hnd as (_ & Hpre & Hnd).
  apply NoDup_app in Hnd as (Hc & Hpost & _).
  split; [done|]. intros x Hx. split; [|by apply Hpost].
  intros Hin. apply (Hpre x Hin). apply elem_of_app. by left.
Qed.

Lemma cell_locs_gene c : c_gene c ∈ cell_locs c.
Proof. unfold cell_locs. apply elem_of_cons. right. apply elem_of_cons. by left. Qed.

Lemma cell_locs_trait c : c_trait c ∈ cell_locs c.
Proof.
  unfold cell_locs. do 2 (apply elem_of_cons; right). apply elem_of_cons. by left.
Qed.

Lemma outer_of_keys cells : Dict.keys (outer_of cells) = c_key <$> cells.
Proof.
  unfold outer_of, Dict.keys. rewrite <- list_fmap_compose.
  by apply list_fmap_ext.
Qed.

Lemma outer_of_lookup cells c :
  NoDup (c_key <$> cells) → c ∈ cells →
  Dict.get (outer_of cells) (c_key c) = ok (VRef (c_entry c)).
Proof.
  intros Hnd Hc. apply dict_get_elem_of.
  - by rewrite outer_of_keys.
  - unfold outer_of. apply list_elem_of_fmap. by exists c.
Qed.

Lemma cell_ok_insert_ne h c l (o : Dict.t key value) :
  cell_ok h c → l ∉ cell_locs c → cell_ok (<[l := o]> h) c.
Proof.
  intros (He & Hg & Ht & Hnd) Hl. unfold cell_locs in Hl.
  apply not_elem_of_cons in Hl as [Hle Hl].
  apply not_elem_of_cons in Hl as [Hlg Hl].
  apply not_elem_of_cons in Hl as [Hlt _].
  unfold cell_ok. rewrite !list_lookup_insert_ne by done. done.
Qed.

(** Writing a distribution of one cell keeps the table a table. *)
Lemma represents_update h lp pre c c' post l (o : Dict.t key value) :
  represents h lp (pre ++ c :: post) →
  l = c_gene c ∨ l = c_trait c →
  c_key c' = c_key c → c_entry c' = c_entry c →
  c_gene c' = c_gene c → c_trait c' = c_trait c →
  cell_ok (<[l := o]> h) c' →
  represents (<[l := o]> h) lp (pre ++ c' :: post).
Proof.
  intros (Hp & Hkeys & Hlocs & Hok) Hl Hk He Hg Ht Hok'.
  assert (outer_of (pre ++ c' :: post) = outer_of (pre ++ c :: post)) as Houter.
  { unfold outer_of. rewrite !fmap_app, !fmap_cons. by rewrite Hk, He. }
  assert (cell_locs c' = cell_locs c) as Hcl.
  { unfold cell_locs. by rewrite He, Hg, Ht. }
  assert (l ∈ cell_locs c) as Hlc.
  { destruct Hl as [->| ->]; [apply cell_locs_gene|apply cell_locs_trait]. }
  apply NoDup_cons in Hlocs as [Hlp Hlocs].
  destruct (NoDup_bind_focus _ _ _ _ Hlocs) as [_ Hdis].
  destruct (Hdis l Hlc) as [Hpre Hpost].
  assert (∀ cs, l ∉ cs ≫= cell_locs → Forall (cell_ok h) cs →
                Forall (cell_ok (<[l := o]> h)) cs) as Hframe.
  { intros cs Hcs Hall. rewrite Forall_forall in *. intros x Hx.
    apply cell_ok_insert_ne; [by apply Hall|].
    intros Hin. apply Hcs. apply list_elem_of_bind. by exists x. }
  apply Forall_app in Hok as [Hokpre Hokpost].
  apply Forall_cons in Hokpost as [_ Hokpost].
  repeat split.
  - rewrite Houter, list_lookup_insert_ne; [done|].
    intros ->. apply Hlp. rewrite bind_app, bind_cons.
    apply elem_of_app. right. apply elem_of_app. by left.
  - rewrite fmap_app, fmap_cons, Hk. by rewrite fmap_app, fmap_cons in Hkeys.
  - apply NoDup_cons. split.
    + rewrite bind_app, bind_cons, Hcl. by rewrite bind_app, bind_cons in Hlp.
    + rewrite bind_app, bind_cons, Hcl. by rewrite bind_app, bind_cons in Hlocs.
  - apply Forall_app. split; [by apply Hframe|].
    apply Forall_cons. split; [done|by apply Hframe].
Qed.

Lemma represents_focus h lp ln cells c :
  represents h lp cells →
  h !! ln = Some (outer_of cells) →
  ln ∉ lp :: (cells ≫= cell_locs) →
  c ∈ cells →
  focus h lp ln (c_key c) (KStr "gene") (c_gene c)
  ∧ focus h lp ln (c_key c) (KStr "trait") (c_trait c).
Proof.
  intros (Hp & Hkeys & Hlocs & Hok) Hn Hln Hc.
  rewrite Forall_forall in Hok. destruct (Hok c Hc) as (He & Hg & Ht & _).
  apply list_elem_of_split in Hc as (pre & post & ->).
  apply NoDup_cons in Hlocs as [Hlp Hlocs].
  destruct (NoDup_bind_focus _ _ _ _ Hlocs) as [Hnd _].
  unfold cell_locs in Hnd.
  apply NoDup_cons in Hnd as [Heg Hnd]. apply NoDup_cons in Hnd as [Hgt _].
  apply not_elem_of_cons in Hln as [Hlnp Hln].
  assert (∀ l, l ∈ cell_locs c → l ≠ lp ∧ l ≠ ln) as Hfresh.
  { intros l Hl. split; intros ->.
    - apply Hlp. rewrite bind_app, bind_cons.
      apply elem_of_app. right. apply elem_of_app. by left.
    - apply Hln. rewrite bind_app, bind_cons.
      apply elem_of_app. right. apply elem_of_app. by left. }
  assert (Dict.get (outer_of (pre ++ c :: post)) (c_key c)
          = ok (VRef (c_entry c))) as Hk.
  { apply outer_of_lookup; [done|]. apply elem_of_app. right.
    apply elem_of_cons. by left. }
  split.
  - eexists _, (c_entry c), _. repeat split; try done.
    + apply Hfresh, cell_locs_gene.
    + apply Hfresh, cell_locs_gene.
    + intros Heq. apply Heg. rewrite <- Heq. apply elem_of_cons. by left.
  - eexists _, (c_entry c), _. repeat split; try done.
    + apply Hfresh, cell_locs_trait.
    + apply Hfresh, cell_locs_trait.
    + intros Heq. apply Heg. rewrite <- Heq.
      apply elem_of_cons. right. apply elem_of_cons. by left.
Qed.

Lemma outer_of_same pre c c' post :
  c_key c' = c_key c → c_entry c' = c_entry c →
  outer_of (pre ++ c' :: post) = outer_of (pre ++ c :: post).
Proof.
  intros Hk He. unfold outer_of. rewrite !fmap_app, !fmap_cons.
  by rewrite Hk, He.
Qed.

Lemma cell_locs_same pre c c' post :
  cell_locs c' = cell_locs c →
  (pre ++ c' :: post) ≫= cell_locs = (pre ++ c :: post) ≫= cell_locs.
Proof. intros Hl. rewrite !bind_app, !bind_cons. by rewrite Hl. Qed.

Lemma represents_cell h lp pre c post :
  represents h lp (pre ++ c :: post) →
  cell_ok h c
  ∧ c_gene c ≠ c_entry c ∧ c_trait c ≠ c_entry c ∧ c_gene c ≠ c_trait c.
Proof.
  intros (_ & _ & Hlocs & Hok).
  apply Forall_app in Hok as [_ Hok]. apply Forall_cons in Hok as [Hc _].
  apply NoDup_cons in Hlocs as [_ Hlocs].
  destruct (NoDup_bind_focus _ _ _ _ Hlocs) as [Hnd _].
  unfold cell_locs in Hnd.
  apply NoDup_cons in Hnd as [Heg Hnd]. apply NoDup_cons in Hnd as [Hgt _].
  apply not_elem_of_cons in Heg as [Heg Het].
  apply not_elem_of_cons in Het as [Het _].
  apply not_elem_of_cons in Hgt as [Hgt _].
  split; [done|]. repeat split; try done; by apply not_eq_sym.
Qed.

Lemma cell_ok_set_gene h c (d' : Dict.t key Q) :
  cell_ok h c → c_gene c ≠ c_entry c → c_gene c ≠ c_trait c →
  NoDup (Dict.keys d') →
  cell_ok (<[c_gene c := num_object d']> h)
    (mkCell (c_key c) (c_entry c) (c_gene c) (c_trait c) d' (c_tdist c)).
Proof.
  intros (He & Hg & Ht & _ & Hndt) Hge Hgt Hnd. unfold cell_ok; simpl.
  rewrite (list_lookup_insert_ne h (c_gene c) (c_entry c)) by done.
  rewrite (list_lookup_insert_ne h (c_gene c) (c_trait c)) by done.
  rewrite list_lookup_insert_eq by (by eapply lookup_lt_Some).
  done.
Qed.

Lemma cell_ok_set_trait h c (d' : Dict.t key Q) :
  cell_ok h c → c_trait c ≠ c_entry c → c_gene c ≠ c_trait c →
  NoDup (Dict.keys d') →
  cell_ok (<[c_trait c := num_object d']> h)
    (mkCell (c_key c) (c_entry c) (c_gene c) (c_trait c) (c_gdist c) d').
Proof.
  intros (He & Hg & Ht & Hndg & _) Hte Hgt Hnd. unfold cell_ok; simpl.
  rewrite (list_lookup_insert_ne h (c_trait c) (c_entry c)) by done.
  rewrite (list_lookup_insert_ne h (c_trait c) (c_gene c)) by done.
  rewrite list_lookup_insert_eq by (by eapply lookup_lt_Some).
  done.
Qed.

(** The two distributions of one person. *)
Lemma normalize_person_run h lp ln pre c post :
  represents h lp (pre ++ c :: post) →
  h !! ln = Some (outer_of (pre ++ c :: post)) →
  ln ∉ lp :: ((pre ++ c :: post) ≫= cell_locs) →
  ∃ r h',
    for_in [KStr "gene"; KStr "trait"] (normalize_dist lp ln (c_key c)) h
    = (r, h')
    ∧ if cell_degenerate c then r = raise ZeroDivisionError
      else r = ok ()
           ∧ represents h' lp (pre ++ normalized_cell c :: post)
           ∧ h' !! ln = Some (outer_of (pre ++ c :: post))
           ∧ length h' = length h.
Proof.
  intros Hrep Hn Hln.
  assert (c ∈ pre ++ c :: post) as Hc.
  { apply elem_of_app. right. apply elem_of_cons. by left. }
  destruct (represents_cell _ _ _ _ _ Hrep)
    as ((He & Hg & Ht & Hndg & Hndt) & Hge & Hte & Hgt).
  destruct (represents_focus _ _ _ _ _ Hrep Hn Hln Hc) as [Hfg _].
  pose proof Hfg as (_ & _ & _ & _ & _ & _ & _ & _ & _ & Hgn & _).
  simpl for_in. unfold mthen at 1.
  rewrite (normalize_dist_run _ _ _ _ _ _ _ Hfg Hg Hndg).
  unfold cell_degenerate.
  destruct (degenerate (c_gdist c)) eqn:Hdg; simpl; [by eexists _, _|].
  set (g' := scale (c_gdist c) (dist_sum (c_gdist c))).
  set (h1 := <[c_gene c := num_object g']> h).
  set (c1 := mkCell (c_key c) (c_entry c) (c_gene c) (c_trait c) g' (c_tdist c)).
  assert (represents h1 lp (pre ++ c1 :: post)) as Hrep1.
  { apply (represents_update h lp pre c c1 post); try done; [by left|].
    apply cell_ok_set_gene; try done. unfold g'. by rewrite scale_keys. }
  assert (h1 !! ln = Some (outer_of (pre ++ c1 :: post))) as Hn1.
  { unfold h1. rewrite list_lookup_insert_ne by done.
    by rewrite (outer_of_same pre c c1 post). }
  assert (ln ∉ lp :: ((pre ++ c1 :: post) ≫= cell_locs)) as Hln1.
  { by rewrite (cell_locs_same pre c c1 post). }
  assert (c1 ∈ pre ++ c1 :: post) as Hc1.
  { apply elem_of_app. right. apply elem_of_cons. by left. }
  destruct (represents_focus _ _ _ _ _ Hrep1 Hn1 Hln1 Hc1) as [_ Hft].
  destruct (represents_cell _ _ _ _ _ Hrep1) as (Hok1 & _).
  pose proof Hok1 as (_ & _ & Ht1 & _ & _).
  simpl in Hft, Ht1.
  pose proof Hft as (_ & _ & _ & _ & _ & _ & _ & _ & _ & Htn & _).
  unfold mthen at 1.
  rewrite (normalize_dist_run _ _ _ _ _ _ _ Hft Ht1 Hndt).
  destruct (degenerate (c_tdist c)) eqn:Hdt; simpl; [by eexists _, _|].
  eexists _, _. split; [reflexivity|]. split; [done|].
  set (t' := scale (c_tdist c) (dist_sum (c_tdist c))).
  split; [|split].
  - apply (represents_update h1 lp pre c1 (normalized_cell c) post);
      try done; [by right|].
    apply (cell_ok_set_trait h1 c1 t'); try done. unfold t'.
    by rewrite scale_keys.
  - rewrite list_lookup_insert_ne by done.
    by rewrite Hn1, (outer_of_same pre c c1 post).
  - unfold h1. by rewrite !length_insert.
Qed.

(** The loop over the persons still to be normalized. *)
Lemma normalize_persons_run lp ln (todo : list cell) :
  ∀ h pre,
    represents h lp (pre ++ todo) →
    h !! ln = Some (outer_of (pre ++ todo)) →
    ln ∉ lp :: ((pre ++ todo) ≫= cell_locs) →
    ∃ r h',
      for_in (c_key <$> todo)
        (λ person, for_in [KStr "gene"; KStr "trait"]
                     (normalize_dist lp ln person)) h
      = (r, h')
      ∧ if existsb cell_degenerate todo then r = raise ZeroDivisionError
        else r = ok ()
             ∧ represents h' lp (pre ++ (normalized_cell <$> todo))
             ∧ h' !! ln = Some (outer_of (pre ++ todo))
             ∧ length h' = length h.
Proof.
  induction todo as [|c todo IH]; intros h pre Hrep Hn Hln.
  - exists (ok ()), h. simpl. by rewrite app_nil_r in *.
  - rewrite fmap_cons.
    change (for_in (?x :: ?xs) ?f) with (_ <~ f x;; for_in xs f).
    destruct (normalize_person_run _ _ _ _ _ _ Hrep Hn Hln)
      as (r1 & h1 & Hrun & Hres).
    unfold mthen at 1. rewrite Hrun. simpl existsb.
    destruct (cell_degenerate c); simpl.
    { subst r1. by eexists _, _. }
    destruct Hres as (-> & Hrep1 & Hn1 & Hlen1).
    destruct (IH h1 (pre ++ [normalized_cell c])) as (r & h' & Hrun' & Hres').
    + by rewrite <- (assoc_L (++)).
    + rewrite <- (assoc_L (++)). simpl.
      by rewrite Hn1, (outer_of_same pre c (normalized_cell c) todo).
    + rewrite <- (assoc_L (++)). simpl.
      by rewrite (cell_locs_same pre c (normalized_cell c) todo).
    + exists r, h'. split; [done|].
      destruct (existsb cell_degenerate todo); [done|].
      destruct Hres' as (-> & Hrep' & Hn' & Hlen').
      rewrite <- (assoc_L (++)) in Hrep', Hn'. simpl in Hrep', Hn'.
      rewrite (outer_of_same pre c (normalized_cell c) todo) in Hn' by done.
      split; [done|]. split; [exact Hrep'|]. split; [exact Hn'|].
      by rewrite Hlen'.
Qed.

Lemma represents_alloc h lp cells (o : Dict.t key value) :
  represents h lp cells →
  represents (h ++ [o]) lp cells
  ∧ length h ∉ lp :: (cells ≫= cell_locs).
Proof.
  intros (Hp & Hkeys & Hlocs & Hok).
  assert (∀ l (x : Dict.t key value), h !! l = Some x → (h ++ [o]) !! l = Some x)
    as Hmono.
  { intros l x Hl. by apply lookup_app_l_Some. }
  split.
  - repeat split; try done; [by apply Hmono|].
    eapply Forall_impl; [exact Hok|].
    intros c (He & Hg & Ht & Hnd).
    split; [by apply Hmono|]. split; [by apply Hmono|]. split; [by apply Hmono|].
    done.
  - intros Hin. apply elem_of_cons in Hin as [Heq|Hin].
    + rewrite <- Heq in Hp. apply lookup_lt_Some in Hp. lia.
    + apply list_elem_of_bind in Hin as (c & Hin & Hc).
      rewrite Forall_forall in Hok. destruct (Hok c Hc) as (He & Hg & Ht & _).
      unfold cell_locs in Hin.
      apply elem_of_cons in Hin as [Heq|Hin];
        [rewrite <- Heq in He; apply lookup_lt_Some in He;
         by apply Nat.lt_irrefl in He|].
      apply elem_of_cons in Hin as [Heq|Hin];
        [rewrite <- Heq in Hg; apply lookup_lt_Some in Hg;
         by apply Nat.lt_irrefl in Hg|].
      apply elem_of_cons in Hin as [Heq|Hin];
        [rewrite <- Heq in Ht; apply lookup_lt_Some in Ht;
         by apply Nat.lt_irrefl in Ht|].
      by apply elem_of_nil in Hin.
Qed.

(** What [normalize] does to a table: it raises [ZeroDivisionError] when
    some distribution is degenerate, and otherwise returns a new outer
    dictionary while the distributions reached from [probabilities]
    hold the normalized values. *)
Lemma normalize_run h lp cells :
  represents h lp cells →
  ∃ r h',
    normalize lp h = (r, h')
    ∧ if existsb cell_degenerate cells then r = raise ZeroDivisionError
      else r = ok (length h)
           ∧ represents h' lp (normalized_cell <$> cells)
           ∧ h' !! length h = Some (outer_of cells)
           ∧ length h' = S (length h).
Proof.
  intros Hrep. pose proof Hrep as (Hp & _).
  destruct (represents_alloc h lp cells (outer_of cells) Hrep) as [Hrep0 Hfresh].
  pose proof Hrep0 as (Hp0 & _).
  destruct (normalize_persons_run lp (length h) cells (h ++ [outer_of cells]) [])
    as (r & h' & Hrun & Hres); try done.
  { by rewrite list_lookup_middle. }
  assert (normalize lp h
          = match r with
            | inl e => (inl e, h')
            | inr _ => (ok (length h), h')
            end) as Hnorm.
  { unfold normalize.
    mstep (load_ok _ _ _ Hp).
    mstep (eq_refl : alloc (outer_of cells) h
                     = (ok (length h), h ++ [outer_of cells])).
    mstep (load_ok _ _ _ Hp0).
    rewrite outer_of_keys. unfold mthen. rewrite Hrun. by destruct r. }
  rewrite Hnorm. destruct (existsb cell_degenerate cells).
  - subst r. by eexists _, _.
  - destruct Hres as (-> & Hrep' & Hn' & Hlen'). eexists _, _.
    split; [reflexivity|]. split; [done|]. split; [exact Hrep'|].
    split; [exact Hn'|]. rewrite Hlen', length_app. simpl. lia.
Qed.

(** *** Sums of scaled distributions *)

Lemma fold_left_Qplus (l : list Q) (acc : Q) :
  fold_left Qplus l acc == acc + Qsum l.
Proof.
  revert acc. induction l as [|x l IH]; intros acc; simpl.
  - ring.
  - rewrite IH. unfold Qsum. simpl. ring.
Qed.

Lemma dist_sum_Qsum (d : Dict.t key Q) : dist_sum d == Qsum (Dict.values d).
Proof. unfold dist_sum. rewrite fold_left_Qplus. ring. Qed.

Lemma Qsum_scale (d : Dict.t key Q) (s : Q) :
  ¬ s == 0 → Qsum (Dict.values (scale d s)) == Qsum (Dict.values d) / s.
Proof.
  intros Hs. induction d as [|[k v] d IH]; unfold Qsum in *; simpl.
  - field. exact Hs.
  - rewrite IH. field. exact Hs.
Qed.

Lemma Qsum_normalized (d : Dict.t key Q) :
  ¬ dist_sum d == 0 → Qsum (Dict.values (scale d (dist_sum d))) == 1.
Proof.
  intros Hs. rewrite Qsum_scale by done. rewrite <- dist_sum_Qsum.
  field. exact Hs.
Qed.

Lemma dict_get_scale (d : Dict.t key Q) (s : Q) k v :
  Dict.get d k = ok v → Dict.get (scale d s) k = ok (v / s).
Proof.
  induction d as [|[k' v'] d IH]; simpl; [done|].
  case_decide; [|done]. by intros [= ->].
Qed.

Lemma not_degenerate (d : Dict.t key Q) :
  ¬ dist_sum d == 0 → degenerate d = false.
Proof.
  intros Hs. destruct d; [done|]. simpl.
  destruct (Qeq_bool _ 0) eqn:Heq; [|done].
  by apply Qeq_bool_iff in Heq.
Qed.

Lemma founder_heap_represents : represents founder_heap 0 founder_cells.
Proof.
  repeat split; try apply (bool_decide_unpack _); try by vm_compute.
  repeat constructor; apply (bool_decide_unpack _); by vm_compute.
Qed.

Lemma blank_heap_represents : represents blank_heap 0 blank_cells.
Proof.
  repeat split; try apply (bool_decide_unpack _); try by vm_compute.
  repeat constructor; apply (bool_decide_unpack _); by vm_compute.
Qed.

(** C3. On a table whose gene and trait sums are all nonzero,
    [normalize] succeeds and leaves, for every person, a gene and a
    trait distribution that each sum to 1 and in which every bucket is
    its accumulated mass divided by the sum of the person's buckets. *)
Theorem normalize_sums_to_one (h : heap) (probabilities : loc)
    (cells : list cell) :
  represents h probabilities cells →
  Forall (λ c, ¬ dist_sum (c_gdist c) == 0 ∧ ¬ dist_sum (c_tdist c) == 0)
    cells →
  ∃ normalized h',
    normalize probabilities h = (ok normalized, h')
    ∧ represents h' probabilities (normalized_cell <$> cells)
    ∧ Forall
        (λ c,
           let c' := normalized_cell c in
           Qsum (Dict.values (c_gdist c')) == 1
           ∧ Qsum (Dict.values (c_tdist c')) == 1
           ∧ Dict.keys (c_gdist c') = Dict.keys (c_gdist c)
           ∧ Dict.keys (c_tdist c') = Dict.keys (c_tdist c)
           ∧ (∀ k v, Dict.get (c_gdist c) k = ok v →
                     Dict.get (c_gdist c') k = ok (v / dist_sum (c_gdist c)))
           ∧ (∀ k v, Dict.get (c_tdist c) k = ok v →
                     Dict.get (c_tdist c') k = ok (v / dist_sum (c_tdist c)))
           ∧ dist_sum (c_gdist c) == Qsum (Dict.values (c_gdist c))
           ∧ dist_sum (c_tdist c) == Qsum (Dict.values (c_tdist c)))
        cells.
Proof.
  intros Hrep Hnz.
  destruct (normalize_run h probabilities cells Hrep) as (r & h' & Hrun & Hres).
  assert (existsb cell_degenerate cells = false) as Hnd.
  { apply not_true_is_false. intros Hex.
    apply existsb_exists in Hex as (c & Hc & Hdeg).
    rewrite Forall_forall in Hnz.
    destruct (Hnz c) as [Hg Ht]; [by apply list_elem_of_In|].
    unfold cell_degenerate in Hdeg.
    by rewrite !not_degenerate in Hdeg. }
  rewrite Hnd in Hres. destruct Hres as (-> & Hrep' & _).
  exists (length h), h'. split; [done|]. split; [done|].
  eapply Forall_impl; [exact Hnz|]. intros c [Hg Ht]. simpl.
  split; [by apply Qsum_normalized|]. split; [by apply Qsum_normalized|].
  split; [apply scale_keys|]. split; [apply scale_keys|].
  split; [intros k v; apply dict_get_scale|].
  split; [intros k v; apply dict_get_scale|].
  split; apply dist_sum_Qsum.
Qed.

Lemma normalize_sums_to_one_witness :
  ∃ normalized h',
    normalize 0 founder_heap = (ok normalized, h')
    ∧ represents h' 0 (normalized_cell <$> founder_cells)
    ∧ Forall
        (λ c,
           let c' := normalized_cell c in
           Qsum (Dict.values (c_gdist c')) == 1
           ∧ Qsum (Dict.values (c_tdist c')) == 1
           ∧ Dict.keys (c_gdist c') = Dict.keys (c_gdist c)
           ∧ Dict.keys (c_tdist c') = Dict.keys (c_tdist c)
           ∧ (∀ k v, Dict.get (c_gdist c) k = ok v →
                     Dict.get (c_gdist c') k = ok (v / dist_sum (c_gdist c)))
           ∧ (∀ k v, Dict.get (c_tdist c) k = ok v →
                     Dict.get (c_tdist c') k = ok (v / dist_sum (c_tdist c)))
           ∧ dist_sum (c_gdist c) == Qsum (Dict.values (c_gdist c))
           ∧ dist_sum (c_tdist c) == Qsum (Dict.values (c_tdist c)))
        founder_cells.
Proof.
  apply (normalize_sums_to_one founder_heap 0 founder_cells).
  - repeat split; try apply (bool_decide_unpack _); try by vm_compute.
    repeat constructor; apply (bool_decide_unpack _); by vm_compute.
  - repeat constructor; by vm_compute.
Defined.

(** C2. On a table every distribution of which has a bucket, if some
    person's gene or trait buckets add up to zero then [normalize]
    raises [ZeroDivisionError] to its caller; no quotient by zero is
    stored or returned. *)
Theorem normalize_zero_sum_raises (h : heap) (probabilities : loc)
    (cells : list cell) :
  represents h probabilities cells →
  Forall (λ c, c_gdist c ≠ [] ∧ c_tdist c ≠ []) cells →
  Exists (λ c, dist_sum (c_gdist c) == 0 ∨ dist_sum (c_tdist c) == 0) cells →
  ∃ h', normalize probabilities h = (raise ZeroDivisionError, h').
Proof.
  intros Hrep Hne Hz.
  destruct (normalize_run h probabilities cells Hrep) as (r & h' & Hrun & Hres).
  assert (existsb cell_degenerate cells = true) as Hdeg.
  { apply existsb_exists. apply Exists_exists in Hz as (c & Hc & Hz).
    exists c. split; [by apply list_elem_of_In|].
    rewrite Forall_forall in Hne. destruct (Hne c Hc) as [Hg Ht].
    unfold cell_degenerate, degenerate. apply orb_true_iff.
    destruct Hz as [Hz|Hz]; [left|right].
    - destruct (c_gdist c); [done|]. by apply Qeq_bool_iff.
    - destruct (c_tdist c); [done|]. by apply Qeq_bool_iff. }
  rewrite Hdeg in Hres. subst r. by exists h'.
Qed.

Lemma normalize_zero_sum_raises_witness :
  ∃ h', normalize 0 blank_heap = (raise ZeroDivisionError, h').
Proof.
  apply (normalize_zero_sum_raises blank_heap 0 blank_cells).
  - repeat split; try apply (bool_decide_unpack _); try by vm_compute.
    repeat constructor; apply (bool_decide_unpack _); by vm_compute.
  - repeat constructor; by vm_compute.
  - apply Exists_cons_hd. left. by vm_compute.
Defined.

(** C9. [normalize] works in place.  The dictionary it returns is a new
    object, but it holds the same references as [probabilities]; the
    outer dictionary of [probabilities] is unchanged, and the
    distributions reached from [probabilities] itself hold the
    normalized values afterwards, so a caller that drops the returned
    value still reads normalized distributions. *)
Theorem normalize_in_place (h : heap) (probabilities : loc)
    (cells : list cell) :
  represents h probabilities cells →
  existsb cell_degenerate cells = false →
  ∃ normalized h',
    normalize probabilities h = (ok normalized, h')
    ∧ normalized ≠ probabilities
    ∧ h !! normalized = None
    ∧ h' !! normalized = h !! probabilities
    ∧ h' !! probabilities = h !! probabilities
    ∧ represents h' probabilities (normalized_cell <$> cells)
    ∧ Forall
        (λ c,
           h' !! c_gene c
           = Some (num_object (scale (c_gdist c) (dist_sum (c_gdist c))))
           ∧ h' !! c_trait c
             = Some (num_object (scale (c_tdist c) (dist_sum (c_tdist c)))))
        cells.
Proof.
  intros Hrep Hnd.
  destruct (normalize_run h probabilities cells Hrep) as (r & h' & Hrun & Hres).
  rewrite Hnd in Hres. destruct Hres as (-> & Hrep' & Hn' & Hlen').
  pose proof Hrep as (Hp & _). pose proof Hrep' as (Hp' & _ & _ & Hok').
  exists (length h), h'. split; [done|]. split.
  { intros Heq. rewrite <- Heq in Hp. apply lookup_lt_Some in Hp.
    by apply Nat.lt_irrefl in Hp. }
  split; [by apply lookup_ge_None_2|].
  split; [by rewrite Hn', Hp|]. split.
  { rewrite Hp', Hp. f_equal. unfold outer_of.
    rewrite <- list_fmap_compose. by apply list_fmap_ext. }
  split; [done|].
  rewrite Forall_fmap in Hok'. eapply Forall_impl; [exact Hok'|].
  intros c (_ & Hg & Ht & _). done.
Qed.

Lemma normalize_in_place_witness :
  ∃ normalized h',
    normalize 0 founder_heap = (ok normalized, h')
    ∧ normalized ≠ 0%nat
    ∧ founder_heap !! normalized = None
    ∧ h' !! normalized = founder_heap !! 0%nat
    ∧ h' !! 0%nat = founder_heap !! 0%nat
    ∧ represents h' 0 (normalized_cell <$> founder_cells)
    ∧ Forall
        (λ c,
           h' !! c_gene c
           = Some (num_object (scale (c_gdist c) (dist_sum (c_gdist c))))
           ∧ h' !! c_trait c
             = Some (num_object (scale (c_tdist c) (dist_sum (c_tdist c)))))
        founder_cells.
Proof.
  apply (normalize_in_place founder_heap 0 founder_cells).
  - repeat split; try apply (bool_decide_unpack _); try by vm_compute.
    repeat constructor; apply (bool_decide_unpack _); by vm_compute.
  - by vm_compute.
Defined.

(** ** update *)

Lemma num_object_get (d : Dict.t key Q) k q :
  Dict.get d k = ok q → Dict.get (num_object d) k = ok (VNum q).
Proof.
  induction d as [|[k' v'] d IH]; simpl; [done|].
  case_decide; [|done]. by intros [= ->].
Qed.

Lemma num_object_set (d : Dict.t key Q) k q :
  Dict.set (num_object d) k (VNum q) = num_object (Dict.set d k q).
Proof.
  induction d as [|[k' v'] d IH]; simpl; [done|].
  case_decide; [done|]. unfold num_object in *. rewrite fmap_cons.
  f_equal. exact IH.
Qed.

Lemma bump_keys (d : Dict.t key Q) k p : Dict.keys (bump d k p) = Dict.keys d.
Proof.
  unfold bump. destruct (Dict.get d k) as [e|q] eqn:Hget; [done|].
  apply dict_keys_set_in. by eapply dict_get_ok_key.
Qed.

Lemma dict_get_of_key (d : Dict.t key Q) k :
  k ∈ Dict.keys d → ∃ q, Dict.get d k = ok q.
Proof. intros Hk. apply dict_get_key in Hk as (q & Hq & _). by exists q. Qed.

(** [d[k] += p] on a distribution that has the bucket [k]. *)
Lemma add_to_run (h : heap) l (d : Dict.t key Q) k p :
  h !! l = Some (num_object d) →
  k ∈ Dict.keys d →
  add_to l k p h = (ok (), <[l := num_object (bump d k p)]> h).
Proof.
  intros Hl Hk. destruct (dict_get_of_key d k Hk) as [q Hq].
  unfold add_to.
  mstep (getitem_ok _ _ _ _ _ Hl (num_object_get _ _ _ Hq)).
  mstep (eq_refl : mlift (as_num (VNum q)) h = (ok q, h)).
  rewrite (setitem_ok _ _ _ _ _ Hl). unfold bump. rewrite Hq.
  by rewrite num_object_set.
Qed.

Lemma gene_bucket_present c (n : nat) :
  has_buckets c → (n ≤ 2)%nat → key_of_nat n ∈ Dict.keys (c_gdist c).
Proof.
  intros [-> _] Hn. destruct n as [|[|[|n]]]; [| | |lia]; unfold key_of_nat; simpl.
  - do 2 (apply elem_of_cons; right). apply elem_of_cons. by left.
  - apply elem_of_cons; right. apply elem_of_cons. by left.
  - apply elem_of_cons. by left.
Qed.

Lemma trait_bucket_present c (b : bool) :
  has_buckets c → key_of_bool b ∈ Dict.keys (c_tdist c).
Proof.
  intros [_ ->]. destruct b; unfold key_of_bool.
  - apply elem_of_cons. by left.
  - apply elem_of_cons; right. apply elem_of_cons. by left.
Qed.

Lemma represents_outer h lp pre c post :
  represents h lp (pre ++ c :: post) →
  h !! lp = Some (outer_of (pre ++ c :: post))
  ∧ Dict.get (outer_of (pre ++ c :: post)) (c_key c) = ok (VRef (c_entry c)).
Proof.
  intros (Hp & Hkeys & _). split; [done|].
  apply outer_of_lookup; [done|]. apply elem_of_app. right.
  apply elem_of_cons. by left.
Qed.

Lemma update_person_run h lp pre c post one_gene two_genes have_trait p :
  represents h lp (pre ++ c :: post) →
  has_buckets c →
  ∃ h',
    update_person lp one_gene two_genes have_trait p (c_key c) h = (ok (), h')
    ∧ represents h' lp
        (pre ++ updated_cell one_gene two_genes have_trait p c :: post)
    ∧ length h' = length h.
Proof.
  intros Hrep Hb.
  destruct (represents_outer _ _ _ _ _ Hrep) as [Hp Hk].
  destruct (represents_cell _ _ _ _ _ Hrep) as (Hok & Hge & Hte & Hgt).
  pose proof Hok as (He & Hg & Ht & Hndg & Hndt).
  unfold update_person.
  set (gn := if key_in (c_key c) one_gene then 1%nat
             else if key_in (c_key c) two_genes then 2%nat else 0%nat).
  assert (gn ≤ 2)%nat as Hgn.
  { unfold gn. destruct (key_in (c_key c) one_gene); [lia|].
    destruct (key_in (c_key c) two_genes); lia. }
  set (g' := bump (c_gdist c) (key_of_nat gn) p).
  set (c1 := mkCell (c_key c) (c_entry c) (c_gene c) (c_trait c) g' (c_tdist c)).
  set (h1 := <[c_gene c := num_object g']> h).
  assert (represents h1 lp (pre ++ c1 :: post)) as Hrep1.
  { apply (represents_update h lp pre c c1 post); try done; [by left|].
    apply cell_ok_set_gene; try done. unfold g'. by rewrite bump_keys. }
  destruct (represents_outer _ _ _ _ _ Hrep1) as [Hp1 Hk1].
  destruct (represents_cell _ _ _ _ _ Hrep1) as (Hok1 & _).
  pose proof Hok1 as (He1 & _ & Ht1 & _). simpl in Hk1, He1, Ht1.
  set (t' := bump (c_tdist c) (key_of_bool (key_in (c_key c) have_trait)) p).
  exists (<[c_trait c := num_object t']> h1). split; [|split].
  - mstep (getref_ok _ _ _ _ _ Hp Hk).
    mstep (getref_ok _ _ _ (KStr "gene") _ He eq_refl).
    mstep (add_to_run _ _ _ _ p Hg (gene_bucket_present c gn Hb Hgn)).
    fold g' h1.
    mstep (getref_ok _ _ _ _ _ Hp1 Hk1).
    mstep (getref_ok _ _ _ (KStr "trait") _ He1 eq_refl).
    by rewrite (add_to_run _ _ _ _ p Ht1 (trait_bucket_present c _ Hb)).
  - apply (represents_update h1 lp pre c1
             (updated_cell one_gene two_genes have_trait p c) post);
      try done; [by right|].
    apply (cell_ok_set_trait h1 c1 t'); try done. unfold t'.
    by rewrite bump_keys.
  - unfold h1. by rewrite !length_insert.
Qed.

Lemma updated_cell_has_buckets one_gene two_genes have_trait p c :
  has_buckets c → has_buckets (updated_cell one_gene two_genes have_trait p c).
Proof. intros [Hg Ht]. unfold has_buckets; simpl. by rewrite !bump_keys. Qed.

Lemma update_persons_run lp one_gene two_genes have_trait p (todo : list cell) :
  ∀ h pre,
    represents h lp (pre ++ todo) →
    Forall has_buckets todo →
    ∃ h',
      for_in (c_key <$> todo)
        (update_person lp one_gene two_genes have_trait p) h = (ok (), h')
      ∧ represents h' lp
          (pre ++ (updated_cell one_gene two_genes have_trait p <$> todo))
      ∧ length h' = length h.
Proof.
  induction todo as [|c todo IH]; intros h pre Hrep Hb.
  - exists h. simpl. by rewrite app_nil_r in *.
  - apply Forall_cons in Hb as [Hc Hb]. rewrite fmap_cons.
    change (for_in (?x :: ?xs) ?f) with (_ <~ f x;; for_in xs f).
    destruct (update_person_run _ _ _ _ _ one_gene two_genes have_trait p
                Hrep Hc) as (h1 & Hrun & Hrep1 & Hlen1).
    destruct (IH h1 (pre ++ [updated_cell one_gene two_genes have_trait p c]))
      as (h' & Hrun' & Hrep' & Hlen'); [by rewrite <- (assoc_L (++))|done|].
    exists h'. split; [|split].
    + by mstep Hrun.
    + by rewrite <- (assoc_L (++)) in Hrep'.
    + by rewrite Hlen'.
Qed.

(** [update] adds [p] to one gene bucket and one trait bucket of every
    person, and keeps the table a table. *)
Lemma update_run h lp cells one_gene two_genes have_trait p :
  represents h lp cells →
  Forall has_buckets cells →
  ∃ h',
    update lp one_gene two_genes have_trait p h = (ok (), h')
    ∧ represents h' lp (updated_cell one_gene two_genes have_trait p <$> cells)
    ∧ Forall has_buckets (updated_cell one_gene two_genes have_trait p <$> cells)
    ∧ length h' = length h.
Proof.
  intros Hrep Hb. pose proof Hrep as (Hp & _).
  destruct (update_persons_run lp one_gene two_genes have_trait p cells h [])
    as (h' & Hrun & Hrep' & Hlen); try done.
  exists h'. split; [|split; [done|split; [|done]]].
  - unfold update. mstep (load_ok _ _ _ Hp). by rewrite outer_of_keys.
  - rewrite Forall_fmap. eapply Forall_impl; [exact Hb|].
    intros c. apply updated_cell_has_buckets.
Qed.

(** ** The table built by main *)

Lemma dict_set_notin {K V} `{EqDecision K} (d : Dict.t K V) k v :
  k ∉ Dict.keys d → Dict.set d k v = d ++ [(k, v)].
Proof.
  unfold Dict.keys. induction d as [|[k' v'] d IH]; intros Hk; [done|].
  simpl in *. apply not_elem_of_cons in Hk as [Hne Hk].
  rewrite decide_False by done. f_equal. by apply IH.
Qed.

(** Every location of a table is allocated. *)
Lemma represents_bound h lp cells l :
  represents h lp cells → l ∈ lp :: (cells ≫= cell_locs) → (l < length h)%nat.
Proof.
  intros (Hp & _ & _ & Hok) Hin. apply elem_of_cons in Hin as [->|Hin].
  - by eapply lookup_lt_Some.
  - apply list_elem_of_bind in Hin as (c & Hin & Hc).
    rewrite Forall_forall in Hok. destruct (Hok c Hc) as (He & Hg & Ht & _).
    unfold cell_locs in Hin.
    apply elem_of_cons in Hin as [->|Hin]; [by eapply lookup_lt_Some|].
    apply elem_of_cons in Hin as [->|Hin]; [by eapply lookup_lt_Some|].
    apply elem_of_cons in Hin as [->|Hin]; [by eapply lookup_lt_Some|].
    by apply elem_of_nil in Hin.
Qed.

Lemma cell_ok_agree (h h' : heap) c :
  cell_ok h c → (∀ l, l ∈ cell_locs c → h' !! l = h !! l) → cell_ok h' c.
Proof.
  intros (He & Hg & Ht & Hnd) Hsame. unfold cell_ok.
  split; [|split; [|split; [|done]]].
  - etrans; [apply Hsame|exact He]. apply elem_of_cons. by left.
  - etrans; [apply Hsame, cell_locs_gene|exact Hg].
  - etrans; [apply Hsame, cell_locs_trait|exact Ht].
Qed.

Lemma lookup_fresh (h ext : heap) lp (o x : Dict.t key value) (i j : nat) :
  (lp < length h)%nat → j = (length h + i)%nat → ext !! i = Some x →
  (<[lp := o]> (h ++ ext)) !! j = Some x.
Proof.
  intros Hlp -> Hi. rewrite list_lookup_insert_ne by lia.
  rewrite lookup_app_r by lia.
  replace (length h + i - length h)%nat with i by lia. done.
Qed.

Lemma blank_cell_has_buckets person base : has_buckets (blank_cell person base).
Proof. by split. Qed.

Lemma init_person_run h lp cells person :
  represents h lp cells →
  KStr person ∉ (c_key <$> cells) →
  ∃ h',
    init_person lp person h = (ok (), h')
    ∧ represents h' lp (cells ++ [blank_cell person (length h)])
    ∧ length h' = (length h + 3)%nat.
Proof.
  intros Hrep Hfresh. pose proof Hrep as (Hp & Hkeys & Hlocs & Hok).
  set (g := num_object zero_gene).
  set (t := num_object zero_trait).
  set (e := [(KStr "gene", VRef (length h));
             (KStr "trait", VRef (length h + 1))] : Dict.t key value).
  set (h3 := h ++ [g; t; e]).
  set (c := blank_cell person (length h)).
  assert (lp < length h)%nat as Hlp by (by eapply lookup_lt_Some).
  assert (h3 !! lp = Some (outer_of cells)) as Hp3.
  { unfold h3. by apply lookup_app_l_Some. }
  assert (Dict.set (outer_of cells) (KStr person) (VRef (length h + 2))
          = outer_of (cells ++ [c])) as Hset.
  { rewrite dict_set_notin by by rewrite outer_of_keys.
    unfold outer_of. by rewrite fmap_app. }
  set (h' := <[lp := outer_of (cells ++ [c])]> h3).
  assert (∀ l, l ≠ lp → (l < length h)%nat → h' !! l = h !! l) as Hold.
  { intros l Hne Hlt. unfold h', h3.
    rewrite list_lookup_insert_ne by done. by apply lookup_app_l. }
  exists h'. split; [|split].
  - unfold init_person.
    mstep (eq_refl : alloc g h = (ok (length h), h ++ [g])).
    mstep (eq_refl : alloc t (h ++ [g])
                     = (ok (length (h ++ [g])), (h ++ [g]) ++ [t])).
    replace (length (h ++ [g])) with (length h + 1)%nat
      by (rewrite length_app; simpl; lia).
    mstep (eq_refl : alloc e ((h ++ [g]) ++ [t])
                     = (ok (length ((h ++ [g]) ++ [t])), ((h ++ [g]) ++ [t]) ++ [e])).
    replace (length ((h ++ [g]) ++ [t])) with (length h + 2)%nat
      by (rewrite !length_app; simpl; lia).
    replace (((h ++ [g]) ++ [t]) ++ [e]) with h3
      by (unfold h3; by rewrite <- !(assoc_L (++))).
    rewrite (setitem_ok _ _ _ _ _ Hp3). by rewrite Hset.
  - assert (∀ l, l ∈ lp :: cells ≫= cell_locs → (l < length h)%nat) as Hb.
    { intros l. by apply represents_bound. }
    apply NoDup_cons in Hlocs as [Hlpn Hlocs].
    split; [|split; [|split]].
    + unfold h'. apply list_lookup_insert_eq.
      unfold h3. rewrite length_app. lia.
    + rewrite fmap_app. apply NoDup_app. split; [done|]. split.
      * intros k Hk Hin. apply list_elem_of_singleton in Hin. by subst k.
      * apply NoDup_singleton.
    + rewrite bind_app. simpl. apply NoDup_cons. split.
      * intros Hin. apply elem_of_app in Hin as [Hin|Hin]; [done|].
        repeat (apply elem_of_cons in Hin as [Hin|Hin]; [lia|]).
        by apply elem_of_nil in Hin.
      * apply NoDup_app. split; [done|]. split.
        -- intros l Hl Hin. assert (l < length h)%nat as Hlt.
           { apply Hb, elem_of_cons. by right. }
           repeat (apply elem_of_cons in Hin as [Hin|Hin]; [lia|]).
           by apply elem_of_nil in Hin.
        -- apply NoDup_cons. split.
           { rewrite !elem_of_cons, elem_of_nil. lia. }
           apply NoDup_cons. split.
           { rewrite elem_of_cons, elem_of_nil. lia. }
           apply NoDup_singleton.
    + apply Forall_app. split.
      * rewrite Forall_forall in *. intros c0 Hc0.
        apply (cell_ok_agree h); [by apply Hok|].
        intros l Hl. assert (l ∈ cells ≫= cell_locs) as Hin.
        { apply list_elem_of_bind. by exists c0. }
        apply Hold.
        -- intros ->. by apply Hlpn.
        -- apply Hb, elem_of_cons. by right.
      * apply Forall_singleton. unfold cell_ok, c, blank_cell. simpl.
        split; [|split; [|split; [|split]]].
        -- by apply (lookup_fresh h [g; t; e] lp _ _ 2).
        -- apply (lookup_fresh h [g; t; e] lp _ _ 0); [done|lia|done].
        -- by apply (lookup_fresh h [g; t; e] lp _ _ 1).
        -- apply (bool_decide_unpack _). by vm_compute.
        -- apply (bool_decide_unpack _). by vm_compute.
  - unfold h', h3. rewrite length_insert, length_app. simpl. lia.
Qed.


Global Instance KStr_inj : Inj (=) (=) KStr.
Proof. by intros x y [= ->]. Qed.

Lemma blank_cells_from_keys persons base :
  c_key <$> blank_cells_from persons base = KStr <$> persons.
Proof.
  revert base. induction persons as [|n persons IH]; intros base; [done|].
  simpl. f_equal. apply IH.
Qed.

Lemma blank_cells_from_has_buckets persons base :
  Forall has_buckets (blank_cells_from persons base).
Proof.
  revert base. induction persons as [|n persons IH]; intros base; simpl.
  - constructor.
  - constructor; [apply blank_cell_has_buckets|apply IH].
Qed.

Lemma init_persons_run lp (todo : list string) :
  ∀ h cells,
    represents h lp cells →
    NoDup ((c_key <$> cells) ++ (KStr <$> todo)) →
    ∃ h',
      for_in todo (init_person lp) h = (ok (), h')
      ∧ represents h' lp (cells ++ blank_cells_from todo (length h)).
Proof.
  induction todo as [|person todo IH]; intros h cells Hrep Hnd.
  - exists h. simpl. by rewrite app_nil_r.
  - change (for_in (?x :: ?xs) ?f) with (_ <~ f x;; for_in xs f).
    rewrite fmap_cons in Hnd.
    destruct (init_person_run h lp cells person Hrep) as (h1 & Hrun & Hrep1 & Hlen).
    { apply NoDup_app in Hnd as (_ & Hdis & _). intros Hin.
      apply (Hdis _ Hin). apply elem_of_cons. by left. }
    destruct (IH h1 (cells ++ [blank_cell person (length h)]) Hrep1)
      as (h' & Hrun' & Hrep').
    { rewrite fmap_app, <- (assoc_L (++)). exact Hnd. }
    exists h'. split; [by mstep Hrun|].
    rewrite Hlen, <- (assoc_L (++)) in Hrep'. exact Hrep'.
Qed.

(** The dict comprehension of [main] builds a table of blank cells. *)
Lemma init_probabilities_run people (h : heap) :
  NoDup (Dict.keys people) →
  ∃ h',
    init_probabilities people h = (ok (length h), h')
    ∧ represents h' (length h)
        (blank_cells_from (Dict.keys people) (S (length h))).
Proof.
  intros Hnd.
  destruct (init_persons_run (length h) (Dict.keys people) (h ++ [[]]) [])
    as (h' & Hrun & Hrep').
  - split; [|split; [|split]].
    + by rewrite list_lookup_middle.
    + constructor.
    + simpl. apply NoDup_singleton.
    + constructor.
  - simpl. apply (NoDup_fmap_2 KStr). exact Hnd.
  - exists h'. split.
    + unfold init_probabilities.
      mstep (eq_refl : alloc [] h = (ok (length h), h ++ [[]])).
      by mstep Hrun.
    + simpl in Hrep'. rewrite length_app in Hrep'. simpl in Hrep'.
      by replace (length h + 1)%nat with (S (length h)) in Hrep' by lia.
Qed.

(** [joint_probability] returns a number on every input. *)
Lemma joint_probability_total people one_gene two_genes have_trait :
  joint_probability people one_gene two_genes have_trait
  = ok (joint_value people one_gene two_genes have_trait).
Proof.
  unfold joint_value.
  assert (∃ q, joint_probability people one_gene two_genes have_trait = ok q)
    as [q ->]; [|done].
  unfold joint_probability. generalize 1.
  assert (∀ k, k ∈ Dict.keys people → k ∈ Dict.keys people) as Hsub by done.
  revert Hsub. generalize (Dict.keys people) at 1 3. intros ks.
  induction ks as [|k ks IH]; intros Hsub acc; simpl; [by eexists|].
  destruct (dict_get_key people k) as (r & Hget & _).
  { apply Hsub, elem_of_cons. by left. }
  destruct (mother r) as [m|] eqn:Hm.
  - rewrite (joint_probability_body_child _ _ _ _ _ _ r m Hget Hm). simpl.
    apply IH. intros k' Hk'. apply Hsub, elem_of_cons. by right.
  - rewrite (joint_probability_body_founder _ _ _ _ _ _ r Hget Hm). simpl.
    apply IH. intros k' Hk'. apply Hsub, elem_of_cons. by right.
Qed.

Lemma accumulated_cells_has_buckets people hyps cells :
  Forall has_buckets cells → Forall has_buckets (accumulated_cells people hyps cells).
Proof.
  revert cells. induction hyps as [|hyp hyps IH]; intros cells Hb; [done|].
  simpl. apply IH. rewrite Forall_fmap. eapply Forall_impl; [exact Hb|].
  intros c. apply updated_cell_has_buckets.
Qed.

Lemma account_run people lp hyps :
  ∀ h cells,
    represents h lp cells →
    Forall has_buckets cells →
    ∃ h',
      for_in hyps (account people lp) h = (ok (), h')
      ∧ represents h' lp (accumulated_cells people hyps cells)
      ∧ length h' = length h.
Proof.
  induction hyps as [|[[have_trait one_gene] two_genes] hyps IH];
    intros h cells Hrep Hb.
  - by exists h.
  - change (for_in (?x :: ?xs) ?f) with (_ <~ f x;; for_in xs f).
    destruct (update_run h lp cells one_gene two_genes have_trait
                (joint_value people one_gene two_genes have_trait) Hrep Hb)
      as (h1 & Hrun & Hrep1 & Hb1 & Hlen1).
    destruct (IH h1 _ Hrep1 Hb1) as (h' & Hrun' & Hrep' & Hlen').
    exists h'. split; [|split; [done|by rewrite Hlen']].
    assert (account people lp (have_trait, one_gene, two_genes) h = (ok (), h1))
      as Hacc.
    { unfold account. rewrite joint_probability_total.
      by mstep (eq_refl : mlift (ok (joint_value people one_gene two_genes
                                       have_trait)) h = (ok _, h)). }
    by mstep Hacc.
Qed.

(** [main] up to the call of [normalize]: the table holds, for every
    person, the masses accumulated over all hypotheses. *)
Lemma accumulate_run people (h : heap) :
  NoDup (Dict.keys people) →
  ∃ h',
    (probabilities <~ init_probabilities people;;
     _ <~ accumulate people probabilities;;
     mpure probabilities) h = (ok (length h), h')
    ∧ represents h' (length h)
        (accumulated_cells people (hypotheses people)
           (blank_cells_from (Dict.keys people) (S (length h)))).
Proof.
  intros Hnd.
  destruct (init_probabilities_run people h Hnd) as (h0 & Hinit & Hrep0).
  destruct (account_run people (length h) (hypotheses people) h0 _ Hrep0
              (blank_cells_from_has_buckets _ _)) as (h' & Hrun & Hrep' & _).
  exists h'. split; [|done].
  mstep Hinit. rewrite <- accumulate_hypotheses in Hrun. by mstep Hrun.
Qed.

(** [main] with the call of [normalize], whose value is dropped: when no
    distribution is degenerate the table at [probabilities] holds the
    normalized distributions. *)
Lemma main_run people (h : heap) :
  NoDup (Dict.keys people) →
  let cells :=
    accumulated_cells people (hypotheses people)
      (blank_cells_from (Dict.keys people) (S (length h))) in
  ∃ r h',
    main people h = (r, h')
    ∧ if existsb cell_degenerate cells then r = raise ZeroDivisionError
      else r = ok (length h)
           ∧ represents h' (length h) (normalized_cell <$> cells).
Proof.
  intros Hnd cells.
  destruct (init_probabilities_run people h Hnd) as (h0 & Hinit & Hrep0).
  destruct (account_run people (length h) (hypotheses people) h0 _ Hrep0
              (blank_cells_from_has_buckets _ _)) as (h1 & Hrun & Hrep1 & _).
  rewrite <- accumulate_hypotheses in Hrun. fold cells in Hrep1.
  destruct (normalize_run h1 (length h) cells Hrep1) as (r & h' & Hnorm & Hres).
  assert (main people h
          = match r with
            | inl e => (inl e, h')
            | inr _ => (ok (length h), h')
            end) as Hinfer.
  { unfold main. mstep Hinit. mstep Hrun. unfold mthen. rewrite Hnorm.
    by destruct r. }
  rewrite Hinfer. destruct (existsb cell_degenerate cells).
  - subst r. by eexists _, _.
  - destruct Hres as (-> & Hrep' & _). by eexists _, _.
Qed.

(** ** Positive masses *)

Lemma prior_pos copies : 0 < prior copies.
Proof. destruct copies as [|[|n]]; reflexivity. Qed.

Lemma likelihood_pos copies has_trait : 0 < likelihood copies has_trait.
Proof. destruct copies as [|[|n]], has_trait; reflexivity. Qed.

Lemma perc_of_between copies : 0 < perc_of copies ∧ perc_of copies < 1.
Proof. destruct copies as [|[|n]]; split; reflexivity. Qed.

Lemma inherit_factor_pos copies pm pf :
  0 < pm ∧ pm < 1 → 0 < pf ∧ pf < 1 → 0 < inherit_factor copies pm pf.
Proof.
  intros [Hm0 Hm1] [Hf0 Hf1].
  assert (0 < 1 - pm) as Hm by (by apply (Qlt_minus_iff pm 1)).
  assert (0 < 1 - pf) as Hf by (by apply (Qlt_minus_iff pf 1)).
  destruct copies as [|[|n]]; simpl.
  - by apply Qmult_lt_0_compat.
  - apply (Qlt_le_trans _ ((1 - pm) * pf + 0)).
    + rewrite Qplus_0_r. by apply Qmult_lt_0_compat.
    + apply Qplus_le_r. apply Qlt_le_weak. by apply Qmult_lt_0_compat.
  - by apply Qmult_lt_0_compat.
Qed.

Lemma joint_probability_body_pos people one_gene two_genes have_trait
    probability person :
  person ∈ Dict.keys people →
  0 < probability →
  ∃ q, joint_probability_body people one_gene two_genes have_trait
         probability person = ok q ∧ 0 < q.
Proof.
  intros Hin Hpos. destruct (dict_get_key people person Hin) as (r & Hget & _).
  destruct (mother r) as [m|] eqn:Hm.
  - rewrite (joint_probability_body_child _ _ _ _ _ _ r m Hget Hm).
    eexists. split; [done|].
    apply Qmult_lt_0_compat; [|apply likelihood_pos].
    apply Qmult_lt_0_compat; [done|].
    apply inherit_factor_pos; apply perc_of_between.
  - rewrite (joint_probability_body_founder _ _ _ _ _ _ r Hget Hm).
    eexists. split; [done|].
    apply Qmult_lt_0_compat; [done|].
    apply Qmult_lt_0_compat; [apply prior_pos|apply likelihood_pos].
Qed.

(** Every hypothesis has a positive joint probability. *)
Lemma joint_value_pos people one_gene two_genes have_trait :
  0 < joint_value people one_gene two_genes have_trait.
Proof.
  unfold joint_value, joint_probability.
  assert (0 < 1) as H1 by reflexivity. revert H1. generalize 1.
  assert (∀ k, k ∈ Dict.keys people → k ∈ Dict.keys people) as Hsub by done.
  revert Hsub. generalize (Dict.keys people) at 1 3. intros ks.
  induction ks as [|k ks IH]; intros Hsub acc Hacc; simpl; [done|].
  destruct (joint_probability_body_pos people one_gene two_genes have_trait
              acc k) as (q & -> & Hq); [|done|].
  { apply Hsub, elem_of_cons. by left. }
  simpl. apply IH; [|done]. intros k' Hk'. apply Hsub, elem_of_cons. by right.
Qed.

Lemma mass_pos people hyps : hyps ≠ [] → 0 < mass people hyps.
Proof.
  unfold mass. destruct hyps as [|hyp hyps]; [done|]. intros _.
  revert hyp. induction hyps as [|hyp' hyps IH]; intros hyp.
  - unfold Qsum. simpl. rewrite Qplus_0_r. apply joint_value_pos.
  - rewrite fmap_cons. unfold Qsum. simpl foldr.
    apply (Qlt_trans _ (0 + Qsum ((λ hyp, joint_value people hyp.1.2 hyp.2 hyp.1.1)
                                   <$> (hyp' :: hyps)))).
    + rewrite Qplus_0_l. apply IH.
    + apply Qplus_lt_l. apply joint_value_pos.
Qed.

Lemma Qsum_set (d : Dict.t key Q) k q p :
  Dict.get d k = ok q →
  Qsum (Dict.values (Dict.set d k (q + p))) == Qsum (Dict.values d) + p.
Proof.
  induction d as [|[k' v'] d IH]; simpl; [done|].
  case_decide as Hk.
  - intros [= ->]. unfold Qsum. simpl. ring.
  - intros Hget. unfold Qsum in *. simpl. rewrite IH by done. ring.
Qed.

Lemma dist_sum_bump (d : Dict.t key Q) k p :
  k ∈ Dict.keys d → dist_sum (bump d k p) == dist_sum d + p.
Proof.
  intros Hk. destruct (dict_get_of_key d k Hk) as [q Hq].
  unfold bump. rewrite Hq. rewrite !dist_sum_Qsum. by apply Qsum_set.
Qed.

(** Every hypothesis adds its joint probability to exactly one gene
    bucket and one trait bucket of every person: after the loops, each
    distribution of each person has gained the whole mass of the
    hypotheses. *)
Lemma accumulated_cells_sums people hyps :
  ∀ cells m0,
    Forall (λ c, has_buckets c
                 ∧ dist_sum (c_gdist c) == m0
                 ∧ dist_sum (c_tdist c) == m0) cells →
    Forall (λ c, has_buckets c
                 ∧ dist_sum (c_gdist c) == m0 + mass people hyps
                 ∧ dist_sum (c_tdist c) == m0 + mass people hyps)
      (accumulated_cells people hyps cells).
Proof.
  induction hyps as [|[[have_trait one_gene] two_genes] hyps IH];
    intros cells m0 Hcells.
  - simpl. eapply Forall_impl; [exact Hcells|].
    intros c (Hb & Hg & Ht). unfold mass, Qsum. simpl.
    rewrite Hg, Ht. split; [done|]. split; ring.
  - simpl.
    set (p := joint_value people one_gene two_genes have_trait).
    specialize (IH (updated_cell one_gene two_genes have_trait p <$> cells)
                  (m0 + p)).
    eapply Forall_impl; [apply IH|].
    + rewrite Forall_fmap. eapply Forall_impl; [exact Hcells|].
      intros c (Hb & Hg & Ht). split; [by apply updated_cell_has_buckets|].
      simpl. split.
      * rewrite dist_sum_bump, Hg; [reflexivity|].
        apply gene_bucket_present; [done|].
        destruct (key_in (c_key c) one_gene); [lia|].
        destruct (key_in (c_key c) two_genes); lia.
      * rewrite dist_sum_bump, Ht; [reflexivity|].
        by apply trait_bucket_present.
    + intros c (Hb & Hg & Ht). split; [done|].
      unfold mass in *. rewrite fmap_cons. unfold Qsum in *. simpl foldr.
      fold p. rewrite Hg, Ht. split; ring.
Qed.

Lemma blank_cells_from_sums persons base :
  Forall (λ c, has_buckets c
               ∧ dist_sum (c_gdist c) == 0
               ∧ dist_sum (c_tdist c) == 0)
    (blank_cells_from persons base).
Proof.
  revert base. induction persons as [|n persons IH]; intros base; simpl.
  - constructor.
  - constructor; [|apply IH]. split; [apply blank_cell_has_buckets|].
    split; reflexivity.
Qed.

(** *** Evidence given as a tri-state is never contradictory *)

Lemma elem_of_observed_trait people person :
  NoDup (Dict.keys people) →
  person ∈ observed_trait people
  ↔ ∃ r, Dict.get people person = ok r ∧ trait r = Some true.
Proof.
  intros Hnd. unfold observed_trait.
  rewrite elem_of_list_to_set, list_elem_of_omap. split.
  - intros ([k r] & Hin & Hsome). simpl in Hsome.
    destruct (trait r) as [[]|] eqn:Htr; try done.
    inversion Hsome; subst. exists r. split; [|done].
    by apply dict_get_elem_of.
  - intros (r & Hget & Htr). exists (person, r). simpl. rewrite Htr.
    split; [|done]. by apply dict_get_ok_elem_of.
Qed.

Lemma observed_trait_accepted people :
  NoDup (Dict.keys people) → accepted people (observed_trait people) = true.
Proof.
  intros Hnd. apply accepted_agrees. intros person r b Hget Htr.
  rewrite elem_of_observed_trait by done. split.
  - intros (r' & Hget' & Htr'). rewrite Hget in Hget'.
    inversion Hget'; subst. congruence.
  - intros ->. by exists r.
Qed.

Lemma hypotheses_nonempty people :
  NoDup (Dict.keys people) → hypotheses people ≠ [].
Proof.
  intros Hnd Hnil.
  assert ((observed_trait people, ∅, ∅) ∈ hypotheses people) as Hin.
  { unfold hypotheses. apply list_elem_of_bind.
    exists (observed_trait people). split.
    - apply list_elem_of_bind. exists (∅, ∅). split.
      + apply list_elem_of_singleton. done.
      + apply elem_of_gene_hypotheses. split; set_solver.
    - apply list_elem_of_filter. split.
      + apply Is_true_eq_left. by apply observed_trait_accepted.
      + apply elem_of_powerset. intros person Hin.
        apply elem_of_observed_trait in Hin as (r & Hget & _); [|done].
        apply elem_of_names_of. by eapply dict_get_ok_key. }
  rewrite Hnil in Hin. by apply elem_of_nil in Hin.
Qed.

(** ** The whole inference *)

Lemma main_sums_to_one people (h : heap) :
  NoDup (Dict.keys people) →
  ∃ h' cells,
    main people h = (ok (length h), h')
    ∧ represents h' (length h) cells
    ∧ c_key <$> cells = KStr <$> Dict.keys people
    ∧ Forall (λ c, Dict.keys (c_gdist c) = [KInt 2; KInt 1; KInt 0]
                   ∧ Dict.keys (c_tdist c) = [KInt 1; KInt 0]
                   ∧ Qsum (Dict.values (c_gdist c)) == 1
                   ∧ Qsum (Dict.values (c_tdist c)) == 1) cells.
Proof.
  intros Hnd.
  set (cells := accumulated_cells people (hypotheses people)
                  (blank_cells_from (Dict.keys people) (S (length h)))).
  pose proof (accumulated_cells_sums people (hypotheses people) _ 0
                (blank_cells_from_sums (Dict.keys people) (S (length h))))
    as Hsums. fold cells in Hsums.
  pose proof (mass_pos people _ (hypotheses_nonempty people Hnd)) as Hpos.
  assert (Forall (λ c, has_buckets c
                       ∧ ¬ dist_sum (c_gdist c) == 0
                       ∧ ¬ dist_sum (c_tdist c) == 0) cells) as Hnz.
  { eapply Forall_impl; [exact Hsums|]. intros c (Hb & Hg & Ht).
    split; [done|]. rewrite Hg, Ht, Qplus_0_l.
    split; intros Hz; rewrite Hz in Hpos; by apply Qlt_irrefl in Hpos. }
  destruct (main_run people h Hnd) as (r & h' & Hrun & Hres).
  fold cells in Hres.
  assert (existsb cell_degenerate cells = false) as Hdeg.
  { apply not_true_is_false. intros Hex.
    apply existsb_exists in Hex as (c & Hc & Hd).
    rewrite Forall_forall in Hnz.
    destruct (Hnz c) as (_ & Hg & Ht); [by apply list_elem_of_In|].
    unfold cell_degenerate in Hd. by rewrite !not_degenerate in Hd. }
  rewrite Hdeg in Hres. destruct Hres as (-> & Hrep).
  exists h', (normalized_cell <$> cells). split; [done|]. split; [done|]. split.
  - rewrite <- list_fmap_compose.
    assert (∀ hyps cs, c_key <$> accumulated_cells people hyps cs = c_key <$> cs)
      as Hkeys.
    { induction hyps as [|hyp hyps IH]; intros cs; [done|]. simpl.
      rewrite IH, <- list_fmap_compose. by apply list_fmap_ext. }
    transitivity (c_key <$> cells); [by apply list_fmap_ext|].
    unfold cells. by rewrite Hkeys, blank_cells_from_keys.
  - rewrite Forall_fmap. eapply Forall_impl; [exact Hnz|].
    intros c ([Hkg Hkt] & Hg & Ht). simpl.
    rewrite !scale_keys. split; [done|]. split; [done|].
    split; by apply Qsum_normalized.
Qed.

(** X10. For every pedigree, [main] runs to the end without raising and
    leaves at [probabilities] a table with one cell per person, in the
    order of [people], whose gene and trait distributions each sum to
    1. *)
Theorem main_posterior people (h : heap) :
  NoDup (Dict.keys people) →
  ∃ h' cells,
    main people h = (ok (length h), h')
    ∧ represents h' (length h) cells
    ∧ c_key <$> cells = KStr <$> Dict.keys people
    ∧ Forall (λ c, Dict.keys (c_gdist c) = [KInt 2; KInt 1; KInt 0]
                   ∧ Dict.keys (c_tdist c) = [KInt 1; KInt 0]
                   ∧ Qsum (Dict.values (c_gdist c)) == 1
                   ∧ Qsum (Dict.values (c_tdist c)) == 1) cells.
Proof. apply main_sums_to_one. Qed.

(** * Further properties of the code *)

(** ** joint_probability *)

Lemma prior_le_1 copies : prior copies <= 1.
Proof. destruct copies as [|[|n]]; by apply Qle_bool_iff. Qed.

Lemma likelihood_le_1 copies has_trait : likelihood copies has_trait <= 1.
Proof. destruct copies as [|[|n]], has_trait; by apply Qle_bool_iff. Qed.

Lemma inherit_factor_le_1 copies pm pf :
  0 < pm ∧ pm < 1 → 0 < pf ∧ pf < 1 → inherit_factor copies pm pf <= 1.
Proof.
  intros [Hm0 Hm1] [Hf0 Hf1].
  assert (0 <= (1 - pm) * (1 - pf)) as H00 by nra.
  assert (0 <= pm * pf) as H11 by nra.
  assert (0 <= (1 - pm) * pf) as H01 by nra.
  assert (0 <= pm * (1 - pf)) as H10 by nra.
  destruct copies as [|[|n]]; cbn [inherit_factor Nat.eqb]; nra.
Qed.

Lemma joint_probability_body_unit people one_gene two_genes have_trait
    probability person :
  person ∈ Dict.keys people →
  0 < probability ∧ probability <= 1 →
  ∃ q, joint_probability_body people one_gene two_genes have_trait
         probability person = ok q ∧ 0 < q ∧ q <= 1.
Proof.
  intros Hin [Hpos Hle]. destruct (dict_get_key people person Hin) as (r & Hget & _).
  pose proof (likelihood_pos (gene_count person one_gene two_genes)
                (bool_decide (person ∈ have_trait))) as Hl0.
  pose proof (likelihood_le_1 (gene_count person one_gene two_genes)
                (bool_decide (person ∈ have_trait))) as Hl1.
  destruct (mother r) as [m|] eqn:Hm.
  - rewrite (joint_probability_body_child _ _ _ _ _ _ r m Hget Hm).
    eexists. split; [done|].
    pose proof (inherit_factor_pos (gene_count person one_gene two_genes) _ _
                  (perc_of_between (parent_gene_count (mother r) one_gene two_genes))
                  (perc_of_between (parent_gene_count (father r) one_gene two_genes)))
      as Hi0.
    pose proof (inherit_factor_le_1 (gene_count person one_gene two_genes) _ _
                  (perc_of_between (parent_gene_count (mother r) one_gene two_genes))
                  (perc_of_between (parent_gene_count (father r) one_gene two_genes)))
      as Hi1.
    revert Hl0 Hl1 Hi0 Hi1.
    generalize (likelihood (gene_count person one_gene two_genes)
                  (bool_decide (person ∈ have_trait))).
    generalize (inherit_factor (gene_count person one_gene two_genes)
                  (perc_of (parent_gene_count (mother r) one_gene two_genes))
                  (perc_of (parent_gene_count (father r) one_gene two_genes))).
    intros f l Hl0 Hl1 Hf0 Hf1.
    assert (0 < probability * f ∧ probability * f <= 1) as [Ha Hb] by (split; nra).
    split; nra.
  - rewrite (joint_probability_body_founder _ _ _ _ _ _ r Hget Hm).
    eexists. split; [done|].
    pose proof (prior_pos (gene_count person one_gene two_genes)) as Hp0.
    pose proof (prior_le_1 (gene_count person one_gene two_genes)) as Hp1.
    revert Hl0 Hl1 Hp0 Hp1.
    generalize (likelihood (gene_count person one_gene two_genes)
                  (bool_decide (person ∈ have_trait))).
    generalize (prior (gene_count person one_gene two_genes)).
    intros f l Hl0 Hl1 Hf0 Hf1.
    assert (0 < f * l ∧ f * l <= 1) as [Ha Hb] by (split; nra).
    split; nra.
Qed.

Lemma for_each_joint_probability_unit people one_gene two_genes have_trait
    (ks : list string) (acc : Q) :
  (∀ k, k ∈ ks → k ∈ Dict.keys people) →
  0 < acc ∧ acc <= 1 →
  ∃ q, for_each (joint_probability_body people one_gene two_genes have_trait)
         ks acc = ok q
       ∧ 0 < q ∧ q <= 1.
Proof.
  revert acc. induction ks as [|k ks IH]; intros acc Hsub Hacc; simpl.
  - exists acc. split; [done|exact Hacc].
  - destruct (joint_probability_body_unit people one_gene two_genes have_trait
                acc k) as (q & -> & Hq); [|exact Hacc|].
    { apply Hsub, elem_of_cons. by left. }
    simpl. apply IH; [|exact Hq].
    intros k' Hk'. apply Hsub, elem_of_cons. by right.
Qed.

(** X5. Whatever the dictionary of people and the three sets (a parent
    need not be a key of [people]; the sets may overlap or hold other
    names), [joint_probability] does not raise, and the number it returns
    lies between 0 and 1. *)
Theorem joint_probability_is_a_probability (people : People)
    (one_gene two_genes have_trait : gset string) :
  ∃ q, joint_probability people one_gene two_genes have_trait = ok q
       ∧ 0 <= q ∧ q <= 1.
Proof.
  destruct (for_each_joint_probability_unit people one_gene two_genes
              have_trait (Dict.keys people) 1) as (q & Hq & Hpos & Hle).
  - done.
  - split; [reflexivity|apply Qle_refl].
  - exists q. split; [exact Hq|]. split; [by apply Qlt_le_weak|exact Hle].
Qed.

Lemma bool_decide_difference (n : string) (one_gene two_genes : gset string) :
  n ∉ one_gene →
  bool_decide (n ∈ two_genes ∖ one_gene) = bool_decide (n ∈ two_genes).
Proof.
  intros Hn. apply bool_decide_ext. rewrite elem_of_difference. tauto.
Qed.

Lemma gene_count_difference person (one_gene two_genes : gset string) :
  gene_count person one_gene (two_genes ∖ one_gene)
  = gene_count person one_gene two_genes.
Proof.
  unfold gene_count. destruct (bool_decide (person ∈ one_gene)) eqn:H1; [done|].
  apply bool_decide_eq_false in H1. by rewrite bool_decide_difference.
Qed.

Lemma parent_gene_count_difference ppl (one_gene two_genes : gset string) :
  parent_gene_count ppl one_gene (two_genes ∖ one_gene)
  = parent_gene_count ppl one_gene two_genes.
Proof.
  destruct ppl as [n|]; [|done]. unfold parent_gene_count, parent_in.
  destruct (bool_decide (n ∈ one_gene)) eqn:H1; [done|].
  apply bool_decide_eq_false in H1. by rewrite bool_decide_difference.
Qed.

Lemma key_in_difference k (one_gene two_genes : gset string) :
  key_in k one_gene = false →
  key_in k (two_genes ∖ one_gene) = key_in k two_genes.
Proof.
  destruct k as [n|z]; [|done]. simpl. intros H1.
  apply bool_decide_eq_false in H1. by apply bool_decide_difference.
Qed.

Lemma joint_probability_body_difference people one_gene two_genes have_trait
    probability person :
  joint_probability_body people one_gene two_genes have_trait probability person
  = joint_probability_body people one_gene (two_genes ∖ one_gene) have_trait
      probability person.
Proof.
  unfold joint_probability_body. cbv zeta. rewrite gene_count_difference.
  destruct (gene_count_cases person one_gene two_genes) as [H|[H|H]];
    rewrite H; destruct (bool_decide (person ∈ have_trait)); simpl;
    (destruct (Dict.get people person) as [e|r]; simpl; [done|]);
    (destruct (mother r) as [m|]; [|done]);
    unfold fill_percentages; simpl;
    by rewrite !parent_gene_count_difference.
Qed.

(** X6. A name that is in both [one_gene] and [two_genes] counts as having
    one copy: [joint_probability] and [update] give the same result when
    the members of [one_gene] are removed from [two_genes]. *)
Theorem one_gene_takes_precedence (people : People)
    (one_gene two_genes have_trait : gset string)
    (probabilities : loc) (p : Q) (h : heap) :
  joint_probability people one_gene two_genes have_trait
  = joint_probability people one_gene (two_genes ∖ one_gene) have_trait
  ∧ update probabilities one_gene two_genes have_trait p h
    = update probabilities one_gene (two_genes ∖ one_gene) have_trait p h.
Proof.
  split.
  - unfold joint_probability. apply for_each_ext. intros acc person _.
    apply joint_probability_body_difference.
  - unfold update, mthen. destruct (load probabilities h) as [[e|outer] h0]; [done|].
    apply for_in_ext. intros person h1 _. unfold update_person.
    destruct (key_in person one_gene) eqn:H1; [done|].
    by rewrite key_in_difference.
Qed.

(** ** update and the table of main *)

Lemma dict_get_bump (d : Dict.t key Q) k0 p k q :
  k0 ∈ Dict.keys d →
  Dict.get d k = ok q →
  Dict.get (bump d k0 p) k = ok (if decide (k0 = k) then q + p else q).
Proof.
  intros Hk0 Hget. destruct (dict_get_of_key d k0 Hk0) as [q0 Hq0].
  unfold bump. rewrite Hq0. case_decide as Heq.
  - subst k. rewrite Hq0 in Hget. inversion Hget; subst.
    apply dict_get_set_eq.
  - etrans; [by apply dict_get_set_ne|done].
Qed.

(** X7. On a table as [main] builds it, [update] does not raise; for
    every person it adds [p] to the gene bucket of the person's hypothesised
    gene count and to the trait bucket of the person's hypothesised trait
    value, and leaves every other bucket as it was. *)
Theorem update_adds_to_one_bucket (h : heap) (probabilities : loc)
    (cells : list cell) (one_gene two_genes have_trait : gset string) (p : Q) :
  represents h probabilities cells →
  Forall has_buckets cells →
  ∃ h',
    update probabilities one_gene two_genes have_trait p h = (ok (), h')
    ∧ length h' = length h
    ∧ represents h' probabilities
        (updated_cell one_gene two_genes have_trait p <$> cells)
    ∧ Forall
        (λ c,
           let c' := updated_cell one_gene two_genes have_trait p c in
           let gene_number :=
             if key_in (c_key c) one_gene then 1%nat
             else if key_in (c_key c) two_genes then 2%nat else 0%nat in
           (∀ k q, Dict.get (c_gdist c) k = ok q →
                   Dict.get (c_gdist c') k
                   = ok (if decide (key_of_nat gene_number = k)
                         then q + p else q))
           ∧ (∀ k q, Dict.get (c_tdist c) k = ok q →
                     Dict.get (c_tdist c') k
                     = ok (if decide
                                (key_of_bool (key_in (c_key c) have_trait) = k)
                           then q + p else q)))
        cells.
Proof.
  intros Hrep Hb.
  destruct (update_run h probabilities cells one_gene two_genes have_trait p
              Hrep Hb) as (h' & Hrun & Hrep' & _ & Hlen).
  exists h'. split; [done|]. split; [done|]. split; [done|].
  eapply Forall_impl; [exact Hb|]. intros c Hc. simpl. split.
  - intros k q Hget. apply dict_get_bump; [|done].
    apply gene_bucket_present; [done|].
    destruct (key_in (c_key c) one_gene); [lia|].
    destruct (key_in (c_key c) two_genes); lia.
  - intros k q Hget. apply dict_get_bump; [|done].
    by apply trait_bucket_present.
Qed.

Lemma update_adds_to_one_bucket_witness :
  ∃ h',
    update 0 {["Harry"%string]} ∅ ∅ 0.25 blank_heap = (ok (), h')
    ∧ length h' = length blank_heap
    ∧ represents h' 0 (updated_cell {["Harry"%string]} ∅ ∅ 0.25 <$> blank_cells)
    ∧ Forall
        (λ c,
           let c' := updated_cell {["Harry"%string]} ∅ ∅ 0.25 c in
           let gene_number :=
             if key_in (c_key c) {["Harry"%string]} then 1%nat
             else if key_in (c_key c) ∅ then 2%nat else 0%nat in
           (∀ k q, Dict.get (c_gdist c) k = ok q →
                   Dict.get (c_gdist c') k
                   = ok (if decide (key_of_nat gene_number = k)
                         then q + 0.25 else q))
           ∧ (∀ k q, Dict.get (c_tdist c) k = ok q →
                     Dict.get (c_tdist c') k
                     = ok (if decide (key_of_bool (key_in (c_key c) ∅) = k)
                           then q + 0.25 else q)))
        blank_cells.
Proof.
  apply (update_adds_to_one_bucket blank_heap 0 blank_cells
           {["Harry"%string]} ∅ ∅ 0.25).
  - repeat split; try apply (bool_decide_unpack _); try by vm_compute.
    repeat constructor; apply (bool_decide_unpack _); by vm_compute.
  - repeat constructor.
Defined.

Lemma blank_cells_from_blank persons base :
  Forall (λ c, c_gdist c = zero_gene ∧ c_tdist c = zero_trait)
    (blank_cells_from persons base).
Proof.
  revert base. induction persons as [|n persons IH]; intros base; simpl.
  - constructor.
  - constructor; [done|apply IH].
Qed.

(** X8. The dict comprehension of [main] gives every person an entry of
    its own, with a gene distribution and a trait distribution of its
    own (no dictionary is shared between two persons, or between the two
    distributions of a person), all buckets at 0, in the order of
    [people]. *)
Theorem init_probabilities_fresh (people : People) (h : heap) :
  NoDup (Dict.keys people) →
  ∃ h' cells,
    init_probabilities people h = (ok (length h), h')
    ∧ represents h' (length h) cells
    ∧ c_key <$> cells = KStr <$> Dict.keys people
    ∧ Forall (λ c, c_gdist c = zero_gene ∧ c_tdist c = zero_trait) cells.
Proof.
  intros Hnd. destruct (init_probabilities_run people h Hnd) as (h' & Hrun & Hrep).
  exists h', (blank_cells_from (Dict.keys people) (S (length h))).
  split; [done|]. split; [done|]. split.
  - apply blank_cells_from_keys.
  - apply blank_cells_from_blank.
Qed.

Lemma init_probabilities_fresh_witness :
  ∃ h' cells,
    init_probabilities carol_family [] = (ok 0%nat, h')
    ∧ represents h' 0 cells
    ∧ c_key <$> cells = KStr <$> Dict.keys carol_family
    ∧ Forall (λ c, c_gdist c = zero_gene ∧ c_tdist c = zero_trait) cells.
Proof.
  apply (init_probabilities_fresh carol_family []).
  apply (bool_decide_unpack _). by vm_compute.
Defined.

Lemma accumulated_cells_keys people hyps cells :
  c_key <$> accumulated_cells people hyps cells = c_key <$> cells.
Proof.
  revert cells. induction hyps as [|hyp hyps IH]; intros cells; [done|].
  simpl. rewrite IH, <- list_fmap_compose. by apply list_fmap_ext.
Qed.

(** X9. When the three loops of [main] are over, the gene buckets of every
    person and the trait buckets of every person add up to one and the
    same number: the sum of the joint probabilities of all the hypotheses
    that passed the evidence check, which is positive. *)
Theorem accumulated_marginals_agree (people : People) (h : heap) :
  NoDup (Dict.keys people) →
  ∃ h' cells,
    (probabilities <~ init_probabilities people;;
     _ <~ accumulate people probabilities;;
     mpure probabilities) h = (ok (length h), h')
    ∧ represents h' (length h) cells
    ∧ c_key <$> cells = KStr <$> Dict.keys people
    ∧ 0 < mass people (hypotheses people)
    ∧ Forall (λ c, dist_sum (c_gdist c) == mass people (hypotheses people)
                   ∧ dist_sum (c_tdist c) == mass people (hypotheses people))
        cells.
Proof.
  intros Hnd. destruct (accumulate_run people h Hnd) as (h' & Hrun & Hrep).
  eexists h', _. split; [exact Hrun|]. split; [exact Hrep|]. split.
  - by rewrite accumulated_cells_keys, blank_cells_from_keys.
  - split; [by apply mass_pos, hypotheses_nonempty|].
    pose proof (accumulated_cells_sums people (hypotheses people) _ 0
                  (blank_cells_from_sums (Dict.keys people) (S (length h))))
      as Hsums.
    eapply Forall_impl; [exact Hsums|]. intros c (_ & Hg & Ht).
    rewrite Hg, Ht. split; ring.
Qed.

Lemma accumulated_marginals_agree_witness :
  ∃ h' cells,
    (probabilities <~ init_probabilities simple_family_data;;
     _ <~ accumulate simple_family_data probabilities;;
     mpure probabilities) [] = (ok 0%nat, h')
    ∧ represents h' 0 cells
    ∧ c_key <$> cells = KStr <$> Dict.keys simple_family_data
    ∧ 0 < mass simple_family_data (hypotheses simple_family_data)
    ∧ Forall (λ c, dist_sum (c_gdist c)
                   == mass simple_family_data (hypotheses simple_family_data)
                   ∧ dist_sum (c_tdist c)
                     == mass simple_family_data (hypotheses simple_family_data))
        cells.
Proof.
  apply (accumulated_marginals_agree simple_family_data []).
  apply (bool_decide_unpack _). by vm_compute.
Defined.

Lemma main_posterior_witness :
  ∃ h' cells,
    main carol_family [] = (ok 0%nat, h')
    ∧ represents h' 0 cells
    ∧ c_key <$> cells = KStr <$> Dict.keys carol_family
    ∧ Forall (λ c, Dict.keys (c_gdist c) = [KInt 2; KInt 1; KInt 0]
                   ∧ Dict.keys (c_tdist c) = [KInt 1; KInt 0]
                   ∧ Qsum (Dict.values (c_gdist c)) == 1
                   ∧ Qsum (Dict.values (c_tdist c)) == 1) cells.
Proof.
  apply (main_posterior carol_family []).
  apply (bool_decide_unpack _). by vm_compute.
Defined.

(** ** normalize, twice *)

Lemma dist_sum_normalized (d : Dict.t key Q) :
  ¬ dist_sum d == 0 → dist_sum (scale d (dist_sum d)) == 1.
Proof. intros Hs. rewrite dist_sum_Qsum. by apply Qsum_normalized. Qed.

(** X11. Normalizing a second time changes nothing but the representation
    of the numbers: on a table with nonzero sums both calls succeed, and
    after the second call every bucket is still worth its accumulated
    mass divided by the sum the person's buckets had at the start. *)
Theorem normalize_twice (h : heap) (probabilities : loc) (cells : list cell) :
  represents h probabilities cells →
  Forall (λ c, ¬ dist_sum (c_gdist c) == 0 ∧ ¬ dist_sum (c_tdist c) == 0)
    cells →
  ∃ n1 h1 n2 h2,
    normalize probabilities h = (ok n1, h1)
    ∧ normalize probabilities h1 = (ok n2, h2)
    ∧ represents h2 probabilities
        (normalized_cell <$> (normalized_cell <$> cells))
    ∧ Forall
        (λ c,
           let c2 := normalized_cell (normalized_cell c) in
           (∀ k v, Dict.get (c_gdist c) k = ok v →
                   ∃ v2, Dict.get (c_gdist c2) k = ok v2
                         ∧ v2 == v / dist_sum (c_gdist c))
           ∧ (∀ k v, Dict.get (c_tdist c) k = ok v →
                     ∃ v2, Dict.get (c_tdist c2) k = ok v2
                           ∧ v2 == v / dist_sum (c_tdist c)))
        cells.
Proof.
  intros Hrep Hnz.
  assert (∀ cs, Forall (λ c, ¬ dist_sum (c_gdist c) == 0
                             ∧ ¬ dist_sum (c_tdist c) == 0) cs →
                existsb cell_degenerate cs = false) as Hdeg.
  { intros cs Hcs. apply not_true_is_false. intros Hex.
    apply existsb_exists in Hex as (c & Hc & Hd).
    rewrite Forall_forall in Hcs.
    destruct (Hcs c) as [Hg Ht]; [by apply list_elem_of_In|].
    unfold cell_degenerate in Hd. by rewrite !not_degenerate in Hd. }
  assert (Forall (λ c, ¬ dist_sum (c_gdist c) == 0 ∧ ¬ dist_sum (c_tdist c) == 0)
            (normalized_cell <$> cells)) as Hnz1.
  { rewrite Forall_fmap. eapply Forall_impl; [exact Hnz|].
    intros c [Hg Ht]. simpl. rewrite !dist_sum_normalized by done.
    split; intros H01; discriminate H01. }
  destruct (normalize_run h probabilities cells Hrep) as (r1 & h1 & Hrun1 & Hres1).
  rewrite (Hdeg _ Hnz) in Hres1. destruct Hres1 as (-> & Hrep1 & _).
  destruct (normalize_run h1 probabilities _ Hrep1) as (r2 & h2 & Hrun2 & Hres2).
  rewrite (Hdeg _ Hnz1) in Hres2. destruct Hres2 as (-> & Hrep2 & _).
  exists (length h), h1, (length h1), h2.
  split; [done|]. split; [done|]. split; [done|].
  eapply Forall_impl; [exact Hnz|]. intros c [Hg Ht]. simpl. split.
  - intros k v Hget. eexists. split.
    + apply dict_get_scale, dict_get_scale, Hget.
    + rewrite dist_sum_normalized by done. field. exact Hg.
  - intros k v Hget. eexists. split.
    + apply dict_get_scale, dict_get_scale, Hget.
    + rewrite dist_sum_normalized by done. field. exact Ht.
Qed.

Lemma normalize_twice_witness :
  ∃ n1 h1 n2 h2,
    normalize 0 founder_heap = (ok n1, h1)
    ∧ normalize 0 h1 = (ok n2, h2)
    ∧ represents h2 0 (normalized_cell <$> (normalized_cell <$> founder_cells))
    ∧ Forall
        (λ c,
           let c2 := normalized_cell (normalized_cell c) in
           (∀ k v, Dict.get (c_gdist c) k = ok v →
                   ∃ v2, Dict.get (c_gdist c2) k = ok v2
                         ∧ v2 == v / dist_sum (c_gdist c))
           ∧ (∀ k v, Dict.get (c_tdist c) k = ok v →
                     ∃ v2, Dict.get (c_tdist c2) k = ok v2
                           ∧ v2 == v / dist_sum (c_tdist c)))
        founder_cells.
Proof.
  apply (normalize_twice founder_heap 0 founder_cells).
  - repeat split; try apply (bool_decide_unpack _); try by vm_compute.
    repeat constructor; apply (bool_decide_unpack _); by vm_compute.
  - repeat constructor; by vm_compute.
Defined.

(** ** load_data *)

Lemma load_row_person data row :
  load_row data row
  = do r <- person_of_row row; ok (Dict.set data (name r) r).
Proof.
  unfold load_row, person_of_row.
  destruct (Dict.get row "name"%string) as [e|n]; simpl; [done|].
  destruct (Dict.get row "mother"%string) as [e|m]; simpl; [done|].
  destruct (Dict.get row "father"%string) as [e|f]; simpl; [done|].
  by destruct (Dict.get row "trait"%string) as [e|t].
Qed.

Lemma person_of_row_name row r :
  person_of_row row = ok r → Dict.get row "name"%string = ok (name r).
Proof.
  unfold person_of_row.
  destruct (Dict.get row "name"%string) as [e|n]; simpl; [done|].
  destruct (Dict.get row "mother"%string) as [e|m]; simpl; [done|].
  destruct (Dict.get row "father"%string) as [e|f]; simpl; [done|].
  destruct (Dict.get row "trait"%string) as [e|t]; simpl; [done|].
  by intros [= <-].
Qed.

Lemma person_of_row_error row e : person_of_row row = raise e → e = KeyError.
Proof.
  assert (∀ (d : Row) k e', Dict.get d k = inl e' → e' = KeyError) as Hget.
  { intros d k e'. induction d as [|[k' v'] d IH]; simpl.
    - by intros [= <-].
    - case_decide; [done|exact IH]. }
  unfold person_of_row.
  destruct (Dict.get row "name"%string) as [e1|n] eqn:H1; simpl.
  { intros [= <-]. by eapply Hget. }
  destruct (Dict.get row "mother"%string) as [e2|m] eqn:H2; simpl.
  { intros [= <-]. by eapply Hget. }
  destruct (Dict.get row "father"%string) as [e3|f] eqn:H3; simpl.
  { intros [= <-]. by eapply Hget. }
  destruct (Dict.get row "trait"%string) as [e4|t] eqn:H4; simpl.
  { intros [= <-]. by eapply Hget. }
  done.
Qed.

Lemma dict_set_keys_NoDup {K V} `{EqDecision K} (d : Dict.t K V) k v :
  NoDup (Dict.keys d) → NoDup (Dict.keys (Dict.set d k v)).
Proof.
  intros Hnd. destruct (decide (k ∈ Dict.keys d)) as [Hin|Hin].
  - by rewrite dict_keys_set_in.
  - rewrite dict_keys_set_notin by done. apply NoDup_app.
    split; [done|]. split; [|apply NoDup_singleton].
    intros x Hx Hx'. apply list_elem_of_singleton in Hx'. by subst.
Qed.

Lemma dict_set_keys_elem_of {K V} `{EqDecision K} (d : Dict.t K V) k v x :
  x ∈ Dict.keys (Dict.set d k v) ↔ x = k ∨ x ∈ Dict.keys d.
Proof.
  destruct (decide (k ∈ Dict.keys d)) as [Hin|Hin].
  - rewrite dict_keys_set_in by done. split; [by right|].
    intros [->|Hx]; done.
  - rewrite dict_keys_set_notin, elem_of_app, list_elem_of_singleton by done.
    tauto.
Qed.

(** The loop of [load_data], from any dictionary built so far. *)
Lemma load_rows_keys (rows : list Row) :
  ∀ data people,
    NoDup (Dict.keys data) →
    (∀ n r, Dict.get data n = ok r → name r = n) →
    for_each load_row rows data = ok people →
    NoDup (Dict.keys people)
    ∧ (∀ n, n ∈ Dict.keys people
            ↔ n ∈ Dict.keys data
              ∨ ∃ row, row ∈ rows ∧ Dict.get row "name"%string = ok n)
    ∧ (∀ n r, Dict.get people n = ok r → name r = n).
Proof.
  induction rows as [|row rows IH]; intros data people Hnd Hown Hrun;
    simpl in Hrun.
  - inversion Hrun; subst. split; [done|]. split; [|done].
    intros n. split; [by left|]. intros [H|(row & Hin & _)]; [done|].
    by apply elem_of_nil in Hin.
  - rewrite load_row_person in Hrun.
    destruct (person_of_row row) as [e|r0] eqn:Hrow; simpl in Hrun; [done|].
    pose proof (person_of_row_name _ _ Hrow) as Hn0.
    apply IH in Hrun as (Hnd' & Hkeys & Hnames).
    + split; [done|]. split; [|done].
      intros n. rewrite Hkeys, dict_set_keys_elem_of. split.
      * intros [[->|H]|(row' & Hin & Hget)].
        -- right. exists row. split; [apply elem_of_cons; by left|done].
        -- by left.
        -- right. exists row'. split; [apply elem_of_cons; by right|done].
      * intros [H|(row' & Hin & Hget)]; [left; by right|].
        apply elem_of_cons in Hin as [->|Hin].
        -- left. left. rewrite Hn0 in Hget. by inversion Hget.
        -- right. by exists row'.
    + by apply dict_set_keys_NoDup.
    + intros n r. destruct (decide (name r0 = n)) as [<-|Hne].
      * rewrite dict_get_set_eq. by intros [= <-].
      * rewrite dict_get_set_ne by done. apply Hown.
Qed.

Lemma load_rows_other_names (rows : list Row) (n : string) :
  (∀ row, row ∈ rows → Dict.get row "name"%string ≠ ok n) →
  ∀ data people,
    for_each load_row rows data = ok people →
    Dict.get people n = Dict.get data n.
Proof.
  induction rows as [|row rows IH]; intros Hrows data people Hrun;
    simpl in Hrun.
  - by inversion Hrun.
  - rewrite load_row_person in Hrun.
    destruct (person_of_row row) as [e|r0] eqn:Hrow; simpl in Hrun; [done|].
    pose proof (person_of_row_name _ _ Hrow) as Hn0.
    rewrite (IH (λ row' Hin, Hrows row' (list_elem_of_further _ _ _ Hin))
               _ _ Hrun).
    apply dict_get_set_ne. intros Heq. subst n.
    by apply (Hrows row (list_elem_of_here _ _)).
Qed.

Lemma for_each_app {A B} (f : A → B → result A) (xs ys : list B) (acc : A) :
  for_each f (xs ++ ys) acc = do acc' <- for_each f xs acc; for_each f ys acc'.
Proof.
  revert acc. induction xs as [|x xs IH]; intros acc; simpl; [done|].
  destruct (f acc x) as [e|acc']; simpl; [done|apply IH].
Qed.

Lemma load_data_keys rows people :
  load_data rows = ok people →
  NoDup (Dict.keys people)
  ∧ (∀ n, n ∈ Dict.keys people
          ↔ ∃ row, row ∈ rows ∧ Dict.get row "name"%string = ok n)
  ∧ (∀ n r, Dict.get people n = ok r → name r = n).
Proof.
  intros Hrun. apply load_rows_keys in Hrun as (Hnd & Hkeys & Hown).
  - split; [done|]. split; [|done]. intros n. rewrite Hkeys. split.
    + intros [H|H]; [by apply elem_of_nil in H|done].
    + by right.
  - apply NoDup_nil_2.
  - intros n r H. discriminate H.
Qed.

Lemma filter_filter_ne (n : string) (keys l : list string) :
  n ∈ keys →
  filter (λ x, x ∉ keys) (filter (λ x, x ≠ n) l) = filter (λ x, x ∉ keys) l.
Proof.
  intros Hn. induction l as [|x l IH]; [done|].
  rewrite !filter_cons. destruct (decide (x ≠ n)) as [Hx|Hx].
  - rewrite filter_cons. destruct (decide (x ∉ keys)); by rewrite IH.
  - rewrite decide_False; [done|].
    intros Hnot. apply Hx. intros ->. by apply Hnot.
Qed.

Lemma filter_notin_snoc (n : string) (keys l : list string) :
  filter (λ x, x ∉ keys ++ [n]) l
  = filter (λ x, x ∉ keys) (filter (λ x, x ≠ n) l).
Proof.
  induction l as [|x l IH]; [done|].
  rewrite !filter_cons. destruct (decide (x ≠ n)) as [Hx|Hx].
  - rewrite filter_cons. destruct (decide (x ∉ keys)) as [Hk|Hk].
    + rewrite decide_True; [by rewrite IH|].
      rewrite elem_of_app, list_elem_of_singleton. tauto.
    + rewrite decide_False; [done|].
      rewrite elem_of_app. tauto.
  - rewrite decide_False; [done|].
    rewrite elem_of_app, list_elem_of_singleton.
    destruct (decide (x = n)); tauto.
Qed.

(** The loop of [load_data] appends the new names to the keys it
    started with, in the order of their first appearance. *)
Lemma load_rows_order (rows : list Row) :
  ∀ data people,
    for_each load_row rows data = ok people →
    ∃ names,
      Forall2 (λ row n, Dict.get row "name"%string = ok n) rows names
      ∧ Dict.keys people
        = Dict.keys data
          ++ filter (λ n, n ∉ Dict.keys data) (first_appearances names).
Proof.
  induction rows as [|row rows IH]; intros data people Hrun; simpl in Hrun.
  - inversion Hrun; subst. exists []. split; [constructor|].
    cbn [first_appearances]. by rewrite filter_nil, app_nil_r.
  - rewrite load_row_person in Hrun.
    destruct (person_of_row row) as [e|r0] eqn:Hrow; simpl in Hrun; [done|].
    pose proof (person_of_row_name _ _ Hrow) as Hn0.
    apply IH in Hrun as (names & Hnames & Hkeys).
    exists (name r0 :: names). split; [by constructor|].
    rewrite Hkeys. cbn [first_appearances]. rewrite filter_cons.
    destruct (decide (name r0 ∈ Dict.keys data)) as [Hin|Hin].
    + rewrite dict_keys_set_in by done.
      rewrite decide_False by (intros Hnot; by apply Hnot).
      by rewrite filter_filter_ne.
    + rewrite dict_keys_set_notin by done.
      rewrite decide_True by done.
      by rewrite filter_notin_snoc, <- app_assoc.
Qed.

(** X1. The people loaded from a file are the names of its rows in the
    order of their first appearance, each once however often a name is
    repeated, and every record is filed under the name it carries. *)
Theorem load_data_people (rows : list Row) (people : People) :
  load_data rows = ok people →
  (∃ names,
     Forall2 (λ row n, Dict.get row "name"%string = ok n) rows names
     ∧ Dict.keys people = first_appearances names)
  ∧ NoDup (Dict.keys people)
  ∧ (∀ n, n ∈ Dict.keys people
          ↔ ∃ row, row ∈ rows ∧ Dict.get row "name"%string = ok n)
  ∧ (∀ n r, Dict.get people n = ok r → name r = n).
Proof.
  intros Hload. split; [|by apply load_data_keys].
  apply load_rows_order in Hload as (names & Hnames & Hkeys).
  exists names. split; [done|]. rewrite Hkeys. cbn [Dict.keys fmap list_fmap app].
  apply filter_all. intros n. apply not_elem_of_nil.
Qed.

Lemma load_data_people_witness :
  let people := [("Harry", mkPerson "Harry" (Some "Lily") (Some "James") (Some true));
                 ("James", mkPerson "James" None None (Some true));
                 ("Lily", mkPerson "Lily" None None (Some false))]%string in
  (∃ names,
     Forall2 (λ row n, Dict.get row "name"%string = ok n) harry_rows names
     ∧ Dict.keys people = first_appearances names)
  ∧ NoDup (Dict.keys people)
  ∧ (∀ n, n ∈ Dict.keys people
          ↔ ∃ row, row ∈ harry_rows ∧ Dict.get row "name"%string = ok n)
  ∧ (∀ n r, Dict.get people n = ok r → name r = n).
Proof. apply (load_data_people harry_rows). reflexivity. Defined.

(** X2. A later row for the same name replaces the earlier one: the record
    kept for a name is the one of the last row carrying it, whatever came
    before. *)
Theorem load_data_last_row_wins (pre post : list Row) (row : Row)
    (r : Person) (people : People) :
  load_data (pre ++ row :: post) = ok people →
  person_of_row row = ok r →
  (∀ row', row' ∈ post → Dict.get row' "name"%string ≠ ok (name r)) →
  Dict.get people (name r) = ok r.
Proof.
  unfold load_data. intros Hrun Hrow Hpost.
  rewrite for_each_app in Hrun.
  destruct (for_each load_row pre []) as [e|data]; simpl in Hrun; [done|].
  rewrite load_row_person, Hrow in Hrun. simpl in Hrun.
  rewrite (load_rows_other_names post (name r) Hpost _ _ Hrun).
  apply dict_get_set_eq.
Qed.

Lemma load_data_last_row_wins_witness :
  let people := [("Harry", mkPerson "Harry" (Some "Lily") (Some "James") (Some true));
                 ("James", mkPerson "James" None None (Some true));
                 ("Lily", mkPerson "Lily" None None (Some false))]%string in
  let harry := mkPerson "Harry" (Some "Lily") (Some "James") (Some true) in
  Dict.get people (name harry) = ok harry.
Proof.
  intros people harry.
  apply (load_data_last_row_wins
           (take 3 harry_rows)
           (drop 4 harry_rows)
           [("name", "Harry"); ("mother", "Lily"); ("father", "James");
            ("trait", "1")]%string
           harry people).
  - reflexivity.
  - reflexivity.
  - intros row' Hin. repeat apply elem_of_cons in Hin as [->|Hin];
      [by vm_compute..|by apply elem_of_nil in Hin].
Defined.

Lemma dict_get_error {K V} `{EqDecision K} (d : Dict.t K V) k e :
  Dict.get d k = raise e → e = KeyError ∧ k ∉ Dict.keys d.
Proof.
  induction d as [|[k' v'] d IH]; simpl.
  - intros [= <-]. split; [done|]. apply not_elem_of_nil.
  - case_decide as Hk; [done|]. intros Hget.
    destruct (IH Hget) as [-> Hnot]. split; [done|].
    intros Hin. apply elem_of_cons in Hin as [->|Hin]; done.
Qed.

Lemma person_of_row_columns (row : Row) :
  let columns := ["name"; "mother"; "father"; "trait"]%string in
  (columns ⊆ Dict.keys row ∧ ∃ r, person_of_row row = ok r)
  ∨ (¬ columns ⊆ Dict.keys row ∧ person_of_row row = raise KeyError).
Proof.
  intros columns. unfold person_of_row.
  assert (∀ c, c ∈ columns → Dict.get row c = raise KeyError →
               ¬ columns ⊆ Dict.keys row) as Hmiss.
  { intros c Hc Hget Hsub. apply dict_get_error in Hget as [_ Hnot].
    by apply Hnot, Hsub. }
  destruct (Dict.get row "name"%string) as [e|n] eqn:H1; simpl.
  { destruct (dict_get_error _ _ _ H1) as [-> _]. right. split; [|done].
    apply (Hmiss "name"%string); [|done]. by repeat constructor. }
  destruct (Dict.get row "mother"%string) as [e|m] eqn:H2; simpl.
  { destruct (dict_get_error _ _ _ H2) as [-> _]. right. split; [|done].
    apply (Hmiss "mother"%string); [|done]. by repeat constructor. }
  destruct (Dict.get row "father"%string) as [e|f] eqn:H3; simpl.
  { destruct (dict_get_error _ _ _ H3) as [-> _]. right. split; [|done].
    apply (Hmiss "father"%string); [|done]. by repeat constructor. }
  destruct (Dict.get row "trait"%string) as [e|t] eqn:H4; simpl.
  { destruct (dict_get_error _ _ _ H4) as [-> _]. right. split; [|done].
    apply (Hmiss "trait"%string); [|done]. by repeat constructor. }
  left. split; [|by eexists].
  intros c Hc. repeat apply elem_of_cons in Hc as [->|Hc];
    [by eapply dict_get_ok_key..|by apply elem_of_nil in Hc].
Qed.

Lemma load_rows_columns (rows : list Row) :
  let columns := ["name"; "mother"; "father"; "trait"]%string in
  ∀ data,
    (Forall (λ row : Row, columns ⊆ Dict.keys row) rows
     ∧ ∃ people, for_each load_row rows data = ok people)
    ∨ (¬ Forall (λ row : Row, columns ⊆ Dict.keys row) rows
       ∧ for_each load_row rows data = raise KeyError).
Proof.
  intros columns. induction rows as [|row rows IH]; intros data; simpl.
  - left. split; [done|by eexists].
  - rewrite load_row_person.
    destruct (person_of_row_columns row) as [[Hsub [r ->]]|[Hsub ->]]; simpl.
    + destruct (IH (Dict.set data (name r) r)) as [[Hall Hok]|[Hall Hko]].
      * left. split; [by constructor|done].
      * right. split; [|done]. intros Hall'. apply Hall.
        by apply Forall_cons in Hall' as [_ ?].
    + right. split; [|done]. intros Hall. apply Hsub.
      by apply Forall_cons in Hall as [? _].
Qed.

(** X3. The header decides whether the loop of [load_data] raises.  For
    rows that all have the fields of one header as their keys: with no
    row the result is the empty dictionary, whatever the header; with
    rows and a header that has the four columns the rows are loaded; with
    rows and a header that lacks one of the four, the loop raises
    KeyError. *)
Theorem load_data_missing_column (header : list string) (rows : list Row) :
  (∀ row, row ∈ rows → ∀ c, c ∈ Dict.keys row ↔ c ∈ header) →
  let columns := ["name"; "mother"; "father"; "trait"]%string in
  match rows with
  | [] => load_data rows = ok []
  | _ :: _ =>
      (columns ⊆ header ∧ ∃ people, load_data rows = ok people)
      ∨ (¬ columns ⊆ header ∧ load_data rows = raise KeyError)
  end.
Proof.
  intros Hkeys columns. destruct rows as [|row rows]; [done|].
  destruct (load_rows_columns (row :: rows) []) as [[Hall Hok]|[Hall Hko]].
  - left. split; [|exact Hok].
    apply Forall_cons in Hall as [Hrow _].
    intros c Hc. apply (Hkeys row); [apply list_elem_of_here|].
    by apply Hrow.
  - right. split; [|exact Hko].
    intros Hsub. apply Hall. apply Forall_forall. intros row' Hin c Hc.
    apply (Hkeys row' Hin). by apply Hsub.
Qed.

Lemma load_data_missing_column_witness :
  let header := ["name"; "mother"; "father"; "trait"]%string in
  let columns := ["name"; "mother"; "father"; "trait"]%string in
  (columns ⊆ header ∧ ∃ people, load_data potter_rows = ok people)
  ∨ (¬ columns ⊆ header ∧ load_data potter_rows = raise KeyError).
Proof.
  intros header.
  apply (load_data_missing_column header potter_rows).
  intros row Hin c. repeat apply elem_of_cons in Hin as [->|Hin];
    [reflexivity..|by apply elem_of_nil in Hin].
Defined.

(** X4. The inference never fails on loaded data: for whatever rows
    [load_data] accepts, [main] returns a table with one entry per loaded
    person, in the order of first appearance, whose gene and trait
    distributions each sum to 1; no evidence in a file can make
    [normalize] divide by zero. *)
Theorem main_on_loaded_data (rows : list Row) (people : People) (h : heap) :
  load_data rows = ok people →
  ∃ h' cells,
    main people h = (ok (length h), h')
    ∧ represents h' (length h) cells
    ∧ c_key <$> cells = KStr <$> Dict.keys people
    ∧ Forall (λ c, Dict.keys (c_gdist c) = [KInt 2; KInt 1; KInt 0]
                   ∧ Dict.keys (c_tdist c) = [KInt 1; KInt 0]
                   ∧ Qsum (Dict.values (c_gdist c)) == 1
                   ∧ Qsum (Dict.values (c_tdist c)) == 1) cells.
Proof.
  intros Hload. apply main_sums_to_one.
  by apply load_data_keys in Hload as (Hnd & _).
Qed.

Lemma main_on_loaded_data_witness :
  let people := [("Harry", mkPerson "Harry" (Some "Lily") (Some "James") (Some true));
                 ("James", mkPerson "James" None None (Some true));
                 ("Lily", mkPerson "Lily" None None (Some false))]%string in
  ∃ h' cells,
    main people [] = (ok 0%nat, h')
    ∧ represents h' 0 cells
    ∧ c_key <$> cells = KStr <$> Dict.keys people
    ∧ Forall (λ c, Dict.keys (c_gdist c) = [KInt 2; KInt 1; KInt 0]
                   ∧ Dict.keys (c_tdist c) = [KInt 1; KInt 0]
                   ∧ Qsum (Dict.values (c_gdist c)) == 1
                   ∧ Qsum (Dict.values (c_tdist c)) == 1) cells.
Proof. apply (main_on_loaded_data potter_rows _ []). reflexivity. Defined.

(** * Tic-tac-toe *)

Import TicTacToe.

Local Open Scope Z_scope.

Lemma well_formed_inv (b : board) :
  well_formed b →
  ∃ a0 a1 a2 b0 b1 b2 c0 c1 c2,
    b = [[a0; a1; a2]; [b0; b1; b2]; [c0; c1; c2]].
Proof.
  intros [Hlen Hrows].
  destruct b as [|r0 [|r1 [|r2 [|? ?]]]]; try discriminate Hlen.
  apply Forall_cons in Hrows as [H0 Hrows].
  apply Forall_cons in Hrows as [H1 Hrows].
  apply Forall_cons in Hrows as [H2 _].
  destruct r0 as [|a0 [|a1 [|a2 [|? ?]]]]; try discriminate H0.
  destruct r1 as [|b0 [|b1 [|b2 [|? ?]]]]; try discriminate H1.
  destruct r2 as [|c0 [|c1 [|c2 [|? ?]]]]; try discriminate H2.
  by exists a0, a1, a2, b0, b1, b2, c0, c1, c2.
Qed.

Lemma well_formed_board (a0 a1 a2 b0 b1 b2 c0 c1 c2 : option mark) :
  well_formed [[a0; a1; a2]; [b0; b1; b2]; [c0; c1; c2]].
Proof. split; [done|]. by repeat constructor. Qed.

Lemma elem_of_add_action (s : option mark) (a x : Z * Z) (acc : gset (Z * Z)) :
  x ∈ (if s is None then acc ∪ {[ a ]} else acc) ↔ x ∈ acc ∨ (s = None ∧ x = a).
Proof.
  destruct s as [m|].
  - split; [by left|]. by intros [H|[H _]].
  - rewrite elem_of_union, elem_of_singleton.
    split; (intros [H|H]; [by left|right]); [done|by destruct H].
Qed.

Lemma actions_board (a0 a1 a2 b0 b1 b2 c0 c1 c2 : option mark) :
  let add (s : option mark) (a : Z * Z) (acc : gset (Z * Z)) :=
    if s is None then acc ∪ {[ a ]} else acc in
  actions [[a0; a1; a2]; [b0; b1; b2]; [c0; c1; c2]]
  = mret (add c2 (2, 2) (add c1 (2, 1) (add c0 (2, 0)
         (add b2 (1, 2) (add b1 (1, 1) (add b0 (1, 0)
         (add a2 (0, 2) (add a1 (0, 1) (add a0 (0, 0) ∅))))))))).
Proof. reflexivity. Qed.

Lemma actions_spec (b : board) :
  well_formed b →
  ∃ s, actions b = mret s
       ∧ ∀ i j, (i, j) ∈ s ↔ 0 ≤ i < 3 ∧ 0 ≤ j < 3 ∧ cell b i j = mret None.
Proof.
  intros Hwf.
  destruct (well_formed_inv b Hwf)
    as (a0 & a1 & a2 & b0 & b1 & b2 & c0 & c1 & c2 & ->).
  eexists. split; [apply actions_board|]. intros i j. cbv zeta.
  rewrite !elem_of_add_action, elem_of_empty. split.
  - intros H. repeat destruct H as [H|H]; try done;
      destruct H as [-> [= -> ->]]; (split; [lia|]); (split; [lia|]); done.
  - intros (Hi & Hj & Hc).
    assert (i = 0 ∨ i = 1 ∨ i = 2) as [->|[->| ->]] by lia;
      assert (j = 0 ∨ j = 1 ∨ j = 2) as [->|[->| ->]] by lia;
      injection Hc as ->; tauto.
Qed.

(** *** Subscripts *)

Lemma position_lt (n : nat) (i : Z) (k : nat) :
  position n i = Some k → (k < n)%nat.
Proof.
  unfold position. repeat case_decide; intros [= <-]; lia.
Qed.

Lemma item_inv {A} (l : list A) (i : Z) (x : A) :
  item l i = mret x → ∃ k, position (length l) i = Some k ∧ l !! k = Some x.
Proof.
  unfold item. destruct (position (length l) i) as [k|]; simpl; [|done].
  destruct (l !! k) as [y|] eqn:Hk; [|done]. intros [= <-]. by exists k.
Qed.

Lemma cell_inv (b : board) (i j : Z) (s : option mark) :
  cell b i j = mret s →
  ∃ ki kj row,
    position (length b) i = Some ki ∧ b !! ki = Some row
    ∧ position (length row) j = Some kj ∧ row !! kj = Some s.
Proof.
  unfold cell. destruct (item b i) as [e|row] eqn:Hrow; [done|]. simpl.
  intros Hs. apply item_inv in Hrow as (ki & Hi & Hrow).
  apply item_inv in Hs as (kj & Hj & Hs). by exists ki, kj, row.
Qed.

Lemma result_inv (b : board) (i j : Z) (b' : board) :
  result b (i, j) = mret b' →
  ∃ ki kj row old,
    position (length b) i = Some ki ∧ b !! ki = Some row
    ∧ position (length row) j = Some kj ∧ row !! kj = Some old
    ∧ b' = <[ki := <[kj := Some (player b)]> row]> b.
Proof.
  unfold result. cbn [fst snd].
  destruct (item b i) as [e|row] eqn:Hrow; [done|]. simpl.
  apply item_inv in Hrow as (ki & Hi & Hrow).
  unfold set_item. rewrite Hi.
  destruct (position (length row) j) as [kj|] eqn:Hj; [|done]. simpl.
  intros [= <-].
  destruct (lookup_lt_is_Some_2 row kj) as [old Hold];
    [by eapply position_lt|].
  by exists ki, kj, row, old.
Qed.

(** *** Counting marks *)

Lemma count_cons (s x : option mark) (row : list (option mark)) :
  count s (x :: row) = ((if decide (x = s) then 1 else 0) + count s row)%nat.
Proof. unfold count. rewrite filter_cons. by case_decide. Qed.

Lemma count_insert (s old new : option mark) (row : list (option mark))
    (k : nat) :
  row !! k = Some old →
  (count s (<[k:=new]> row) + (if decide (old = s) then 1 else 0)
   = count s row + (if decide (new = s) then 1 else 0))%nat.
Proof.
  revert k. induction row as [|x row IH]; intros [|k] Hk; try done.
  - injection Hk as ->.
    change (<[0%nat:=new]> (old :: row)) with (new :: row).
    rewrite !count_cons. lia.
  - change (<[S k:=new]> (x :: row)) with (x :: <[k:=new]> row).
    rewrite !count_cons. specialize (IH k Hk). lia.
Qed.

Lemma occurrences_insert (s : option mark) (b : board) (k : nat)
    (row row' : list (option mark)) :
  b !! k = Some row →
  (occurrences s (<[k:=row']> b) + count s row
   = occurrences s b + count s row')%nat.
Proof.
  unfold occurrences. revert k.
  induction b as [|r b IH]; intros [|k] Hk; try done.
  - injection Hk as ->.
    change (<[0%nat:=row']> (row :: b)) with (row' :: b).
    rewrite !fmap_cons. simpl. lia.
  - change (<[S k:=row']> (r :: b)) with (r :: <[k:=row']> b).
    rewrite !fmap_cons. simpl. specialize (IH k Hk). lia.
Qed.

Lemma player_occurrences (b : board) :
  player b
  = if decide (occurrences (Some O) b < occurrences (Some X) b)%nat
    then O else X.
Proof.
  unfold player, occurrences.
  assert (∀ x o,
            foldl (λ '(x_count, o_count) (row : list (option mark)),
                     ((x_count + count (Some X) row)%nat,
                      (o_count + count (Some O) row)%nat)) (x, o) b
            = ((x + sum_list (count (Some X) <$> b))%nat,
               (o + sum_list (count (Some O) <$> b))%nat)) as Hfold.
  { induction b as [|row b IH]; intros x o; simpl.
    - f_equal; lia.
    - rewrite IH. f_equal; symmetry; apply Nat.add_assoc. }
  by rewrite Hfold.
Qed.

Lemma result_occurrences (b : board) (i j : Z) (b' : board) (m : mark) :
  cell b i j = mret None →
  result b (i, j) = mret b' →
  occurrences (Some m) b'
  = (occurrences (Some m) b + (if decide (player b = m) then 1 else 0))%nat.
Proof.
  intros Hcell Hres.
  apply cell_inv in Hcell as (ki & kj & row & Hi & Hrow & Hj & Hold).
  apply result_inv in Hres
    as (ki' & kj' & row' & old & Hi' & Hrow' & Hj' & Hold' & ->).
  rewrite Hi in Hi'. injection Hi' as <-.
  rewrite Hrow in Hrow'. injection Hrow' as <-.
  rewrite Hj in Hj'. injection Hj' as <-.
  rewrite Hold in Hold'. injection Hold' as <-.
  pose proof (occurrences_insert (Some m) b ki row
                (<[kj:=Some (player b)]> row) Hrow) as Hocc.
  pose proof (count_insert (Some m) None (Some (player b)) row kj Hold) as Hcnt.
  rewrite (decide_False (P := None = Some m)) in Hcnt by done.
  destruct (decide (player b = m)) as [Hp|Hp].
  - rewrite (decide_True (P := Some (player b) = Some m)) in Hcnt
      by by rewrite Hp.
    lia.
  - rewrite (decide_False (P := Some (player b) = Some m)) in Hcnt
      by (intros [= ?]; done).
    lia.
Qed.

Lemma move_passes_turn (b : board) (i j : Z) (b' : board) :
  (occurrences (Some X) b = occurrences (Some O) b
   ∨ occurrences (Some X) b = S (occurrences (Some O) b)) →
  cell b i j = mret None →
  result b (i, j) = mret b' →
  player b' ≠ player b
  ∧ (occurrences (Some X) b' = occurrences (Some O) b'
     ∨ occurrences (Some X) b' = S (occurrences (Some O) b')).
Proof.
  intros Hbal Hcell Hres.
  pose proof (result_occurrences b i j b' X Hcell Hres) as HX.
  pose proof (result_occurrences b i j b' O Hcell Hres) as HO.
  rewrite (player_occurrences b') , (player_occurrences b) in *.
  destruct (decide (occurrences (Some O) b < occurrences (Some X) b)%nat)
    as [Hlt|Hge].
  - rewrite (decide_False (P := O = X)) in HX by done.
    rewrite (decide_True (P := O = O)) in HO by done.
    rewrite decide_False by lia. split; [done|lia].
  - rewrite (decide_True (P := X = X)) in HX by done.
    rewrite (decide_False (P := X = O)) in HO by done.
    rewrite decide_True by lia. split; [done|lia].
Qed.

(** *** Moves on a board of three by three *)

Lemma result_board (b : board) (i j : Z) :
  well_formed b → -3 ≤ i < 3 → -3 ≤ j < 3 →
  ∃ b', result b (i, j) = mret b'
        ∧ well_formed b'
        ∧ ∀ i' j', 0 ≤ i' < 3 → 0 ≤ j' < 3 →
            cell b' i' j'
            = if decide (i' = i `mod` 3 ∧ j' = j `mod` 3)
              then mret (Some (player b)) else cell b i' j'.
Proof.
  intros Hwf Hi Hj.
  destruct (well_formed_inv b Hwf)
    as (a0 & a1 & a2 & b0 & b1 & b2 & c0 & c1 & c2 & ->).
  assert (i = -3 ∨ i = -2 ∨ i = -1 ∨ i = 0 ∨ i = 1 ∨ i = 2)
    as [->|[->|[->|[->|[->| ->]]]]] by lia;
    assert (j = -3 ∨ j = -2 ∨ j = -1 ∨ j = 0 ∨ j = 1 ∨ j = 2)
      as [->|[->|[->|[->|[->| ->]]]]] by lia;
    (eexists; split; [reflexivity|]; split; [apply well_formed_board|];
     intros i' j' Hi' Hj';
     assert (i' = 0 ∨ i' = 1 ∨ i' = 2) as [->|[->| ->]] by lia;
     assert (j' = 0 ∨ j' = 1 ∨ j' = 2) as [->|[->| ->]] by lia;
     reflexivity).
Qed.

Lemma position_out (n : nat) (i : Z) :
  ¬ (- Z.of_nat n ≤ i < Z.of_nat n) → position n i = None.
Proof. intros Hout. unfold position. by rewrite !decide_False by lia. Qed.

Lemma result_out_of_range (b : board) (i j : Z) :
  well_formed b → ¬ (-3 ≤ i < 3 ∧ -3 ≤ j < 3) →
  result b (i, j) = throw IndexError.
Proof.
  intros Hwf Hout.
  destruct (well_formed_inv b Hwf)
    as (a0 & a1 & a2 & b0 & b1 & b2 & c0 & c1 & c2 & ->).
  unfold result. cbn [fst snd].
  destruct (decide (-3 ≤ i < 3)) as [Hi|Hi].
  - assert (i = -3 ∨ i = -2 ∨ i = -1 ∨ i = 0 ∨ i = 1 ∨ i = 2)
      as [->|[->|[->|[->|[->| ->]]]]] by lia;
      (change (item _ _) with (mret (M := outcome) [a0; a1; a2])
       || change (item _ _) with (mret (M := outcome) [b0; b1; b2])
       || change (item _ _) with (mret (M := outcome) [c0; c1; c2]));
      cbn [mbind outcome_bind mret outcome_ret]; unfold set_item;
      cbn [length]; by rewrite (position_out 3 j) by lia.
  - unfold item. by rewrite position_out by (cbn [length]; lia).
Qed.

Lemma legal_move (b : board) (s : gset (Z * Z)) (a : Z * Z) :
  well_formed b → actions b = mret s → a ∈ s →
  ∃ b', result b a = mret b'
        ∧ well_formed b'
        ∧ actions b' = mret (s ∖ {[ a ]})
        ∧ cell b a.1 a.2 = mret None.
Proof.
  intros Hwf Hact Ha. destruct a as [i j].
  destruct (actions_spec b Hwf) as (s0 & Hact0 & Hs).
  rewrite Hact in Hact0. injection Hact0 as <-.
  apply Hs in Ha as (Hi & Hj & Hcell).
  destruct (result_board b i j Hwf) as (b' & Hres & Hwf' & Hframe); [lia..|].
  destruct (actions_spec b' Hwf') as (s' & Hact' & Hs').
  exists b'. split; [done|]. split; [done|]. split; [|done].
  rewrite Hact'. f_equal. apply set_eq. intros [i' j'].
  rewrite elem_of_difference, elem_of_singleton, Hs', Hs.
  rewrite !Z.mod_small in Hframe by lia. split.
  - intros (Hi' & Hj' & Hc). rewrite Hframe in Hc by done.
    case_decide as Heq; [done|]. split; [done|].
    intros [= -> ->]. by apply Heq.
  - intros ((Hi' & Hj' & Hc) & Hne). split; [done|]. split; [done|].
    rewrite Hframe by done. rewrite decide_False; [done|].
    intros [-> ->]. by apply Hne.
Qed.

Lemma reachable_invariant (b : board) :
  reachable b →
  well_formed b
  ∧ (occurrences (Some X) b = occurrences (Some O) b
     ∨ occurrences (Some X) b = S (occurrences (Some O) b)).
Proof.
  induction 1 as [|b [i j] s b' Hb [Hwf Hbal] Hact Ha Hres].
  - split; [apply well_formed_board|]. by left.
  - destruct (legal_move b s (i, j) Hwf Hact Ha)
      as (b'' & Hres' & Hwf' & _ & Hcell).
    rewrite Hres in Hres'. injection Hres' as <-. split; [done|].
    by destruct (move_passes_turn b i j b' Hbal Hcell Hres).
Qed.

(** *** Lines *)

Lemma three_of_first_spec (x y z : option mark) :
  ∃ w, three_of_first [x; y; z] = mret w
       ∧ ∀ m, w = Some m ↔ x = Some m ∧ y = Some m ∧ z = Some m.
Proof.
  destruct x as [[]|], y as [[]|], z as [[]|];
    (eexists; split; [vm_compute; reflexivity|]);
    intros m; (split; [intros Hw|intros (Hx & Hy & Hz)]);
      repeat split; congruence.
Qed.

Lemma diagonal_spec (a0 a1 a2 b0 b1 b2 c0 c1 c2 : option mark) :
  let b := [[a0; a1; a2]; [b0; b1; b2]; [c0; c1; c2]] in
  (∃ w, diagonal b 0 2 = mret w
        ∧ ∀ m, w = Some m ↔ a0 = Some m ∧ b1 = Some m ∧ c2 = Some m)
  ∧ (∃ w, diagonal b 2 0 = mret w
          ∧ ∀ m, w = Some m ↔ a2 = Some m ∧ b1 = Some m ∧ c0 = Some m).
Proof.
  split.
  - destruct a0 as [[]|], b1 as [[]|], c2 as [[]|];
      (eexists; split; [vm_compute; reflexivity|]);
      intros m; (split; [intros Hw|intros (Hx & Hy & Hz)]);
      repeat split; congruence.
  - destruct a2 as [[]|], b1 as [[]|], c0 as [[]|];
      (eexists; split; [vm_compute; reflexivity|]);
      intros m; (split; [intros Hw|intros (Hx & Hy & Hz)]);
      repeat split; congruence.
Qed.

Lemma has_line_board (a0 a1 a2 b0 b1 b2 c0 c1 c2 : option mark) (m : mark) :
  has_line [[a0; a1; a2]; [b0; b1; b2]; [c0; c1; c2]] m
  ↔ (a0 = Some m ∧ a1 = Some m ∧ a2 = Some m)
    ∨ (b0 = Some m ∧ b1 = Some m ∧ b2 = Some m)
    ∨ (c0 = Some m ∧ c1 = Some m ∧ c2 = Some m)
    ∨ (a0 = Some m ∧ b0 = Some m ∧ c0 = Some m)
    ∨ (a1 = Some m ∧ b1 = Some m ∧ c1 = Some m)
    ∨ (a2 = Some m ∧ b2 = Some m ∧ c2 = Some m)
    ∨ (a0 = Some m ∧ b1 = Some m ∧ c2 = Some m)
    ∨ (a2 = Some m ∧ b1 = Some m ∧ c0 = Some m).
Proof.
  unfold has_line, lines. split.
  - intros (line & Hin & Hall).
    repeat (apply elem_of_cons in Hin as [->|Hin]);
      [..|by apply elem_of_nil in Hin];
      match type of Hall with
      | ∀ a, a ∈ [?p; ?q; ?r] → _ =>
          pose proof (Hall p (list_elem_of_here _ _)) as H1;
          pose proof (Hall q (list_elem_of_further _ _ _
                                (list_elem_of_here _ _))) as H2;
          pose proof (Hall r (list_elem_of_further _ _ _
                                (list_elem_of_further _ _ _
                                   (list_elem_of_here _ _)))) as H3
      end;
      vm_compute in H1, H2, H3;
      injection H1 as H1; injection H2 as H2; injection H3 as H3; tauto.
  - intros H.
    repeat destruct H as [H|H]; destruct H as (-> & -> & ->);
      [exists [(0, 0); (0, 1); (0, 2)] | exists [(1, 0); (1, 1); (1, 2)]
      |exists [(2, 0); (2, 1); (2, 2)] | exists [(0, 0); (1, 0); (2, 0)]
      |exists [(0, 1); (1, 1); (2, 1)] | exists [(0, 2); (1, 2); (2, 2)]
      |exists [(0, 0); (1, 1); (2, 2)] | exists [(0, 2); (1, 1); (2, 0)]];
      (split; [apply (bool_decide_unpack _); by vm_compute|]);
      intros a Ha; repeat (apply elem_of_cons in Ha as [->|Ha]);
      solve [reflexivity | by apply elem_of_nil in Ha].
Qed.

Lemma winner_board (a0 a1 a2 b0 b1 b2 c0 c1 c2 : option mark) :
  let b := [[a0; a1; a2]; [b0; b1; b2]; [c0; c1; c2]] in
  ∃ w, winner b = mret w
       ∧ (∀ m, w = Some m → has_line b m)
       ∧ (w = None → ∀ m, ¬ has_line b m).
Proof.
  intros b.
  destruct (three_of_first_spec a0 a1 a2) as (w1 & E1 & H1).
  destruct (three_of_first_spec b0 b1 b2) as (w2 & E2 & H2).
  destruct (three_of_first_spec c0 c1 c2) as (w3 & E3 & H3).
  destruct (three_of_first_spec a0 b0 c0) as (w4 & E4 & H4).
  destruct (three_of_first_spec a1 b1 c1) as (w5 & E5 & H5).
  destruct (three_of_first_spec a2 b2 c2) as (w6 & E6 & H6).
  destruct (diagonal_spec a0 a1 a2 b0 b1 b2 c0 c1 c2)
    as [(w7 & E7 & H7) (w8 & E8 & H8)].
  assert (∀ m, w1 = Some m ∨ w2 = Some m ∨ w3 = Some m ∨ w4 = Some m
               ∨ w5 = Some m ∨ w6 = Some m ∨ w7 = Some m ∨ w8 = Some m
               ↔ has_line b m) as Hline.
  { intros m. unfold b.
    rewrite has_line_board, H1, H2, H3, H4, H5, H6, H7, H8. tauto. }
  subst b. unfold winner, range3.
  cbn [winner_rows winner_columns].
  change (column _ 0) with (mret (M := outcome) [a0; b0; c0]).
  change (column _ 1) with (mret (M := outcome) [a1; b1; c1]).
  change (column _ 2) with (mret (M := outcome) [a2; b2; c2]).
  cbn [mbind outcome_bind mret outcome_ret].
  rewrite E1. cbn [mbind outcome_bind mret outcome_ret].
  destruct w1 as [m1|];
    [exists (Some m1); split; [done|]; split; [|done];
     intros m [= <-]; apply Hline; tauto|].
  rewrite E2. cbn [mbind outcome_bind mret outcome_ret].
  destruct w2 as [m2|];
    [exists (Some m2); split; [done|]; split; [|done];
     intros m [= <-]; apply Hline; tauto|].
  rewrite E3. cbn [mbind outcome_bind mret outcome_ret].
  destruct w3 as [m3|];
    [exists (Some m3); split; [done|]; split; [|done];
     intros m [= <-]; apply Hline; tauto|].
  rewrite E4. cbn [mbind outcome_bind mret outcome_ret].
  destruct w4 as [m4|];
    [exists (Some m4); split; [done|]; split; [|done];
     intros m [= <-]; apply Hline; tauto|].
  rewrite E5. cbn [mbind outcome_bind mret outcome_ret].
  destruct w5 as [m5|];
    [exists (Some m5); split; [done|]; split; [|done];
     intros m [= <-]; apply Hline; tauto|].
  rewrite E6. cbn [mbind outcome_bind mret outcome_ret].
  destruct w6 as [m6|];
    [exists (Some m6); split; [done|]; split; [|done];
     intros m [= <-]; apply Hline; tauto|].
  rewrite E7. cbn [mbind outcome_bind mret outcome_ret].
  destruct w7 as [m7|];
    [exists (Some m7); split; [done|]; split; [|done];
     intros m [= <-]; apply Hline; tauto|].
  rewrite E8. cbn [mbind outcome_bind mret outcome_ret].
  destruct w8 as [m8|];
    [exists (Some m8); split; [done|]; split; [|done];
     intros m [= <-]; apply Hline; tauto|].
  exists None. split; [done|]. split; [done|].
  intros _ m Hm. apply Hline in Hm.
  repeat destruct Hm as [Hm|Hm]; discriminate Hm.
Qed.

Lemma winner_spec (b : board) :
  well_formed b →
  ∃ w, winner b = mret w
       ∧ (∀ m, w = Some m → has_line b m)
       ∧ (w = None → ∀ m, ¬ has_line b m).
Proof.
  intros Hwf.
  destruct (well_formed_inv b Hwf)
    as (a0 & a1 & a2 & b0 & b1 & b2 & c0 & c1 & c2 & ->).
  apply winner_board.
Qed.

(** *** The end of a game *)

Lemma full_board (b : board) (s : gset (Z * Z)) :
  well_formed b → actions b = mret s →
  forallb (λ row : list (option mark), bool_decide (None ∉ row)) b = true
  ↔ s = ∅.
Proof.
  intros Hwf Hact.
  destruct (actions_spec b Hwf) as (s0 & Hact0 & Hs).
  rewrite Hact in Hact0. injection Hact0 as <-.
  destruct (well_formed_inv b Hwf)
    as (a0 & a1 & a2 & b0 & b1 & b2 & c0 & c1 & c2 & ->).
  cbn [forallb]. rewrite !andb_true_iff, !bool_decide_eq_true.
  rewrite !not_elem_of_cons. split.
  - intros H. apply elem_of_equiv_empty_L. intros [i j] Hin.
    apply Hs in Hin as (Hi & Hj & Hc).
    assert (i = 0 ∨ i = 1 ∨ i = 2) as [->|[->| ->]] by lia;
      assert (j = 0 ∨ j = 1 ∨ j = 2) as [->|[->| ->]] by lia;
      injection Hc as ->; tauto.
  - intros ->.
    assert (∀ i j, 0 ≤ i < 3 → 0 ≤ j < 3 →
                   cell [[a0; a1; a2]; [b0; b1; b2]; [c0; c1; c2]] i j
                   ≠ mret None) as Hnone.
    { intros i j Hi Hj Hc. by apply (not_elem_of_empty (C := gset (Z * Z)) (i, j)), Hs. }
    repeat split; try apply not_elem_of_nil; intros Heq;
      first [by apply (Hnone 0 0); [lia..|rewrite <- Heq]
            |by apply (Hnone 0 1); [lia..|rewrite <- Heq]
            |by apply (Hnone 0 2); [lia..|rewrite <- Heq]
            |by apply (Hnone 1 0); [lia..|rewrite <- Heq]
            |by apply (Hnone 1 1); [lia..|rewrite <- Heq]
            |by apply (Hnone 1 2); [lia..|rewrite <- Heq]
            |by apply (Hnone 2 0); [lia..|rewrite <- Heq]
            |by apply (Hnone 2 1); [lia..|rewrite <- Heq]
            |by apply (Hnone 2 2); [lia..|rewrite <- Heq]].
Qed.

Lemma terminal_spec (b : board) :
  well_formed b →
  ∃ w s t, winner b = mret w ∧ actions b = mret s ∧ terminal b = mret t
           ∧ (t = true ↔ w ≠ None ∨ s = ∅).
Proof.
  intros Hwf.
  destruct (winner_spec b Hwf) as (w & Hw & _).
  destruct (actions_spec b Hwf) as (s & Hact & _).
  unfold terminal. rewrite Hw. cbn [mbind outcome_bind].
  destruct w as [m|].
  - exists (Some m), s, true. repeat split; try done. by left.
  - eexists None, s, _. split; [done|]. split; [done|]. split; [done|].
    rewrite (full_board b s Hwf Hact). split; [by right|].
    by intros [H|H].
Qed.

Lemma order_nonempty (order : gset (Z * Z) → list (Z * Z)) (s : gset (Z * Z)) :
  (∀ s, order s ≡ₚ elements s) → s ≠ ∅ →
  ∃ a todo, order s = a :: todo ∧ a ∈ s.
Proof.
  intros Horder Hne. destruct (order s) as [|a todo] eqn:Hord.
  - destruct Hne. apply leibniz_equiv, elements_empty_inv.
    symmetry. apply Permutation_nil_l. by rewrite <- Hord, Horder.
  - exists a, todo. split; [done|].
    apply elem_of_elements. rewrite <- Horder, Hord. apply list_elem_of_here.
Qed.

Lemma minimax_spec (order : gset (Z * Z) → list (Z * Z)) :
  (∀ s, order s ≡ₚ elements s) →
  ∀ depth b s,
    well_formed b → actions b = mret s → (size s < depth)%nat →
    ∃ t, terminal b = mret t
         ∧ minimax order depth b
           = Some (if t then mret VNone else throw TypeError).
Proof.
  intros Horder. induction depth as [|depth IH]; intros b s Hwf Hact Hsize.
  { lia. }
  destruct (terminal_spec b Hwf) as (w & s' & t & Hw & Hact' & Ht & Hterm).
  rewrite Hact in Hact'. injection Hact' as <-.
  exists t. split; [done|]. cbn [minimax]. rewrite Ht.
  destruct t; [done|].
  assert (s ≠ ∅) as Hne.
  { intros Hs. assert (false = true) as Habs by (apply Hterm; by right).
    discriminate Habs. }
  destruct (order_nonempty order s Horder Hne) as (a & todo & Hord & Ha).
  destruct (legal_move b s a Hwf Hact Ha) as (b' & Hres & Hwf' & Hact' & _).
  destruct (IH b' (s ∖ {[ a ]}) Hwf' Hact') as (t' & Ht' & Hmm).
  { assert (size s = S (size (s ∖ {[ a ]}))) as Hs; [|lia].
    rewrite (union_difference_L {[ a ]} s) at 1
      by by apply singleton_subseteq_l.
    rewrite size_union, size_singleton; [done|].
    apply elem_of_disjoint. intros x Hx Hx'.
    by apply elem_of_difference in Hx' as [_ Hx']. }
  destruct (decide (player b = X)); cbv beta iota zeta;
    rewrite Hact; cbn [mret outcome_ret]; rewrite Hord; cbn [minimax_loop];
    rewrite Hres; cbn [mret outcome_ret]; rewrite Hmm; by destruct t'.
Qed.

Lemma utility_spec (b : board) :
  well_formed b →
  ∃ u, utility b = mret u
       ∧ (u = 1 ∧ winner b = mret (Some X)
          ∨ u = -1 ∧ winner b = mret (Some O)
          ∨ u = 0 ∧ winner b = mret None).
Proof.
  intros Hwf. destruct (winner_spec b Hwf) as (w & Hw & _).
  unfold utility. rewrite Hw. cbn [mbind outcome_bind].
  destruct w as [[]|]; eexists; (split; [reflexivity|]); tauto.
Qed.

(** *** Boards of other shapes *)

Lemma item_nonneg {A} (l : list A) (i : Z) :
  0 ≤ i →
  item l i
  = match l !! Z.to_nat i with Some x => mret x | None => throw IndexError end.
Proof.
  intros Hi. unfold item, position.
  destruct (decide (0 ≤ i < Z.of_nat (length l))) as [Hlt|Hge].
  - done.
  - rewrite decide_False by lia. rewrite lookup_ge_None_2; [done|lia].
Qed.

Lemma cell_nonneg (b : board) (i j : Z) :
  0 ≤ i → 0 ≤ j →
  cell b i j
  = match b !! Z.to_nat i ≫= (.!! Z.to_nat j) with
    | Some s => mret s
    | None => throw IndexError
    end.
Proof.
  intros Hi Hj. unfold cell. rewrite (item_nonneg b i Hi).
  destruct (b !! Z.to_nat i) as [row|]; [|done].
  apply (item_nonneg row j Hj).
Qed.

Lemma actions_lookups (b : board) :
  let at_ (i j : nat) : outcome (option mark) :=
    match b !! i ≫= (.!! j) with
    | Some s => mret s
    | None => throw IndexError
    end in
  let add (i j : nat) (acc : gset (Z * Z)) : outcome (gset (Z * Z)) :=
    s ← at_ i j;
    mret (if s is None then acc ∪ {[ (Z.of_nat i, Z.of_nat j) ]} else acc) in
  actions b
  = (acc ← add 0 0 ∅; acc ← add 0 1 acc; acc ← add 0 2 acc;
     acc ← add 1 0 acc; acc ← add 1 1 acc; acc ← add 1 2 acc;
     acc ← add 2 0 acc; acc ← add 2 1 acc; add 2 2 acc)%nat.
Proof.
  intros at_ add. unfold actions, range3. cbn [for_each].
  rewrite (cell_nonneg b 0 0), (cell_nonneg b 0 1), (cell_nonneg b 0 2),
    (cell_nonneg b 1 0), (cell_nonneg b 1 1), (cell_nonneg b 1 2),
    (cell_nonneg b 2 0), (cell_nonneg b 2 1), (cell_nonneg b 2 2) by lia.
  change (Z.to_nat 0) with 0%nat. change (Z.to_nat 1) with 1%nat.
  change (Z.to_nat 2) with 2%nat. subst at_ add. cbv beta.
  destruct (b !! 0%nat ≫= (.!! 0%nat)) as [s00|]; [|done].
  destruct (b !! 0%nat ≫= (.!! 1%nat)) as [s01|]; [|done].
  destruct (b !! 0%nat ≫= (.!! 2%nat)) as [s02|]; [|done].
  destruct (b !! 1%nat ≫= (.!! 0%nat)) as [s10|]; [|done].
  destruct (b !! 1%nat ≫= (.!! 1%nat)) as [s11|]; [|done].
  destruct (b !! 1%nat ≫= (.!! 2%nat)) as [s12|]; [|done].
  destruct (b !! 2%nat ≫= (.!! 0%nat)) as [s20|]; [|done].
  destruct (b !! 2%nat ≫= (.!! 1%nat)) as [s21|]; [|done].
  destruct (b !! 2%nat ≫= (.!! 2%nat)) as [s22|]; done.
Qed.


(** *** The properties *)

(** X12. On a board of three rows of three squares [actions] raises
    nothing and returns exactly the places, row and column from 0 to 2,
    whose square is [None]. *)
Theorem actions_are_the_empty_squares (b : board) :
  well_formed b →
  ∃ s, actions b = mret s
       ∧ ∀ i j, (i, j) ∈ s ↔ 0 ≤ i < 3 ∧ 0 ≤ j < 3 ∧ cell b i j = mret None.
Proof. apply actions_spec. Qed.

Lemma actions_are_the_empty_squares_witness :
  ∃ s, actions centre_taken = mret s
       ∧ ∀ i j, (i, j) ∈ s
                ↔ 0 ≤ i < 3 ∧ 0 ≤ j < 3 ∧ cell centre_taken i j = mret None.
Proof.
  apply (actions_are_the_empty_squares centre_taken).
  split; [reflexivity|]. by repeat constructor.
Defined.

(** X13. [result] never looks at the square it is given: for indices from
    -3 to 2 it returns a board of the same shape in which that square,
    counted from the end for a negative index, holds the mark of the
    player to move, whether or not it was empty, and every other square is
    as before. *)
Theorem result_marks_the_square (b : board) (i j : Z) :
  well_formed b → -3 ≤ i < 3 → -3 ≤ j < 3 →
  ∃ b', result b (i, j) = mret b'
        ∧ well_formed b'
        ∧ ∀ i' j', 0 ≤ i' < 3 → 0 ≤ j' < 3 →
            cell b' i' j'
            = if decide (i' = i `mod` 3 ∧ j' = j `mod` 3)
              then mret (Some (player b)) else cell b i' j'.
Proof. apply result_board. Qed.

Lemma result_marks_the_square_witness :
  ∃ b', result centre_taken (-2, 1) = mret b'
        ∧ well_formed b'
        ∧ ∀ i' j', 0 ≤ i' < 3 → 0 ≤ j' < 3 →
            cell b' i' j'
            = if decide (i' = (-2) `mod` 3 ∧ j' = 1 `mod` 3)
              then mret (Some (player centre_taken))
              else cell centre_taken i' j'.
Proof.
  apply (result_marks_the_square centre_taken (-2) 1).
  - split; [reflexivity|]. by repeat constructor.
  - lia.
  - lia.
Defined.

(** X14. On a board of three by three, [result] raises IndexError for an
    action with an index below -3 or above 2. *)
Theorem result_out_of_the_board (b : board) (i j : Z) :
  well_formed b → ¬ (-3 ≤ i < 3 ∧ -3 ≤ j < 3) →
  result b (i, j) = throw IndexError.
Proof. apply result_out_of_range. Qed.

Lemma result_out_of_the_board_witness :
  result centre_taken (1, 3) = throw IndexError.
Proof.
  apply (result_out_of_the_board centre_taken 1 3).
  - split; [reflexivity|]. by repeat constructor.
  - lia.
Defined.

(** X15. A move that [actions] offers uses up that action and no other:
    [result] accepts it, and on the board it returns [actions] gives the
    same set without the action taken. *)
Theorem move_uses_up_its_action (b : board) (s : gset (Z * Z)) (a : Z * Z) :
  well_formed b → actions b = mret s → a ∈ s →
  ∃ b', result b a = mret b'
        ∧ well_formed b'
        ∧ actions b' = mret (s ∖ {[ a ]}).
Proof.
  intros Hwf Hact Ha.
  destruct (legal_move b s a Hwf Hact Ha) as (b' & Hres & Hwf' & Hact' & _).
  by exists b'.
Qed.

Lemma move_uses_up_its_action_witness :
  let s : gset (Z * Z) :=
    {[ (0, 0); (0, 1); (0, 2); (1, 0); (1, 2); (2, 0); (2, 1); (2, 2) ]} in
  ∃ b', result centre_taken (0, 2) = mret b'
        ∧ well_formed b'
        ∧ actions b' = mret (s ∖ {[ (0, 2) ]}).
Proof.
  intros s. apply (move_uses_up_its_action centre_taken s (0, 2)).
  - split; [reflexivity|]. by repeat constructor.
  - by vm_compute.
  - apply (bool_decide_unpack _). by vm_compute.
Defined.

(** X16. Every board of a game, the initial one and those reached by
    moves that [actions] offers, has three rows of three squares and as
    many X as O when [player] says X, one X more when it says O. *)
Theorem boards_of_a_game (b : board) :
  reachable b →
  well_formed b
  ∧ (occurrences (Some X) b = occurrences (Some O) b ∧ player b = X
     ∨ occurrences (Some X) b = S (occurrences (Some O) b) ∧ player b = O).
Proof.
  intros Hb. destruct (reachable_invariant b Hb) as [Hwf Hbal].
  split; [done|]. rewrite player_occurrences.
  destruct Hbal as [Heq|Heq]; [left|right]; (split; [done|]).
  - rewrite decide_False; [done|lia].
  - rewrite decide_True; [done|lia].
Qed.

Lemma boards_of_a_game_witness :
  well_formed centre_taken
  ∧ (occurrences (Some X) centre_taken = occurrences (Some O) centre_taken
     ∧ player centre_taken = X
     ∨ occurrences (Some X) centre_taken
       = S (occurrences (Some O) centre_taken)
       ∧ player centre_taken = O).
Proof.
  apply (boards_of_a_game centre_taken).
  apply (reachable_result initial_state (1, 1)
           {[ (0, 0); (0, 1); (0, 2); (1, 0); (1, 1); (1, 2);
              (2, 0); (2, 1); (2, 2) ]}).
  - apply reachable_initial.
  - by vm_compute.
  - apply (bool_decide_unpack _). by vm_compute.
  - reflexivity.
Defined.

(** X17. In a game the turn passes with every move: after a move that
    [actions] offers, [player] names the other mark, and the board is
    again a board of the game. *)
Theorem turns_alternate (b : board) (s : gset (Z * Z)) (a : Z * Z) :
  reachable b → actions b = mret s → a ∈ s →
  ∃ b', result b a = mret b' ∧ reachable b' ∧ player b' ≠ player b.
Proof.
  intros Hb Hact Ha. destruct (reachable_invariant b Hb) as [Hwf Hbal].
  destruct (legal_move b s a Hwf Hact Ha) as (b' & Hres & _ & _ & Hcell).
  exists b'. split; [done|]. split.
  - by eapply reachable_result.
  - destruct a as [i j].
    by destruct (move_passes_turn b i j b' Hbal Hcell Hres).
Qed.

Lemma turns_alternate_witness :
  ∃ b', result initial_state (1, 1) = mret b'
        ∧ reachable b' ∧ player b' ≠ player initial_state.
Proof.
  apply (turns_alternate initial_state
           {[ (0, 0); (0, 1); (0, 2); (1, 0); (1, 1); (1, 2);
              (2, 0); (2, 1); (2, 2) ]} (1, 1)).
  - apply reachable_initial.
  - by vm_compute.
  - apply (bool_decide_unpack _). by vm_compute.
Defined.

(** X18. [winner] is right about lines: on a board of three by three it
    returns a mark only if that mark holds a whole row, column or
    diagonal, and [None] only if no mark holds one. *)
Theorem winner_holds_a_line (b : board) :
  well_formed b →
  ∃ w, winner b = mret w
       ∧ (∀ m, w = Some m → has_line b m)
       ∧ (w = None → ∀ m, ¬ has_line b m).
Proof. apply winner_spec. Qed.

Lemma winner_holds_a_line_witness :
  ∃ w, winner top_row_won = mret w
       ∧ (∀ m, w = Some m → has_line top_row_won m)
       ∧ (w = None → ∀ m, ¬ has_line top_row_won m).
Proof.
  apply (winner_holds_a_line top_row_won).
  split; [reflexivity|]. by repeat constructor.
Defined.

(** X19. A game is over exactly when it is won or no action is left:
    [terminal] returns [True] if and only if [winner] returns a mark or
    [actions] returns the empty set. *)
Theorem terminal_iff_won_or_full (b : board) :
  well_formed b →
  ∃ w s t, winner b = mret w ∧ actions b = mret s ∧ terminal b = mret t
           ∧ (t = true ↔ w ≠ None ∨ s = ∅).
Proof. apply terminal_spec. Qed.

Lemma terminal_iff_won_or_full_witness :
  ∃ w s t, winner top_row_won = mret w ∧ actions top_row_won = mret s
           ∧ terminal top_row_won = mret t
           ∧ (t = true ↔ w ≠ None ∨ s = ∅).
Proof.
  apply (terminal_iff_won_or_full top_row_won).
  split; [reflexivity|]. by repeat constructor.
Defined.

(** X20. [utility] is 1 only on boards where X holds a line, -1 only where
    O holds one, and 0 only where nobody does. *)
Theorem utility_follows_the_lines (b : board) :
  well_formed b →
  ∃ u, utility b = mret u
       ∧ (u = 1 ∧ has_line b X
          ∨ u = -1 ∧ has_line b O
          ∨ u = 0 ∧ ∀ m, ¬ has_line b m).
Proof.
  intros Hwf. destruct (winner_spec b Hwf) as (w & Hw & Hsome & Hnone).
  destruct (utility_spec b Hwf) as (u & Hu & Hcases).
  exists u. split; [done|]. rewrite Hw in Hcases.
  destruct Hcases as [[-> [= ->]]|[[-> [= ->]]|[-> [= ->]]]].
  - left. split; [done|]. by apply Hsome.
  - right. left. split; [done|]. by apply Hsome.
  - right. right. split; [done|]. by apply Hnone.
Qed.

Lemma utility_follows_the_lines_witness :
  ∃ u, utility top_row_won = mret u
       ∧ (u = 1 ∧ has_line top_row_won X
          ∨ u = -1 ∧ has_line top_row_won O
          ∨ u = 0 ∧ ∀ m, ¬ has_line top_row_won m).
Proof.
  apply (utility_follows_the_lines top_row_won).
  split; [reflexivity|]. by repeat constructor.
Defined.

(** X21. [minimax] never returns a move. On a board of three by three,
    whatever the order in which the loop visits the actions, it returns
    [None] if the board is terminal and raises TypeError otherwise: the
    first recursive call comes back with [None], or has raised, and
    [None[0]] is an error. *)
Theorem minimax_never_moves (order : gset (Z * Z) → list (Z * Z))
    (depth : nat) (b : board) (s : gset (Z * Z)) :
  (∀ s, order s ≡ₚ elements s) →
  well_formed b → actions b = mret s → (size s < depth)%nat →
  ∃ t, terminal b = mret t
       ∧ minimax order depth b
         = Some (if t then mret VNone else throw TypeError).
Proof. intros Horder. by apply minimax_spec. Qed.

Lemma minimax_never_moves_witness :
  ∃ t, terminal initial_state = mret t
       ∧ minimax elements 10 initial_state
         = Some (if t then mret VNone else throw TypeError).
Proof.
  apply (minimax_never_moves elements 10 initial_state
           {[ (0, 0); (0, 1); (0, 2); (1, 0); (1, 1); (1, 2);
              (2, 0); (2, 1); (2, 2) ]}).
  - done.
  - split; [reflexivity|]. by repeat constructor.
  - by vm_compute.
  - apply (bool_decide_unpack _). by vm_compute.
Defined.

(** X22. [actions] reads three squares of each of three rows and nothing
    else: it succeeds exactly on the boards whose first three rows exist
    and have three squares or more, and raises IndexError on every other
    board. *)
Theorem actions_reads_three_by_three (b : board) :
  let fits :=
    (3 ≤ length b)%nat ∧ Forall (λ row, (3 ≤ length row)%nat) (take 3 b) in
  (fits ∧ ∃ s, actions b = mret s)
  ∨ (¬ fits ∧ actions b = throw IndexError).
Proof.
  intros fits. subst fits. rewrite actions_lookups. cbv zeta beta.
  destruct b as [|r0 [|r1 [|r2 rest]]];
    [| destruct r0 as [|? [|? [|? ?]]]
     | destruct r0 as [|? [|? [|? ?]]], r1 as [|? [|? [|? ?]]]
     | destruct r0 as [|? [|? [|? ?]]], r1 as [|? [|? [|? ?]]],
         r2 as [|? [|? [|? ?]]]];
    first
      [ left; split;
        [split;
         [cbn; lia
         |cbn; rewrite !Forall_cons, Forall_nil; cbn; repeat split; lia]
        |eexists; reflexivity]
      | right; split;
        [intros [H1 H2]; cbn in H1, H2; rewrite ?Forall_cons in H2;
         cbn in H2; lia
        |reflexivity] ].
Qed.
